(** * Retool OpenAI adapter: a shallow embedding of [retool.ts] and [config.ts]

    The development follows the source file by file.  JavaScript strings are
    modelled by [string], one character standing for one element of the
    JavaScript string (the program indexes, slices and compares strings,
    and looks inside a character only to compare it with an ASCII one);
    numbers that the program only uses as integers
    (millisecond clocks, counters, HTTP status codes) are modelled by [Z].
    The global arrays [RETOOL_ACCOUNTS] and [AVAILABLE_MODELS] form an
    explicit [State]; an account object is identified by its position in
    [RETOOL_ACCOUNTS], so that the in-place mutations of the source become
    updates at an index.  Everything the program reads from the outside
    world (the clock, upstream HTTP answers, generated identifiers) is an
    explicit argument. *)

From Stdlib Require Import ZArith Ascii Lia.
From stdpp Require Import base option list strings gmap.
From Equations Require Import Equations.

(** ** Strings *)

(** The line feed of the template literals, and the blank line
    ["\n\n"] that the source puts in front of every turn and after every
    server-sent event. *)
Definition LF : string := String (ascii_of_nat 10) EmptyString.
Definition LFLF : string := LF +:+ LF.

(** [s.endsWith(suffix)]. *)
Definition endsWith (s suffix : string) : bool :=
  let n := String.length s in
  let k := String.length suffix in
  (k <=? n)%nat && String.eqb (String.substring (n - k) k s) suffix.

(** ** config.ts: records *)

Inductive RetoolOperation : Type :=
| agent_query
| thread_create
| message_send
| message_get.

Record RetoolError : Type := mkRetoolError {
  operation : RetoolOperation;
  account : string;
  statusCode : option Z;
  message : string;
  timestamp : string
}.

(** [createRetoolError]; [stamp] is what [new Date().toISOString()]
    evaluates to at the call. *)
Definition createRetoolError (op : RetoolOperation) (acc msg : string)
    (status : option Z) (stamp : string) : RetoolError :=
  {| operation := op; account := acc; statusCode := status;
     message := msg; timestamp := stamp |}.

Inductive ErrorType : Type :=
| configuration_error
| upstream_error
| auth_error.

Record ErrorResponse : Type := mkErrorResponse {
  err_message : string;
  err_type : ErrorType;
  attempts : option Z;
  details : option (list RetoolError)
}.

Definition createErrorResponse (n : Z) (errors : list RetoolError)
    : ErrorResponse :=
  {| err_message := "All Retool accounts failed";
     err_type := upstream_error;
     attempts := Some n;
     details := Some errors |}.

(** An upstream agent descriptor, with the three fields the adapter reads:
    [ag.id], [ag.name] and [ag.data?.model]. *)
Record Agent : Type := mkAgent {
  agent_id : string;
  agent_name : string;
  agent_model : option string
}.

Record RetoolAccount : Type := mkAccount {
  domain_name : string;
  x_xsrf_token : string;
  accessToken : string;
  is_valid : bool;
  last_used : Z;
  error_count : Z;
  agents : list Agent;
  selected_agent_id : option string
}.

Definition set_is_valid (b : bool) (a : RetoolAccount) : RetoolAccount :=
  mkAccount (domain_name a) (x_xsrf_token a) (accessToken a) b
    (last_used a) (error_count a) (agents a) (selected_agent_id a).

Definition set_last_used (t : Z) (a : RetoolAccount) : RetoolAccount :=
  mkAccount (domain_name a) (x_xsrf_token a) (accessToken a) (is_valid a)
    t (error_count a) (agents a) (selected_agent_id a).

Definition set_error_count (n : Z) (a : RetoolAccount) : RetoolAccount :=
  mkAccount (domain_name a) (x_xsrf_token a) (accessToken a) (is_valid a)
    (last_used a) n (agents a) (selected_agent_id a).

Definition set_agents (l : list Agent) (a : RetoolAccount) : RetoolAccount :=
  mkAccount (domain_name a) (x_xsrf_token a) (accessToken a) (is_valid a)
    (last_used a) (error_count a) l (selected_agent_id a).

Definition set_selected_agent_id (s : string) (a : RetoolAccount)
    : RetoolAccount :=
  mkAccount (domain_name a) (x_xsrf_token a) (accessToken a) (is_valid a)
    (last_used a) (error_count a) (agents a) (Some s).

(** ** retool.ts: records and global state *)

Record ChatMessage : Type := mkMessage {
  role : string;
  content : string
}.

Record ModelRecord : Type := mkModel {
  model_id : string;
  model_display : string;
  model_name : string;
  owned_by : string;
  model_agents : list string
}.

Record State : Type := mkState {
  RETOOL_ACCOUNTS : list RetoolAccount;
  AVAILABLE_MODELS : list ModelRecord
}.

(** ** retool.ts: [formatMessagesForRetool] *)

(** [m.role === "user" ? "Human" : "Assistant"]. *)
Definition roleLabel (m : ChatMessage) : string :=
  if String.eqb (role m) "user" then "Human" else "Assistant".

(** One round of the [for ... of] loop: what is appended to [out]. *)
Definition turn (m : ChatMessage) : string :=
  LFLF +:+ roleLabel m +:+ ": " +:+ content m.

Definition formatLoop (out : string) (messages : list ChatMessage) : string :=
  fold_left (fun acc m => acc +:+ turn m) messages out.

Definition humanMarker : string := LFLF +:+ "Human: ".

(** [messages.length && messages[messages.length - 1].role === "assistant"]. *)
Definition endsWithAssistant (messages : list ChatMessage) : bool :=
  match last messages with
  | Some m => String.eqb (role m) "assistant"
  | None => false
  end.

Definition formatMessagesForRetool (messages : list ChatMessage) : string :=
  let out := formatLoop "" messages in
  if endsWithAssistant messages then out +:+ humanMarker else out.

(** The turns of a conversation one after the other, in message order,
    each behind its blank line. *)
Fixpoint conversation (messages : list ChatMessage) : string :=
  match messages with
  | [] => ""
  | m :: rest => turn m +:+ conversation rest
  end.

(** ** retool.ts: [getBestRetoolAccount] *)

Local Open Scope Z_scope.

(** [allowed.includes(a.id)]. *)
Definition includesId (allowed : list string) (x : string) : bool :=
  existsb (String.eqb x) allowed.

(** The body of the [filter] callback, without its assignment: the id of
    the agent that the callback stores in [selected_agent_id] when it
    answers [true], and [None] when it answers [false]. *)
Definition candidateAgent (now : Z) (allowed : list string)
    (acc : RetoolAccount) : option string :=
  if negb (is_valid acc) then None
  else if (3 <=? error_count acc) && (now - last_used acc <? 300000)
  then None
  else match find (fun a => includesId allowed (agent_id a)) (agents acc) with
       | None => None
       | Some agent => Some (agent_id agent)
       end.

(** [RETOOL_ACCOUNTS.filter(...)], from position [i] on: the positions of
    the accounts kept, and the accounts after the callback's writes. *)
Fixpoint filterCandidates (now : Z) (allowed : list string) (i : nat)
    (accs : list RetoolAccount) : list nat * list RetoolAccount :=
  match accs with
  | [] => ([], [])
  | acc :: rest =>
      let '(kept, rest') := filterCandidates now allowed (S i) rest in
      match candidateAgent now allowed acc with
      | Some aid => (i :: kept, set_selected_agent_id aid acc :: rest')
      | None => (kept, acc :: rest')
      end
  end.

(** An account object after the [filter] callback has run on it. *)
Definition afterFilter (now : Z) (allowed : list string)
    (acc : RetoolAccount) : RetoolAccount :=
  match candidateAgent now allowed acc with
  | Some aid => set_selected_agent_id aid acc
  | None => acc
  end.

(** Ascending lexicographic order on ([last_used], [error_count]). *)
Definition lexLe (a b : RetoolAccount) : Prop :=
  last_used a < last_used b \/
  (last_used a = last_used b /\ error_count a <= error_count b).

(** The comparator
    [(a.last_used - b.last_used) || (a.error_count - b.error_count)]. *)
Definition compareAccounts (a b : RetoolAccount) : Z :=
  let d := last_used a - last_used b in
  if d =? 0 then error_count a - error_count b else d.

Section Sort.
Context {A : Type} (cmp : A -> A -> Z).

(** [Array.prototype.sort] is stable: an element goes in front of the
    first element that it does not have to follow. *)
Fixpoint sortInsert (x : A) (l : list A) : list A :=
  match l with
  | [] => [x]
  | y :: l' => if cmp x y <=? 0 then x :: y :: l' else y :: sortInsert x l'
  end.

Fixpoint sortBy (l : list A) : list A :=
  match l with
  | [] => []
  | x :: l' => sortInsert x (sortBy l')
  end.
End Sort.

(** The comparator on positions: the sorted array holds references to the
    account objects of [accs]. *)
Definition compareAt (accs : list RetoolAccount) (i j : nat) : Z :=
  match accs !! i, accs !! j with
  | Some a, Some b => compareAccounts a b
  | _, _ => 0
  end.

Definition findModel (modelId : string) (models : list ModelRecord)
    : option ModelRecord :=
  find (fun m => String.eqb (model_id m) modelId) models.

(** The candidate positions that [getBestRetoolAccount] computes at time
    [now] for [modelId] ([[]] when the model is unknown). *)
Definition candidates (now : Z) (modelId : string) (st : State) : list nat :=
  match findModel modelId (AVAILABLE_MODELS st) with
  | None => []
  | Some record =>
      fst (filterCandidates now (model_agents record) 0 (RETOOL_ACCOUNTS st))
  end.

(** [getBestRetoolAccount(modelId)] when [Date.now()] is [now]: the position
    of the returned account ([None] for [undefined]) and the state left
    behind. *)
Definition getBestRetoolAccount (now : Z) (modelId : string) (st : State)
    : option nat * State :=
  match findModel modelId (AVAILABLE_MODELS st) with
  | None => (None, st)
  | Some record =>
      let '(kept, accs) :=
        filterCandidates now (model_agents record) 0 (RETOOL_ACCOUNTS st) in
      match sortBy (compareAt accs) kept with
      | [] => (None, mkState accs (AVAILABLE_MODELS st))
      | chosen :: _ =>
          (Some chosen,
           mkState (alter (set_last_used now) chosen accs)
                   (AVAILABLE_MODELS st))
      end
  end.

(** ** retool.ts: upstream calls *)

(** What a [try] block can end in: a value, a thrown [RetoolApiError]
    carrying its [retoolError], or any other exception with its message. *)
Inductive Result (A : Type) : Type :=
| Returned (a : A)
| ThrownApi (e : RetoolError)
| ThrownOther (msg : string).
Arguments Returned {A} a.
Arguments ThrownApi {A} e.
Arguments ThrownOther {A} msg.

(** What [await fetch(...)] followed by [await resp.json()] gives: an
    exception (network failure, malformed body), or a status with the
    decoded body. *)
Inductive Fetched (A : Type) : Type :=
| FetchFailed (msg : string)
| Answer (status : Z) (payload : A).
Arguments FetchFailed {A} msg.
Arguments Answer {A} status payload.

(** [resp.ok]. *)
Definition ok (status : Z) : bool := (200 <=? status) && (status <=? 299).

Definition upstreamCall {A : Type} (op : RetoolOperation) (failure : string)
    (acc : RetoolAccount) (f : Fetched A) (stamp : string) : Result A :=
  match f with
  | FetchFailed msg => ThrownOther msg
  | Answer status payload =>
      if ok status then Returned payload
      else ThrownApi
             (createRetoolError op (domain_name acc) failure (Some status) stamp)
  end.

Definition retoolQueryAgents (acc : RetoolAccount)
    (f : Fetched (list Agent)) (stamp : string) : Result (list Agent) :=
  upstreamCall agent_query "Agent query failed" acc f stamp.

Definition retoolGetThreadId (acc : RetoolAccount)
    (f : Fetched string) (stamp : string) : Result string :=
  upstreamCall thread_create "Create thread failed" acc f stamp.

Definition retoolSendMessage (acc : RetoolAccount)
    (f : Fetched string) (stamp : string) : Result string :=
  upstreamCall message_send "Send message failed" acc f stamp.

(** The log document of a run: [data.status] and, for every entry [e] of
    [data.trace], the text [e.data.data.content]. *)
Record RunLog : Type := mkRunLog {
  log_status : string;
  trace : list string
}.

(** One round of the polling loop as the outside world plays it: the value
    of [Date.now()] in the loop test, the answer to the GET should the loop
    body run, and the time stamp an error created in this round gets. *)
Record PollTick : Type := mkTick {
  tick_now : Z;
  tick_fetch : Fetched RunLog;
  tick_stamp : string
}.

(** The message of the [TypeError] raised by [last.data] when the trace of
    a completed run is empty. *)
Definition undefinedTraceEntry : string :=
  "Cannot read properties of undefined (reading 'data')".

(** The [while (Date.now() < deadline)] loop over the rounds of [script];
    [None] when the script ends while the loop is still running. *)
Fixpoint pollLoop (acc : RetoolAccount) (deadline : Z)
    (script : list PollTick) : option (Result string) :=
  match script with
  | [] => None
  | t :: rest =>
      if tick_now t <? deadline then
        match tick_fetch t with
        | FetchFailed msg => Some (ThrownOther msg)
        | Answer status data =>
            if ok status then
              if String.eqb (log_status data) "COMPLETED" then
                match last (trace data) with
                | Some text => Some (Returned text)
                | None => Some (ThrownOther undefinedTraceEntry)
                end
              else pollLoop acc deadline rest
            else Some (ThrownApi
                         (createRetoolError message_get (domain_name acc)
                            "Get log failed" (Some status) (tick_stamp t)))
        end
      else Some (ThrownApi
                   (createRetoolError message_get (domain_name acc)
                      "Timeout waiting for completion" None (tick_stamp t)))
  end.

(** [retoolGetMessage(acc, agentId, runId, timeoutMs)] when the first
    [Date.now()] is [start]. *)
Definition retoolGetMessage (acc : RetoolAccount) (start timeoutMs : Z)
    (script : list PollTick) : option (Result string) :=
  pollLoop acc (start + timeoutMs) script.

Definition defaultTimeoutMs : Z := 300000.

(** A round that leaves the loop running: before the deadline, answered
    with success, run not completed. *)
Definition tickPending (deadline : Z) (t : PollTick) : Prop :=
  tick_now t < deadline /\
  exists status data,
    tick_fetch t = Answer status data /\ ok status = true /\
    log_status data <> "COMPLETED".

(** What the polling loop does to the outside world, in order: the GET of
    every round whose loop test passes, and
    [await new Promise((r) => setTimeout(r, 1_000))] at the end of a round
    that found the run not completed. *)
Inductive PollEffect : Type :=
| GetLog
| Sleep (ms : Z).

Fixpoint pollEffects (deadline : Z) (script : list PollTick)
    : list PollEffect :=
  match script with
  | [] => []
  | t :: rest =>
      if tick_now t <? deadline then
        GetLog ::
        match tick_fetch t with
        | FetchFailed _ => []
        | Answer status data =>
            if ok status then
              if String.eqb (log_status data) "COMPLETED" then []
              else Sleep 1000 :: pollEffects deadline rest
            else []
        end
      else []
  end.

(** The requests and sleeps of [retoolGetMessage(acc, agentId, runId,
    timeoutMs)] when the first [Date.now()] is [start]. *)
Definition retoolGetMessageEffects (start timeoutMs : Z)
    (script : list PollTick) : list PollEffect :=
  pollEffects (start + timeoutMs) script.

(** ** retool.ts: model discovery *)

Definition isHyphen (c : ascii) : bool := Ascii.eqb c "-"%char.

(** [s.split("-")]. *)
Fixpoint splitHyphen (s : string) : list string :=
  match s with
  | EmptyString => [EmptyString]
  | String c s' =>
      if isHyphen c then EmptyString :: splitHyphen s'
      else match splitHyphen s' with
           | [] => [String c EmptyString]
           | h :: t => String c h :: t
           end
  end.

(** [parts.join("-")]. *)
Definition joinHyphen (parts : list string) : string :=
  String.concat "-" parts.

(** [fullName.split("-").slice(0, 3).join("-")]. *)
Definition seriesOf (fullName : string) : string :=
  joinHyphen (take 3 (splitHyphen fullName)).

(** [toLowerCase] on the letters A to Z.  Characters outside ASCII are
    left alone: no character outside ASCII has a lower-case form that
    contains a letter of the word "claude", so the test below is not
    affected. *)
Definition lowerAscii (c : ascii) : ascii :=
  let n := nat_of_ascii c in
  if ((65 <=? n) && (n <=? 90))%nat then ascii_of_nat (n + 32) else c.

Fixpoint toLowerCase (s : string) : string :=
  match s with
  | EmptyString => EmptyString
  | String c s' => String (lowerAscii c) (toLowerCase s')
  end.

(** [hay.includes(needle)]. *)
Fixpoint includes (needle hay : string) : bool :=
  String.prefix needle hay ||
  match hay with
  | EmptyString => false
  | String _ hay' => includes needle hay'
  end.

Definition ownerOf (fullName : string) : string :=
  if includes "claude" (toLowerCase fullName) then "anthropic" else "openai".

(** [ag.data?.model ?? "unknown"]. *)
Definition fullNameOf (ag : Agent) : string :=
  default "unknown" (agent_model ag).

(** The [Map<string, ModelRecord>] of the aggregation: an association list
    in insertion order, which is the order of [map.values()]. *)
Definition mapGet (series : string) (m : list (string * ModelRecord))
    : option ModelRecord :=
  snd <$> find (fun kv => String.eqb (fst kv) series) m.

Fixpoint mapSet (series : string) (rec : ModelRecord)
    (m : list (string * ModelRecord)) : list (string * ModelRecord) :=
  match m with
  | [] => [(series, rec)]
  | kv :: m' =>
      if String.eqb (fst kv) series then (series, rec) :: m'
      else kv :: mapSet series rec m'
  end.

(** [rec.agents.push(id)]. *)
Definition pushAgent (aid : string) (rec : ModelRecord) : ModelRecord :=
  mkModel (model_id rec) (model_display rec) (model_name rec) (owned_by rec)
    (model_agents rec ++ [aid])%list.

(** The body of the inner loop for one agent.  The record is shared
    between the map and the local [rec], so the [push] is seen in the
    map. *)
Definition aggregateAgent (m : list (string * ModelRecord)) (ag : Agent)
    : list (string * ModelRecord) :=
  let fullName := fullNameOf ag in
  let series := seriesOf fullName in
  let rec :=
    match mapGet series m with
    | Some rec => rec
    | None => mkModel series (agent_name ag) fullName (ownerOf fullName) []
    end in
  mapSet series (pushAgent (agent_id ag) rec) m.

(** The two nested loops: accounts in order, agents of each in order. *)
Definition allAgents (accs : list RetoolAccount) : list Agent :=
  concat (map agents accs).

Definition aggregateModels (accs : list RetoolAccount) : list ModelRecord :=
  map snd (fold_left aggregateAgent (allAgents accs) []).

(** [err.retoolError.statusCode === 401 || ... === 403]. *)
Definition isAuthStatus (status : option Z) : bool :=
  match status with
  | Some c => (c =? 401) || (c =? 403)
  | None => false
  end.

(** The [try]/[catch] of the first loop for one account, given what
    [retoolQueryAgents] ended in. *)
Definition discoverAccount (acc : RetoolAccount) (r : Result (list Agent))
    : RetoolAccount :=
  match r with
  | Returned ags => set_agents ags acc
  | ThrownApi e =>
      set_agents []
        (if isAuthStatus (statusCode e) then set_is_valid false acc else acc)
  | ThrownOther _ => set_agents [] acc
  end.

(** The discovery loop; [answers] and [stamps] give, account by account,
    what the agent query is answered with (an account past the end of
    [answers] sees a network failure). *)
Fixpoint discoverAccounts (accs : list RetoolAccount)
    (answers : list (Fetched (list Agent) * string)) : list RetoolAccount :=
  match accs with
  | [] => []
  | acc :: accs' =>
      let '(f, stamp) :=
        match answers with
        | [] => (FetchFailed "", "")
        | a :: _ => a
        end in
      discoverAccount acc (retoolQueryAgents acc f stamp)
        :: discoverAccounts accs' (tail answers)
  end.

Definition initializeRetoolEnvironment
    (answers : list (Fetched (list Agent) * string)) (st : State) : State :=
  let accs := discoverAccounts (RETOOL_ACCOUNTS st) answers in
  mkState accs (aggregateModels accs).

(** ** retool.ts: [retoolStreamGenerator] *)

(** The [delta] object of a chunk. *)
Inductive Delta : Type :=
| DeltaRole (r : string)
| DeltaContent (part : string)
| DeltaEmpty.

(** The object literal handed to [JSON.stringify] for every frame
    ([object] is always ["chat.completion.chunk"], [index] always 0). *)
Record Chunk : Type := mkChunk {
  chunk_id : string;
  chunk_created : Z;
  chunk_model : string;
  chunk_delta : Delta;
  finish_reason : option string
}.

Definition doneMarker : string := "data: [DONE]" +:+ LFLF.

Section Stream.
(** [JSON.stringify] on chunk objects. *)
Variable JSON_stringify : Chunk -> string.

(** [`data: ${json}\n\n`]. *)
Definition dataFrame (c : Chunk) : string :=
  "data: " +:+ JSON_stringify c +:+ LFLF.

Definition roleFrame (streamId : string) (created : Z) (modelId : string)
    : string :=
  dataFrame (mkChunk streamId created modelId (DeltaRole "assistant") None).

Definition contentFrame (streamId : string) (created : Z) (modelId : string)
    (part : string) : string :=
  dataFrame (mkChunk streamId created modelId (DeltaContent part) None).

Definition stopFrame (streamId : string) (created : Z) (modelId : string)
    : string :=
  dataFrame (mkChunk streamId created modelId DeltaEmpty (Some "stop")).

Definition chunkSize : nat := 5.

(** [fullMessage.slice(i, i + chunkSize)] for [i] within the string. *)
Definition sliceAt (fullMessage : string) (i : nat) : string :=
  String.substring i chunkSize fullMessage.

(** The [for (let i = 0; i < fullMessage.length; i += chunkSize)] loop,
    entered with the counter at [i]: the values it yields. *)
Equations? contentLoop (streamId : string) (created : Z) (modelId : string)
    (fullMessage : string) (i : nat) : list string
    by wf (String.length fullMessage - i)%nat lt :=
  contentLoop streamId created modelId fullMessage i
    with lt_dec i (String.length fullMessage) => {
    | left _ =>
        contentFrame streamId created modelId (sliceAt fullMessage i)
          :: contentLoop streamId created modelId fullMessage (i + chunkSize)%nat;
    | right _ => [] }.
Proof. unfold chunkSize. lia. Qed.

(** The values yielded by [retoolStreamGenerator(fullMessage, modelId)], in
    order, when [crypto.randomUUID()] gives [streamId] and [Date.now()]
    gives [now]. *)
Definition retoolStreamGenerator (fullMessage modelId : string)
    (streamId : string) (now : Z) : list string :=
  let created := now / 1000 in
  ([roleFrame streamId created modelId]
     ++ contentLoop streamId created modelId fullMessage 0
     ++ [stopFrame streamId created modelId +:+ doneMarker])%list.
End Stream.

(** The number of rounds of the loop above for a text of [len]
    characters: [len / chunkSize] rounded up. *)
Definition sliceCount (len : nat) : nat := ((len + 4) / 5)%nat.

(** The [k]-th slice of five characters of a text. *)
Definition nthSlice (fullMessage : string) (k : nat) : string :=
  String.substring (5 * k) 5 fullMessage.

(** ** retool.ts: [handleRequest], POST /v1/chat/completions *)

Record ChatCompletionRequest : Type := mkRequest {
  req_model : string;
  req_messages : list ChatMessage;
  req_stream : bool
}.

(** The responses of the route, after authentication and body parsing. *)
Inductive Response : Type :=
| PlainError (msg : string) (status : Z)
| ChatCompletion (model text : string)
| ChatCompletionStream (model text : string)
| ErrorStream (msg : string) (code : Z)
| ErrorJson (e : ErrorResponse) (status : Z).

(** What the outside world does during one round of the retry loop: the
    clock read by the selector, what the [try] block (thread creation,
    message send, polling) ends in, and the time stamp of an error record
    created in the [catch] block. *)
Record Attempt : Type := mkAttempt {
  attempt_now : Z;
  attempt_outcome : Result string;
  attempt_stamp : string
}.

(** The [catch] block, for the account at position [i]. *)
Definition recordFailure (i : nat) (err : RetoolError) (auth : bool)
    (accs : list RetoolAccount) : list RetoolAccount :=
  let accs1 := alter (fun a => set_error_count (error_count a + 1) a) i accs in
  if auth then alter (set_is_valid false) i accs1 else accs1.
Arguments recordFailure : simpl never.

(** The local variables of the retry loop, with the positions of the
    accounts tried so far (most recent last), which the source does not
    keep but the statements below refer to. *)
Record LoopState : Type := mkLoop {
  loop_state : State;
  attemptCount : Z;
  collectedErrors : list RetoolError;
  tried : list nat
}.

(** The retry loop with [remaining] iterations to go, the next being number
    [attempt]: the response returned from inside the loop, if any, and the
    variables when the loop is left. *)
Fixpoint retryLoop (world : nat -> Attempt) (body : ChatCompletionRequest)
    (remaining attempt : nat) (ls : LoopState) : option Response * LoopState :=
  match remaining with
  | O => (None, ls)
  | S remaining' =>
      let w := world attempt in
      match getBestRetoolAccount (attempt_now w) (req_model body)
              (loop_state ls) with
      | (None, st1) =>
          (None, mkLoop st1 (attemptCount ls) (collectedErrors ls) (tried ls))
      | (Some i, st1) =>
          let count := attemptCount ls + 1 in
          let seen := (tried ls ++ [i])%list in
          match attempt_outcome w with
          | Returned responseTxt =>
              (Some (if req_stream body
                     then ChatCompletionStream (req_model body) responseTxt
                     else ChatCompletion (req_model body) responseTxt),
               mkLoop st1 count (collectedErrors ls) seen)
          | ThrownApi e =>
              let accs :=
                recordFailure i e (isAuthStatus (statusCode e))
                  (RETOOL_ACCOUNTS st1) in
              retryLoop world body remaining' (S attempt)
                (mkLoop (mkState accs (AVAILABLE_MODELS st1)) count
                   (collectedErrors ls ++ [e])%list seen)
          | ThrownOther msg =>
              let dom :=
                default "" (domain_name <$> RETOOL_ACCOUNTS st1 !! i) in
              let e :=
                createRetoolError message_send dom msg None (attempt_stamp w) in
              let accs := recordFailure i e false (RETOOL_ACCOUNTS st1) in
              retryLoop world body remaining' (S attempt)
                (mkLoop (mkState accs (AVAILABLE_MODELS st1)) count
                   (collectedErrors ls ++ [e])%list seen)
          end
      end
  end.

(** The route from the check on [body.messages] on. *)
Definition chatCompletions (world : nat -> Attempt)
    (body : ChatCompletionRequest) (st : State) : Response * LoopState :=
  let idle := mkLoop st 0 [] [] in
  match req_messages body with
  | [] => (PlainError "no messages supplied" 400, idle)
  | _ :: _ =>
      match findModel (req_model body) (AVAILABLE_MODELS st) with
      | None =>
          (PlainError ("model '" +:+ req_model body +:+ "' not found") 404,
           idle)
      | Some _ =>
          match retryLoop world body (length (RETOOL_ACCOUNTS st)) 0 idle with
          | (Some resp, ls) => (resp, ls)
          | (None, ls) =>
              (if req_stream body
               then ErrorStream "all retool attempts failed" 503
               else ErrorJson
                      (createErrorResponse (attemptCount ls)
                         (collectedErrors ls)) 503,
               ls)
          end
      end
  end.

(** The account at position [i] of [accs] has been marked invalid. *)
Definition invalidIn (i : nat) (accs : list RetoolAccount) : Prop :=
  exists a, accs !! i = Some a /\ is_valid a = false.

(** ** The life of the process *)

(** What can touch the account registry once the process runs: the
    start-up discovery, a chat-completion request, and a bare call of the
    selector. *)
Inductive Operation : Type :=
| OpDiscover (answers : list (Fetched (list Agent) * string))
| OpChat (world : nat -> Attempt) (body : ChatCompletionRequest)
| OpSelect (now : Z) (modelId : string).

Definition runOperation (st : State) (o : Operation) : State :=
  match o with
  | OpDiscover answers => initializeRetoolEnvironment answers st
  | OpChat world body => loop_state (snd (chatCompletions world body st))
  | OpSelect now modelId => snd (getBestRetoolAccount now modelId st)
  end.

Definition runOperations (st : State) (ops : list Operation) : State :=
  fold_left runOperation ops st.

(** The account at position [i] has been marked invalid. *)
Definition invalidAt (i : nat) (st : State) : Prop :=
  invalidIn i (RETOOL_ACCOUNTS st).

(** The agents of the family [series] among [ags], in order. *)
Definition familyOf (series : string) (ags : list Agent) : list Agent :=
  filter (fun ag => seriesOf (fullNameOf ag) = series) ags.

(** The record a family gets from its agents in order of encounter. *)
Definition familyRecord (series : string) (ags : list Agent)
    : option ModelRecord :=
  match familyOf series ags with
  | [] => None
  | first :: rest =>
      Some (mkModel series (agent_name first) (fullNameOf first)
              (ownerOf (fullNameOf first)) (map agent_id (first :: rest)))
  end.

(** Two agents on versions of one upstream model. *)
Definition opusV2 : Agent :=
  mkAgent "agent-1" "Opus two" (Some "anthropic-claude-3-opus-v2").

Definition opusV3 : Agent :=
  mkAgent "agent-2" "Opus three" (Some "anthropic-claude-3-opus-v3").

(** ** A small deployment *)

(** Two configured accounts as [parseRetoolAccounts] creates them; the
    first owns one agent, the second none. *)
Definition agentA : Agent :=
  mkAgent "a1" "Sonnet" (Some "claude-sonnet-4-20250514").

Definition accountA : RetoolAccount :=
  mkAccount "a.retool.com" "xsrf-a" "token-a" true 0 0 [] None.

Definition accountB : RetoolAccount :=
  mkAccount "b.retool.com" "xsrf-b" "token-b" true 0 0 [] None.

(** The state after start-up, both agent queries answered with 200. *)
Definition stateAB : State :=
  initializeRetoolEnvironment
    [(Answer 200 [agentA], "t0"); (Answer 200 [], "t0")]
    (mkState [accountA; accountB] []).

Definition requestHi : ChatCompletionRequest :=
  mkRequest "claude-sonnet-4" [mkMessage "user" "Hi"] false.

(** An upstream that answers every thread creation with [status], one
    millisecond after the other, starting at time [start]. *)
Definition failingWorld (start status : Z) (n : nat) : Attempt :=
  mkAttempt (start + Z.of_nat n)
    (ThrownApi
       (createRetoolError thread_create "a.retool.com" "Create thread failed"
          (Some status) "t1"))
    "t1".

(** The catalog entry that discovery builds for [agentA]. *)
Definition modelSonnet : ModelRecord :=
  mkModel "claude-sonnet-4" "Sonnet" "claude-sonnet-4-20250514" "anthropic"
    ["a1"].

(** An account with three errors, last selected at time 50000. *)
Definition accountQ : RetoolAccount :=
  mkAccount "a.retool.com" "xsrf-a" "token-a" true 50000 3 [agentA] None.

Definition stateQ : State := mkState [accountQ] [modelSonnet].

(** The state after a request during which the upstream answered 401. *)
Definition state401 : State :=
  runOperation stateAB (OpChat (failingWorld 1000 401) requestHi).

(** The error record of a thread creation answered with 500. *)
Definition error500 : RetoolError :=
  createRetoolError thread_create "a.retool.com" "Create thread failed"
    (Some 500) "t1".


(** ** A deployment with two accounts serving one model *)

Definition agentB : Agent :=
  mkAgent "b1" "Sonnet B" (Some "claude-sonnet-4-20250514").

Definition stateTwo : State :=
  initializeRetoolEnvironment
    [(Answer 200 [agentA], "t0"); (Answer 200 [agentB], "t0")]
    (mkState [accountA; accountB] []).

(** The registry after the selector has run once, at time 1000. *)
Definition stateTwoSelected : State :=
  snd (getBestRetoolAccount 1000 "claude-sonnet-4" stateTwo).

(** The second account in that registry: the filter has written its
    scratch field, the selector has not chosen it. *)
Definition accountBSeen : RetoolAccount :=
  set_selected_agent_id "b1" (set_agents [agentB] accountB).

(** ** Deployments in which the selector has to choose *)

Definition agentC : Agent :=
  mkAgent "c1" "Sonnet C" (Some "claude-sonnet-4-20250514").

(** Three accounts that all serve the model: the first was last used at
    time 500, the other two at time 100; the second has two errors, the
    third has one. *)
Definition stateLru : State :=
  mkState
    [mkAccount "a.retool.com" "xsrf-a" "token-a" true 500 0 [agentA] None;
     mkAccount "b.retool.com" "xsrf-b" "token-b" true 100 2 [agentB] None;
     mkAccount "c.retool.com" "xsrf-c" "token-c" true 100 1 [agentC] None]
    [mkModel "claude-sonnet-4" "Sonnet" "claude-sonnet-4-20250514" "anthropic"
       ["a1"; "b1"; "c1"]].

(** One account whose first agent is on another model than its second. *)
Definition agentG : Agent := mkAgent "g1" "Mini" (Some "gpt-4o-mini").

Definition stateMixed : State :=
  initializeRetoolEnvironment [(Answer 200 [agentG; agentA], "t0")]
    (mkState [accountA] []).


(** An upstream that answers the first attempt with 500 and every later
    one with the text "Hello". *)
Definition secondTryWorld (n : nat) : Attempt :=
  match n with
  | O => failingWorld 1000 500 0
  | S _ => mkAttempt (1000 + Z.of_nat n) (Returned "Hello") "t1"
  end.

(** ** How accounts change over time *)

(** [a'] is a later state of the account object [a]: the same domain and
    credentials, and an error count that has not gone down. *)
Definition evolves (a a' : RetoolAccount) : Prop :=
  domain_name a' = domain_name a /\
  x_xsrf_token a' = x_xsrf_token a /\
  accessToken a' = accessToken a /\
  error_count a <= error_count a'.

(** A later state with the same agents. *)
Definition steady (a a' : RetoolAccount) : Prop :=
  evolves a a' /\ agents a' = agents a.

(** An operation that serves traffic, as opposed to start-up discovery. *)
Definition isRequest (o : Operation) : bool :=
  match o with
  | OpDiscover _ => false
  | OpChat _ _ | OpSelect _ _ => true
  end.

(** How often position [i] occurs in a list of positions. *)
Definition occurrences (i : nat) (l : list nat) : Z :=
  Z.of_nat (length (filter (fun j => j = i) l)).

Definition isCompletion (r : Response) : bool :=
  match r with
  | ChatCompletion _ _ | ChatCompletionStream _ _ => true
  | _ => false
  end.

(** The attempts of a request that failed: all of them, except the last
    one when the request was answered with a completion. *)
Definition failedTried (r : Response) (ls : LoopState) : list nat :=
  if isCompletion r then removelast (tried ls) else tried ls.

(** The error record of a thread creation answered with 401. *)
Definition error401 : RetoolError :=
  createRetoolError thread_create "a.retool.com" "Create thread failed"
    (Some 401) "t1".

(** Start-up answers in which the first account's agent query is answered
    with 500 and the second one's with its agent. *)
Definition answersFirstFails : list (Fetched (list Agent) * string) :=
  [(Answer 500 [agentA], "t0"); (Answer 200 [agentB], "t0")].

Definition trafficAfterStart : list Operation :=
  [OpChat (failingWorld 1000 500) requestHi;
   OpSelect 400000 "claude-sonnet-4"].

(** ** retool.ts: a request among other requests *)

(** While the [try] block of a request awaits its three upstream calls,
    other requests run.  What they do to the account objects is to call
    the selector and to run their own [catch] block on an account. *)
Inductive Interference : Type :=
| OtherSelect (now : Z) (modelId : string)
| OtherCatch (i : nat) (e : RetoolError).

Definition interfere (st : State) (x : Interference) : State :=
  match x with
  | OtherSelect now modelId => snd (getBestRetoolAccount now modelId st)
  | OtherCatch i e =>
      mkState
        (recordFailure i e (isAuthStatus (statusCode e)) (RETOOL_ACCOUNTS st))
        (AVAILABLE_MODELS st)
  end.

Definition interfereAll (st : State) (l : list Interference) : State :=
  fold_left interfere l st.

(** How many of the [catch] blocks of [l] ran on the account at
    position [i]. *)
Fixpoint catchesOn (i : nat) (l : list Interference) : Z :=
  match l with
  | [] => 0
  | OtherSelect _ _ :: l' => catchesOn i l'
  | OtherCatch j _ :: l' => (if decide (j = i) then 1 else 0) + catchesOn i l'
  end.

(** The retry loop of [retryLoop] when the request does not run alone:
    [others attempt] is what the other requests do while the [try] block
    of iteration [attempt] waits.  Nothing is awaited between the selector
    call and the [try] block, nor between the [catch] block and the next
    selector call. *)
Fixpoint retryLoopAmid (others : nat -> list Interference)
    (world : nat -> Attempt) (body : ChatCompletionRequest)
    (remaining attempt : nat) (ls : LoopState) : option Response * LoopState :=
  match remaining with
  | O => (None, ls)
  | S remaining' =>
      let w := world attempt in
      match getBestRetoolAccount (attempt_now w) (req_model body)
              (loop_state ls) with
      | (None, st1) =>
          (None, mkLoop st1 (attemptCount ls) (collectedErrors ls) (tried ls))
      | (Some i, st1) =>
          let count := attemptCount ls + 1 in
          let seen := (tried ls ++ [i])%list in
          let st2 := interfereAll st1 (others attempt) in
          match attempt_outcome w with
          | Returned responseTxt =>
              (Some (if req_stream body
                     then ChatCompletionStream (req_model body) responseTxt
                     else ChatCompletion (req_model body) responseTxt),
               mkLoop st2 count (collectedErrors ls) seen)
          | ThrownApi e =>
              let accs :=
                recordFailure i e (isAuthStatus (statusCode e))
                  (RETOOL_ACCOUNTS st2) in
              retryLoopAmid others world body remaining' (S attempt)
                (mkLoop (mkState accs (AVAILABLE_MODELS st2)) count
                   (collectedErrors ls ++ [e])%list seen)
          | ThrownOther msg =>
              let dom :=
                default "" (domain_name <$> RETOOL_ACCOUNTS st2 !! i) in
              let e :=
                createRetoolError message_send dom msg None (attempt_stamp w) in
              let accs := recordFailure i e false (RETOOL_ACCOUNTS st2) in
              retryLoopAmid others world body remaining' (S attempt)
                (mkLoop (mkState accs (AVAILABLE_MODELS st2)) count
                   (collectedErrors ls ++ [e])%list seen)
          end
      end
  end.

(** The route of [chatCompletions] with that loop. *)
Definition chatCompletionsAmid (others : nat -> list Interference)
    (world : nat -> Attempt) (body : ChatCompletionRequest) (st : State)
    : Response * LoopState :=
  let idle := mkLoop st 0 [] [] in
  match req_messages body with
  | [] => (PlainError "no messages supplied" 400, idle)
  | _ :: _ =>
      match findModel (req_model body) (AVAILABLE_MODELS st) with
      | None =>
          (PlainError ("model '" +:+ req_model body +:+ "' not found") 404,
           idle)
      | Some _ =>
          match retryLoopAmid others world body (length (RETOOL_ACCOUNTS st))
                  0 idle with
          | (Some resp, ls) => (resp, ls)
          | (None, ls) =>
              (if req_stream body
               then ErrorStream "all retool attempts failed" 503
               else ErrorJson
                      (createErrorResponse (attemptCount ls)
                         (collectedErrors ls)) 503,
               ls)
          end
      end
  end.

(** Two other requests at work during the first attempt: one fails on the
    first account, one calls the selector. *)
Definition busyOthers (attempt : nat) : list Interference :=
  match attempt with
  | O => [OtherCatch 0 error500; OtherSelect 1500 "claude-sonnet-4"]
  | S _ => []
  end.

(** ** retool.ts: the session of one attempt *)

(** What the upstream does during the [try] block of one attempt: its
    answers to the thread creation and to the message, and the rounds of
    the polling loop, which starts at time [poll_start]. *)
Record Session : Type := mkSession {
  thread_answer : Fetched string;
  thread_stamp : string;
  send_answer : Fetched string;
  send_stamp : string;
  poll_start : Z;
  poll_script : list PollTick
}.

(** The three calls of the [try] block, in order; the polling uses the
    default time-out. *)
Definition runSession (acc : RetoolAccount) (s : Session)
    : option (Result string) :=
  match retoolGetThreadId acc (thread_answer s) (thread_stamp s) with
  | Returned threadId =>
      match retoolSendMessage acc (send_answer s) (send_stamp s) with
      | Returned runId =>
          retoolGetMessage acc (poll_start s) defaultTimeoutMs (poll_script s)
      | ThrownApi e => Some (ThrownApi e)
      | ThrownOther msg => Some (ThrownOther msg)
      end
  | ThrownApi e => Some (ThrownApi e)
  | ThrownOther msg => Some (ThrownOther msg)
  end.

(** A run that is still going after one second, then found past a
    deadline of one second. *)
Definition pendingLog : RunLog := mkRunLog "RUNNING" [].

Definition twoRounds : list PollTick :=
  [mkTick 5000 (Answer 200 pendingLog) "t1";
   mkTick 6000 (Answer 200 pendingLog) "t2"].

(** A session whose message is refused with 403 after the thread was
    created. *)
Definition sessionRefused : Session :=
  mkSession (Answer 200 "thread-1") "t1" (Answer 403 "") "t2" 5000 twoRounds.

(** ** config.ts: [parseClientApiKeys] *)

(** The characters that [trim] removes, among those a [string] can hold:
    tab, line feed, vertical tab, form feed, carriage return, space and
    no-break space. *)
Definition isWhiteSpace (c : ascii) : bool :=
  let n := nat_of_ascii c in
  ((9 <=? n) && (n <=? 13) || (n =? 32) || (n =? 160))%nat.

Fixpoint trimStart (s : string) : string :=
  match s with
  | EmptyString => EmptyString
  | String c s' => if isWhiteSpace c then trimStart s' else s
  end.

Fixpoint trimEnd (s : string) : string :=
  match s with
  | EmptyString => EmptyString
  | String c s' =>
      match trimEnd s' with
      | EmptyString => if isWhiteSpace c then EmptyString else String c EmptyString
      | r => String c r
      end
  end.

(** [s.trim()]. *)
Definition trim (s : string) : string := trimEnd (trimStart s).

(** [s.split(sep)] for a separator of one character. *)
Fixpoint splitChar (sep : ascii) (s : string) : list string :=
  match s with
  | EmptyString => [EmptyString]
  | String c s' =>
      if Ascii.eqb c sep then EmptyString :: splitChar sep s'
      else match splitChar sep s' with
           | [] => [String c EmptyString]
           | h :: t => String c h :: t
           end
  end.

(** [s.includes(c)] for one character. *)
Fixpoint hasChar (c : ascii) (s : string) : bool :=
  match s with
  | EmptyString => false
  | String d s' => Ascii.eqb d c || hasChar c s'
  end.

(** [key.length > 0]. *)
Definition nonEmpty (s : string) : bool :=
  negb (String.eqb s "").

(** [parseClientApiKeys(input)]; the [Set] it returns is a finite set
    of strings. *)
Definition parseClientApiKeys (input : string) : gset string :=
  if String.eqb input "" || String.eqb (trim input) "" then ∅
  else list_to_set
         (List.filter nonEmpty (map trim (splitChar ","%char input))).

(** A [CLIENT_API_KEYS] value with white space around its three keys. *)
Definition keysInput : string := "  key1 , key2  ,  key3  ".

(** ** retool.ts: [requireAuth] and the routes of [handleRequest] *)

(** What [requireAuth] ends in: the token, or [new Error("401")] or
    [new Error("403")], given by its message. *)
Inductive AuthResult : Type :=
| Authorized (token : string)
| AuthError (code : string).

(** One entry of the model listing. *)
Record ModelEntry : Type := mkEntry {
  entry_id : string;
  entry_created : Z;
  entry_owned_by : string;
  entry_name : string
}.

(** The process-wide variables of [retool.ts]. *)
Record ServerState : Type := mkServer {
  server_state : State;
  VALID_CLIENT_KEYS : gset string;
  DEBUG_MODE : bool
}.

(** What [handleRequest] reads of a request: path, method, the [enable]
    query parameter, the [Authorization] header, and what [req.json()]
    gives ([None] when it throws). The body is taken at its declared type
    [ChatCompletionRequest]: a body that parses to something else ([null],
    or [messages] that is no array) makes the handler throw outside its
    [try] blocks and is not a request of the model. *)
Record Request : Type := mkHttpRequest {
  pathname : string;
  method : string;
  enable : option string;
  authorization : option string;
  json : option ChatCompletionRequest
}.

(** The responses of the server: the debug flag, a model listing, or one of
    the responses of the chat route, which include the plain
    [{error: ...}] bodies. *)
Inductive HttpResponse : Type :=
| DebugInfo (debug_mode : bool)
| ModelList (data : list ModelEntry)
| Reply (r : Response).

(** The HTTP status of a response: the one passed to [jsonResponse], and
    200, the default of [jsonResponse] and of [sseStream], where none is
    passed. *)
Definition httpStatus (r : HttpResponse) : Z :=
  match r with
  | DebugInfo _ | ModelList _ => 200
  | Reply (PlainError _ status) => status
  | Reply (ChatCompletion _ _) => 200
  | Reply (ChatCompletionStream _ _) => 200
  | Reply (ErrorStream _ _) => 200
  | Reply (ErrorJson _ status) => status
  end.

(** [AVAILABLE_MODELS.map(...)] of the two listing routes; [clock k] is
    what [Date.now()] gives in the callback for the entry at position
    [k]. *)
Definition listModels (clock : nat -> Z) (models : list ModelRecord)
    : list ModelEntry :=
  imap (fun k m =>
          mkEntry (model_id m) (clock k / 1000) (owned_by m)
            (model_display m +:+ " (" +:+ model_name m +:+ ")"))
       models.

Section Routes.
(** [header.match(/^Bearer\s+(.+)$/i)]: the text of the capture group when
    the header matches. *)
Variable matchBearer : string -> option string.

Definition requireAuth (header : option string) (keys : gset string)
    : AuthResult :=
  match matchBearer (default "" header) with
  | None => AuthError "401"
  | Some captured =>
      let token := trim captured in
      if decide (token ∈ keys) then Authorized token else AuthError "403"
  end.

(** [jsonResponse({ error: "unauthorized" }, errMsg === "403" ? 403 : 401)]. *)
Definition unauthorized (code : string) : HttpResponse :=
  Reply (PlainError "unauthorized" (if String.eqb code "403" then 403 else 401)).

Definition handleRequest (clock : nat -> Z) (world : nat -> Attempt)
    (req : Request) (srv : ServerState) : HttpResponse * ServerState :=
  if String.eqb (pathname req) "/debug" && String.eqb (method req) "GET" then
    let flag :=
      match enable req with
      | Some v => String.eqb v "true"
      | None => DEBUG_MODE srv
      end in
    (DebugInfo flag, mkServer (server_state srv) (VALID_CLIENT_KEYS srv) flag)
  else if String.eqb (pathname req) "/v1/models"
          && String.eqb (method req) "GET" then
    match requireAuth (authorization req) (VALID_CLIENT_KEYS srv) with
    | AuthError code => (unauthorized code, srv)
    | Authorized _ =>
        (ModelList (listModels clock (AVAILABLE_MODELS (server_state srv))),
         srv)
    end
  else if String.eqb (pathname req) "/models"
          && String.eqb (method req) "GET" then
    (ModelList (listModels clock (AVAILABLE_MODELS (server_state srv))), srv)
  else if String.eqb (pathname req) "/v1/chat/completions"
          && String.eqb (method req) "POST" then
    match requireAuth (authorization req) (VALID_CLIENT_KEYS srv) with
    | AuthError code => (unauthorized code, srv)
    | Authorized _ =>
        match json req with
        | None => (Reply (PlainError "invalid json" 400), srv)
        | Some body =>
            let '(r, ls) := chatCompletions world body (server_state srv) in
            (Reply r,
             mkServer (loop_state ls) (VALID_CLIENT_KEYS srv) (DEBUG_MODE srv))
        end
    end
  else (Reply (PlainError "not found" 404), srv).
End Routes.

(** A matcher for the plainest headers: the word "Bearer", one space, and
    the rest, which it captures. *)
Definition plainBearer (header : string) : option string :=
  if String.prefix "Bearer " header
  then Some (String.substring 7 (String.length header - 7) header)
  else None.

(** A server with one client key, just started on [stateAB]. *)
Definition serverAB : ServerState :=
  mkServer stateAB (parseClientApiKeys "sk-one") false.

Definition chatHi : Request :=
  mkHttpRequest "/v1/chat/completions" "POST" None (Some "Bearer sk-one")
    (Some requestHi).

(** A clock that stands still. *)
Definition stillClock (k : nat) : Z := 1700000000000.

(** ** config.ts: [parseRetoolAccounts] and [loadConfig] *)

Record RetoolAccountConfig : Type := mkAccountConfig {
  config_domain_name : string;
  config_x_xsrf_token : string;
  config_accessToken : string
}.

(** What [parseRetoolAccounts] sees of [JSON.parse(input)]: a
    [SyntaxError], a value that is no array, or an array of account
    configurations. *)
Inductive ParsedJson : Type :=
| JsonSyntaxError (msg : string)
| JsonNotArray
| JsonArray (configs : list RetoolAccountConfig).

Record Config : Type := mkConfig {
  clientApiKeys : gset string;
  retoolAccounts : list RetoolAccount;
  debugMode : bool
}.

(** The account object that [parseRetoolAccounts] makes of one
    configuration. *)
Definition freshAccount (c : RetoolAccountConfig) : RetoolAccount :=
  mkAccount (config_domain_name c) (config_x_xsrf_token c)
    (config_accessToken c) true 0 0 [] None.

(** [!value] for the value of an environment variable. *)
Definition unset (value : option string) : bool :=
  match value with
  | None => true
  | Some v => String.eqb v ""
  end.

Section LoadConfig.
Variable JSON_parse : string -> ParsedJson.

Definition parseRetoolAccounts (input : string) : Result (list RetoolAccount) :=
  if String.eqb input "" || String.eqb (trim input) "" then Returned []
  else match JSON_parse input with
       | JsonSyntaxError msg => ThrownOther msg
       | JsonNotArray => ThrownOther "RETOOL_ACCOUNTS must be a JSON array"
       | JsonArray configs => Returned (map freshAccount configs)
       end.

(** [loadConfig()], [env] being [Deno.env.get]. *)
Definition loadConfig (env : string -> option string) : Result Config :=
  let missingVars :=
    (if unset (env "CLIENT_API_KEYS") then ["CLIENT_API_KEYS"] else [])
    ++ (if unset (env "RETOOL_ACCOUNTS") then ["RETOOL_ACCOUNTS"] else []) in
  match missingVars with
  | _ :: _ =>
      ThrownOther ("Missing required environment variables: "
                   +:+ String.concat ", " missingVars)
  | [] =>
      let keys := parseClientApiKeys (default "" (env "CLIENT_API_KEYS")) in
      let keyErrors :=
        if decide (size keys = 0%nat)
        then ["CLIENT_API_KEYS is empty or contains only whitespace"]
        else [] in
      let '(accounts, accountErrors) :=
        match parseRetoolAccounts (default "" (env "RETOOL_ACCOUNTS")) with
        | Returned accounts =>
            (accounts,
             match accounts with
             | [] => ["RETOOL_ACCOUNTS is empty or contains no valid accounts"]
             | _ :: _ => []
             end)
        | ThrownApi e =>
            ([], ["Failed to parse RETOOL_ACCOUNTS: " +:+ message e])
        | ThrownOther msg =>
            ([], ["Failed to parse RETOOL_ACCOUNTS: " +:+ msg])
        end in
      match keyErrors ++ accountErrors with
      | _ :: _ => ThrownOther (String.concat "; " (keyErrors ++ accountErrors))
      | [] =>
          Returned
            (mkConfig keys accounts
               (match env "DEBUG_MODE" with
                | Some v => String.eqb (toLowerCase v) "true"
                | None => false
                end))
      end
  end.
End LoadConfig.

(** An environment with one key and one account, and a parser that reads
    the account out of it. *)
Definition envOne (name : string) : option string :=
  if String.eqb name "CLIENT_API_KEYS" then Some "sk-one"
  else if String.eqb name "RETOOL_ACCOUNTS" then Some "[{}]"
  else None.

Definition parseOne (input : string) : ParsedJson :=
  JsonArray [mkAccountConfig "a.retool.com" "xsrf-a" "token-a"].

(** ** jetbrains.ts: [nextJwt] *)

(** [nextJwt()] when the counter [jwtIndex] is [index]: [None] for the
    thrown error on an empty list; otherwise the token read (nothing when
    the index is out of range) and the new counter. *)
Definition nextJwt (JETBRAINS_JWTS : list string) (index : nat)
    : option (option string * nat) :=
  match JETBRAINS_JWTS with
  | [] => None
  | _ :: _ =>
      Some (JETBRAINS_JWTS !! index,
            ((index + 1) mod length JETBRAINS_JWTS)%nat)
  end.

(** [n] calls of [nextJwt] in a row on a list that is not empty: the tokens
    read, and the counter at the end. *)
Fixpoint nextJwts (JETBRAINS_JWTS : list string) (n index : nat)
    : list (option string) * nat :=
  match n with
  | O => ([], index)
  | S n' =>
      match nextJwt JETBRAINS_JWTS index with
      | None => ([], index)
      | Some (tok, index') =>
          let '(toks, final) := nextJwts JETBRAINS_JWTS n' index' in
          (tok :: toks, final)
      end
  end.

(** The two tokens that [jetbrains.ts] ships with. *)
Definition shippedJwts : list string := ["your-jwt-here-1"; "your-jwt-here-2"].

(** * Properties *)

(** ** Strings *)

Lemma append_cons (c : ascii) (s t : string) :
  String c s +:+ t = String c (s +:+ t).
Proof. reflexivity. Qed.

Lemma append_empty_r (s : string) : s +:+ "" = s.
Proof.
  induction s as [|c s IH]; [reflexivity|].
  rewrite append_cons, IH. reflexivity.
Qed.

Lemma append_assoc (s t u : string) : (s +:+ t) +:+ u = s +:+ (t +:+ u).
Proof.
  induction s as [|c s IH]; [reflexivity|].
  rewrite !append_cons, IH. reflexivity.
Qed.

Lemma prefix_iff (needle hay : string) :
  String.prefix needle hay = true <-> exists rest, hay = needle +:+ rest.
Proof.
  revert hay. induction needle as [|c needle IH]; intros hay.
  - split; [intros _; exists hay; reflexivity|].
    intros _. destruct hay; reflexivity.
  - destruct hay as [|d hay]; simpl.
    + split; [discriminate|]. intros [rest H]. discriminate.
    + destruct (ascii_dec c d) as [->|Hne].
      * rewrite IH. split.
        -- intros [rest ->]. exists rest. reflexivity.
        -- intros [rest H]. rewrite append_cons in H. injection H as ->.
           exists rest. reflexivity.
      * split; [discriminate|]. intros [rest H].
        rewrite append_cons in H. injection H as -> _. contradiction.
Qed.

Lemma includes_empty (needle : string) :
  includes needle "" = String.prefix needle "" || false.
Proof. reflexivity. Qed.

Lemma includes_cons (needle : string) (c : ascii) (hay : string) :
  includes needle (String c hay) =
  String.prefix needle (String c hay) || includes needle hay.
Proof. reflexivity. Qed.

(** [includes] is containment as a substring. *)
Lemma includes_iff (needle hay : string) :
  includes needle hay = true <->
  exists before rest, hay = before +:+ needle +:+ rest.
Proof.
  split.
  - induction hay as [|c hay IH]; intros H.
    + rewrite includes_empty, orb_false_r in H.
      apply prefix_iff in H as [rest H]. exists "", rest. exact H.
    + rewrite includes_cons in H. apply orb_true_iff in H as [H|H].
      * apply prefix_iff in H as [rest H]. exists "", rest. exact H.
      * destruct (IH H) as (before & rest & ->).
        exists (String c before), rest. reflexivity.
  - intros (before & rest & ->).
    induction before as [|c before IH].
    + assert (Hp : String.prefix needle (needle +:+ rest) = true)
        by (apply prefix_iff; eauto).
      change ("" +:+ needle +:+ rest) with (needle +:+ rest).
      destruct (needle +:+ rest).
      * rewrite includes_empty, Hp. reflexivity.
      * rewrite includes_cons, Hp. reflexivity.
    + rewrite append_cons, includes_cons, IH. apply orb_true_r.
Qed.

Lemma splitHyphen_nonempty (s : string) : splitHyphen s <> [].
Proof.
  induction s as [|c s IH]; simpl; [discriminate|].
  destruct (isHyphen c); [discriminate|].
  destruct (splitHyphen s); discriminate.
Qed.

(** [split] undone by [join], and no part holds a hyphen: the two facts
    that determine [s.split("-")]. *)
Lemma splitHyphen_join (s : string) :
  joinHyphen (splitHyphen s) = s /\
  Forall (fun part => includes "-" part = false) (splitHyphen s).
Proof.
  unfold joinHyphen. induction s as [|c s [IHj IHf]]; simpl.
  - split; [reflexivity|]. repeat constructor.
  - pose proof (splitHyphen_nonempty s) as Hne.
    unfold isHyphen. destruct (Ascii.eqb_spec c "-"%char) as [->|Hc].
    + split; [|constructor; [reflexivity|exact IHf]].
      destruct (splitHyphen s) as [|h t]; [contradiction|].
      simpl in *. rewrite IHj. reflexivity.
    + destruct (splitHyphen s) as [|h t]; [contradiction|].
      apply Forall_cons in IHf as [Hh Ht]. split.
      * destruct t as [|h' t]; simpl in *; rewrite <- IHj; reflexivity.
      * constructor; [|exact Ht].
        rewrite includes_cons, Hh, orb_false_r.
        destruct (String.prefix "-" (String c h)) eqn:E; [|reflexivity].
        apply prefix_iff in E as [rest E]. rewrite append_cons in E.
        injection E as E _. congruence.
Qed.

(** ** The prompt formatter *)

Lemma formatLoop_conversation (out : string) (messages : list ChatMessage) :
  formatLoop out messages = out +:+ conversation messages.
Proof.
  revert out. induction messages as [|m rest IH]; intros out.
  - simpl. symmetry. apply append_empty_r.
  - unfold formatLoop in *. simpl. rewrite IH. apply append_assoc.
Qed.

Lemma conversation_app (l1 l2 : list ChatMessage) :
  conversation (l1 ++ l2) = conversation l1 +:+ conversation l2.
Proof.
  induction l1 as [|m l1 IH]; [reflexivity|].
  simpl. rewrite IH. symmetry. apply append_assoc.
Qed.

Lemma endsWithAssistant_iff (messages : list ChatMessage) :
  endsWithAssistant messages = true <->
  exists init m, messages = init ++ [m] /\ role m = "assistant".
Proof.
  unfold endsWithAssistant. split.
  - destruct (last messages) as [m|] eqn:Hl; [|discriminate].
    intros H. apply String.eqb_eq in H.
    apply last_Some in Hl as [init ->]. eauto.
  - intros (init & m & -> & Hr). rewrite last_snoc.
    apply String.eqb_eq. exact Hr.
Qed.

Lemma formatMessagesForRetool_unfold (messages : list ChatMessage) :
  formatMessagesForRetool messages =
  conversation messages +:+
    (if endsWithAssistant messages then humanMarker else "").
Proof.
  unfold formatMessagesForRetool. rewrite formatLoop_conversation.
  change ("" +:+ conversation messages) with (conversation messages).
  destruct (endsWithAssistant messages); [reflexivity|].
  symmetry. apply append_empty_r.
Qed.


Lemma roleLabel_iff (m : ChatMessage) :
  (roleLabel m = "Human" <-> role m = "user") /\
  (roleLabel m = "Assistant" <-> role m <> "user").
Proof.
  unfold roleLabel.
  destruct (String.eqb_spec (role m) "user") as [He|Hne]; split; split;
    try discriminate; try tauto.
Qed.

Lemma concat_empty_cons (x : string) (l : list string) :
  String.concat "" (x :: l) = x +:+ String.concat "" l.
Proof.
  destruct l as [|y l]; [|reflexivity].
  simpl. symmetry. apply append_empty_r.
Qed.

Lemma conversation_labels (messages : list ChatMessage) :
  conversation messages =
  String.concat ""
    (zip_with (fun m label => LFLF +:+ label +:+ ": " +:+ content m)
       messages (map roleLabel messages)).
Proof.
  induction messages as [|m rest IH]; [reflexivity|].
  cbn [conversation map zip_with]. rewrite concat_empty_cons, IH.
  reflexivity.
Qed.

(** C10. In the formatted prompt every message, whatever its position, is
    a turn labelled "Human" if and only if its role is exactly "user", and
    labelled "Assistant" for every other role, "system" included. The
    trailing marker "\n\nHuman: " is appended if and only if the last
    message has the role "assistant": after a last message with the role
    "system" the text ends with that message's "Assistant" turn. *)
Theorem formatMessagesForRetool_labels :
  forall messages : list ChatMessage,
    exists (labels : list string) (trailer : string),
      Forall2 (fun m label =>
                 (label = "Human" <-> role m = "user") /\
                 (label = "Assistant" <-> role m <> "user"))
        messages labels /\
      formatMessagesForRetool messages =
        String.concat ""
          (zip_with (fun m label => LFLF +:+ label +:+ ": " +:+ content m)
             messages labels) +:+ trailer /\
      (trailer = LFLF +:+ "Human: " \/ trailer = "") /\
      (trailer = LFLF +:+ "Human: " <->
       exists init m, messages = init ++ [m] /\ role m = "assistant") /\
      (forall init m,
         messages = init ++ [m] -> role m = "system" ->
         trailer = "" /\
         exists before,
           formatMessagesForRetool messages =
             before +:+ LFLF +:+ "Assistant: " +:+ content m).
Proof.
  intros messages.
  exists (map roleLabel messages),
         (if endsWithAssistant messages then humanMarker else "").
  split.
  { induction messages as [|m rest IH]; constructor;
      [apply roleLabel_iff|exact IH]. }
  split.
  { rewrite formatMessagesForRetool_unfold, conversation_labels.
    reflexivity. }
  split.
  { destruct (endsWithAssistant messages); [left|right]; reflexivity. }
  split.
  { rewrite <- endsWithAssistant_iff.
    destruct (endsWithAssistant messages).
    - split; reflexivity.
    - split; intros H; vm_compute in H; discriminate. }
  intros init m -> Hrole.
  assert (Hend : endsWithAssistant (init ++ [m]) = false).
  { unfold endsWithAssistant. rewrite last_snoc, Hrole. reflexivity. }
  rewrite formatMessagesForRetool_unfold, Hend. split; [reflexivity|].
  exists (conversation init).
  rewrite append_empty_r, conversation_app. cbn [conversation].
  rewrite append_empty_r. unfold turn, roleLabel. rewrite Hrole.
  reflexivity.
Qed.

(** C2, as the spec states it, fails: for the conversation user "Hi",
    assistant "Hello" the formatted text does not end with the assistant
    turn and is not the bare conversation. *)
Lemma format_user_assistant_counterexample :
  ~ (endsWith
       (formatMessagesForRetool
          [mkMessage "user" "Hi"; mkMessage "assistant" "Hello"])
       (LFLF +:+ "Assistant: Hello") = true /\
     formatMessagesForRetool
       [mkMessage "user" "Hi"; mkMessage "assistant" "Hello"] =
     conversation [mkMessage "user" "Hi"; mkMessage "assistant" "Hello"]).
Proof. intros [H _]. vm_compute in H. discriminate. Qed.

(** C2, amended. For user "Hi", assistant "Hello" the formatted text is the
    two turns followed by the trailing marker "\n\nHuman: "; for the single
    message user "Hi" it is the one turn and no marker. *)
Theorem format_user_assistant_examples :
  formatMessagesForRetool
    [mkMessage "user" "Hi"; mkMessage "assistant" "Hello"] =
  LFLF +:+ "Human: Hi" +:+ LFLF +:+ "Assistant: Hello" +:+ LFLF +:+ "Human: " /\
  formatMessagesForRetool [mkMessage "user" "Hi"] = LFLF +:+ "Human: Hi" /\
  endsWith (formatMessagesForRetool [mkMessage "user" "Hi"]) (LFLF +:+ "Human: ")
    = false.
Proof. repeat split; vm_compute; reflexivity. Qed.

(** ** The selector *)

Lemma includesId_iff (allowed : list string) (x : string) :
  includesId allowed x = true <-> x ∈ allowed.
Proof.
  unfold includesId. rewrite existsb_exists, list_elem_of_In. split.
  - intros (y & Hy & He). apply String.eqb_eq in He. subst. exact Hy.
  - intros H. exists x. split; [exact H|apply String.eqb_refl].
Qed.

Lemma candidateAgent_is_Some (now : Z) (allowed : list string)
    (acc : RetoolAccount) :
  is_Some (candidateAgent now allowed acc) <->
  is_valid acc = true /\
  ~ (3 <= error_count acc /\ now - last_used acc < 300000) /\
  exists ag, ag ∈ agents acc /\ agent_id ag ∈ allowed.
Proof.
  unfold candidateAgent.
  destruct (is_valid acc); simpl.
  2: { split; [intros [? ?]; discriminate|intros [? _]; discriminate]. }
  destruct (Z.leb_spec 3 (error_count acc)) as [Hc|Hc];
    destruct (Z.ltb_spec (now - last_used acc) 300000) as [Ht|Ht]; simpl.
  1: { split; [intros [? ?]; discriminate|]. intros (_ & Hn & _). tauto. }
  all: destruct (find _ (agents acc)) as [ag|] eqn:Hf.
  all: try (split; [intros _|eauto];
            apply find_some in Hf as [Hin Hid];
            apply list_elem_of_In in Hin; apply includesId_iff in Hid;
            split; [reflexivity|split; [lia|eauto]]).
  all: split; [intros [? ?]; discriminate|];
       intros (_ & _ & ag & Hin & Hid);
       apply list_elem_of_In in Hin; apply includesId_iff in Hid;
       pose proof (find_none _ _ Hf _ Hin) as Hno; simpl in Hno; congruence.
Qed.

Lemma filterCandidates_snd (now : Z) (allowed : list string) (i : nat)
    (accs : list RetoolAccount) :
  snd (filterCandidates now allowed i accs) = map (afterFilter now allowed) accs.
Proof.
  revert i. induction accs as [|acc rest IH]; intros i; [reflexivity|].
  simpl. specialize (IH (S i)).
  destruct (filterCandidates now allowed (S i) rest) as [kept rest'].
  simpl in IH. subst rest'.
  destruct (candidateAgent now allowed acc) eqn:Hc; simpl;
    f_equal; unfold afterFilter; rewrite Hc; reflexivity.
Qed.

Lemma filterCandidates_fst (now : Z) (allowed : list string) (i : nat)
    (accs : list RetoolAccount) (j : nat) :
  j ∈ fst (filterCandidates now allowed i accs) <->
  (i <= j)%nat /\
  exists a, accs !! (j - i)%nat = Some a /\
            is_Some (candidateAgent now allowed a).
Proof.
  revert i. induction accs as [|acc rest IH]; intros i.
  - simpl. rewrite elem_of_nil. split; [tauto|].
    intros (_ & a & Ha & _). discriminate.
  - simpl. specialize (IH (S i)).
    destruct (filterCandidates now allowed (S i) rest) as [kept rest'].
    simpl in IH.
    assert (Hrest : j ∈ kept <->
      (i < j)%nat /\ exists a, (acc :: rest) !! (j - i)%nat = Some a /\
                           is_Some (candidateAgent now allowed a)).
    { rewrite IH. split.
      - intros (Hle & a & Ha & Hc). split; [lia|]. exists a. split; [|exact Hc].
        replace (j - i)%nat with (S (j - S i)) by lia. exact Ha.
      - intros (Hlt & a & Ha & Hc). split; [lia|]. exists a. split; [|exact Hc].
        replace (j - i)%nat with (S (j - S i)) in Ha by lia. exact Ha. }
    destruct (candidateAgent now allowed acc) as [aid|] eqn:Hc; simpl.
    + rewrite elem_of_cons, Hrest. split.
      * intros [->|(Hlt & a & Ha & Hs)].
        -- split; [lia|]. exists acc. rewrite Nat.sub_diag. split; [reflexivity|].
           rewrite Hc. eauto.
        -- split; [lia|]. eauto.
      * intros (Hle & a & Ha & Hs).
        destruct (decide (j = i)) as [->|Hne]; [left; reflexivity|].
        right. split; [lia|]. eauto.
    + rewrite Hrest. split.
      * intros (Hlt & a & Ha & Hs). split; [lia|]. eauto.
      * intros (Hle & a & Ha & Hs).
        destruct (decide (j = i)) as [->|Hne].
        -- rewrite Nat.sub_diag in Ha. simpl in Ha. injection Ha as <-.
           rewrite Hc in Hs. destruct Hs as [? Hs]. discriminate.
        -- split; [lia|]. eauto.
Qed.

Lemma candidates_iff (now : Z) (modelId : string) (st : State) (j : nat) :
  j ∈ candidates now modelId st <->
  exists record a,
    findModel modelId (AVAILABLE_MODELS st) = Some record /\
    RETOOL_ACCOUNTS st !! j = Some a /\
    is_Some (candidateAgent now (model_agents record) a).
Proof.
  unfold candidates.
  destruct (findModel modelId (AVAILABLE_MODELS st)) as [record|].
  - rewrite filterCandidates_fst, Nat.sub_0_r. split.
    + intros (_ & a & Ha & Hc). eauto.
    + intros (r & a & Hr & Ha & Hc). injection Hr as <-.
      split; [lia|]. eauto.
  - rewrite elem_of_nil. split; [tauto|].
    intros (r & a & Hr & _). discriminate.
Qed.


Section SortHead.
Context {A : Type} (cmp : A -> A -> Z) (P : A -> Prop).
Hypothesis cmp_refl : forall x, P x -> cmp x x <= 0.
Hypothesis cmp_trans :
  forall x y z, P x -> P y -> P z -> cmp x y <= 0 -> cmp y z <= 0 -> cmp x z <= 0.
Hypothesis cmp_total : forall x y, P x -> P y -> 0 < cmp x y -> cmp y x <= 0.

Lemma sortInsert_elem (x y : A) (l : list A) :
  y ∈ sortInsert cmp x l <-> y = x \/ y ∈ l.
Proof.
  induction l as [|z l IH]; simpl.
  - rewrite list_elem_of_singleton, elem_of_nil. tauto.
  - destruct (cmp x z <=? 0).
    + rewrite elem_of_cons. tauto.
    + rewrite !elem_of_cons, IH. tauto.
Qed.

Lemma sortBy_nil (l : list A) : sortBy cmp l = [] -> l = [].
Proof.
  destruct l as [|x l]; [reflexivity|]. simpl. intros H.
  assert (Hx : x ∈ sortInsert cmp x (sortBy cmp l))
    by (apply sortInsert_elem; left; reflexivity).
  rewrite H in Hx. apply elem_of_nil in Hx. contradiction.
Qed.

(** The first element of the sorted array is a least element. *)
Lemma sortBy_head (l : list A) (h : A) (t : list A) :
  Forall P l -> sortBy cmp l = h :: t ->
  h ∈ l /\ forall y, y ∈ l -> cmp h y <= 0.
Proof.
  revert h t. induction l as [|x l IH]; intros h t HP Hs; [discriminate|].
  apply Forall_cons in HP as [Px Pl]. simpl in Hs.
  destruct (sortBy cmp l) as [|h' t'] eqn:Hl.
  - apply sortBy_nil in Hl. subst l. simpl in Hs. injection Hs as <- <-.
    split; [left|]. intros y Hy. apply list_elem_of_singleton in Hy. subst y. auto.
  - destruct (IH h' t' Pl eq_refl) as [Hin Hmin].
    assert (Ph' : P h') by (eapply Forall_forall in Pl; eauto).
    simpl in Hs. destruct (Z.leb_spec (cmp x h') 0) as [Hle|Hgt].
    + injection Hs as <- <-. split; [left|].
      intros y Hy. apply elem_of_cons in Hy as [->|Hy]; [auto|].
      apply (cmp_trans x h' y); auto. eapply Forall_forall in Pl; eauto.
    + injection Hs as <- <-. split; [right; exact Hin|].
      intros y Hy. apply elem_of_cons in Hy as [->|Hy]; auto.
Qed.
End SortHead.

Lemma compareAccounts_le (a b : RetoolAccount) :
  compareAccounts a b <= 0 <-> lexLe a b.
Proof.
  unfold compareAccounts, lexLe.
  destruct (Z.eqb_spec (last_used a - last_used b) 0); lia.
Qed.

Lemma compareAccounts_gt (a b : RetoolAccount) :
  0 < compareAccounts a b -> compareAccounts b a <= 0.
Proof.
  unfold compareAccounts.
  destruct (Z.eqb_spec (last_used a - last_used b) 0);
    destruct (Z.eqb_spec (last_used b - last_used a) 0); lia.
Qed.

Lemma afterFilter_fields (now : Z) (allowed : list string) (a : RetoolAccount) :
  is_valid (afterFilter now allowed a) = is_valid a /\
  last_used (afterFilter now allowed a) = last_used a /\
  error_count (afterFilter now allowed a) = error_count a /\
  agents (afterFilter now allowed a) = agents a /\
  domain_name (afterFilter now allowed a) = domain_name a.
Proof. unfold afterFilter. destruct (candidateAgent _ _ _); auto. Qed.

(** The chosen position, in terms of the accounts before the call. *)
Lemma getBestRetoolAccount_Some (now : Z) (modelId : string) (st : State)
    (chosen : nat) :
  fst (getBestRetoolAccount now modelId st) = Some chosen ->
  chosen ∈ candidates now modelId st /\
  exists acc,
    RETOOL_ACCOUNTS st !! chosen = Some acc /\
    forall j b, j ∈ candidates now modelId st ->
                RETOOL_ACCOUNTS st !! j = Some b -> lexLe acc b.
Proof.
  unfold getBestRetoolAccount, candidates.
  destruct (findModel modelId (AVAILABLE_MODELS st)) as [record|];
    [|discriminate].
  pose proof (filterCandidates_snd now (model_agents record) 0
                (RETOOL_ACCOUNTS st)) as Hsnd.
  pose proof (filterCandidates_fst now (model_agents record) 0
                (RETOOL_ACCOUNTS st)) as Hfst.
  destruct (filterCandidates now (model_agents record) 0 (RETOOL_ACCOUNTS st))
    as [kept accs]. simpl in Hsnd, Hfst. subst accs.
  set (accs := map (afterFilter now (model_agents record)) (RETOOL_ACCOUNTS st)).
  destruct (sortBy (compareAt accs) kept) as [|h t] eqn:Hs; [discriminate|].
  simpl. intros [= ->].
  assert (Hvalid : Forall (fun j => is_Some (RETOOL_ACCOUNTS st !! j)) kept).
  { apply Forall_forall. intros j Hj. apply Hfst in Hj as (_ & a & Ha & _).
    rewrite Nat.sub_0_r in Ha. eauto. }
  assert (Hat : forall j a, RETOOL_ACCOUNTS st !! j = Some a ->
            accs !! j = Some (afterFilter now (model_agents record) a)).
  { intros j a Ha. unfold accs. rewrite list_lookup_fmap, Ha. reflexivity. }
  destruct (sortBy_head (compareAt accs)
              (fun j => is_Some (RETOOL_ACCOUNTS st !! j))) with
    (l := kept) (h := chosen) (t := t) as [Hin Hmin]; auto.
  - intros x [a Ha]. unfold compareAt. rewrite (Hat _ _ Ha).
    apply compareAccounts_le. unfold lexLe. lia.
  - intros x y z [a Ha] [b Hb] [c Hc]. unfold compareAt.
    rewrite (Hat _ _ Ha), (Hat _ _ Hb), (Hat _ _ Hc).
    rewrite !compareAccounts_le. unfold lexLe. lia.
  - intros x y [a Ha] [b Hb]. unfold compareAt.
    rewrite (Hat _ _ Ha), (Hat _ _ Hb). apply compareAccounts_gt.
  - split; [exact Hin|].
    eapply Forall_forall in Hvalid as [acc Hacc]; [|exact Hin].
    exists acc. split; [exact Hacc|]. intros j b Hj Hb.
    specialize (Hmin j Hj). unfold compareAt in Hmin.
    rewrite (Hat _ _ Hacc), (Hat _ _ Hb) in Hmin.
    apply compareAccounts_le in Hmin. unfold lexLe in *.
    destruct (afterFilter_fields now (model_agents record) acc)
      as (_ & E1 & E2 & _).
    destruct (afterFilter_fields now (model_agents record) b)
      as (_ & E3 & E4 & _).
    rewrite E1, E2, E3, E4 in Hmin. exact Hmin.
Qed.

Lemma getBestRetoolAccount_nonempty (now : Z) (modelId : string) (st : State) :
  candidates now modelId st <> [] ->
  exists chosen, fst (getBestRetoolAccount now modelId st) = Some chosen.
Proof.
  unfold getBestRetoolAccount, candidates.
  destruct (findModel modelId (AVAILABLE_MODELS st)) as [record|];
    [|intros H; contradiction].
  destruct (filterCandidates now (model_agents record) 0 (RETOOL_ACCOUNTS st))
    as [kept accs]. simpl. intros Hne.
  destruct (sortBy (compareAt accs) kept) as [|h t] eqn:Hs.
  - apply sortBy_nil in Hs. contradiction.
  - simpl. eauto.
Qed.

(** The registry after a call of the selector: every account object is
    still in its place; only [selected_agent_id] and, for the chosen one,
    [last_used] have been written. *)
Lemma getBestRetoolAccount_accounts (now : Z) (modelId : string) (st : State) :
  AVAILABLE_MODELS (snd (getBestRetoolAccount now modelId st)) =
    AVAILABLE_MODELS st /\
  length (RETOOL_ACCOUNTS (snd (getBestRetoolAccount now modelId st))) =
    length (RETOOL_ACCOUNTS st) /\
  forall j a,
    RETOOL_ACCOUNTS st !! j = Some a ->
    exists a',
      RETOOL_ACCOUNTS (snd (getBestRetoolAccount now modelId st)) !! j
        = Some a' /\
      is_valid a' = is_valid a /\
      error_count a' = error_count a /\
      agents a' = agents a /\
      domain_name a' = domain_name a /\
      last_used a' =
        (if decide (fst (getBestRetoolAccount now modelId st) = Some j)
         then now else last_used a).
Proof.
  unfold getBestRetoolAccount.
  destruct (findModel modelId (AVAILABLE_MODELS st)) as [record|].
  2: { simpl. repeat split. intros j a Ha. exists a. auto 10. }
  pose proof (filterCandidates_snd now (model_agents record) 0
                (RETOOL_ACCOUNTS st)) as Hsnd.
  destruct (filterCandidates now (model_agents record) 0 (RETOOL_ACCOUNTS st))
    as [kept accs]. simpl in Hsnd. subst accs.
  destruct (sortBy _ kept) as [|chosen t];
    cbn [fst snd RETOOL_ACCOUNTS AVAILABLE_MODELS].
  - split; [reflexivity|]. split; [apply length_map|].
    intros j a Ha. exists (afterFilter now (model_agents record) a).
    rewrite list_lookup_fmap, Ha. split; [reflexivity|].
    rewrite decide_False by discriminate.
    destruct (afterFilter_fields now (model_agents record) a)
      as (? & ? & ? & ? & ?). auto 10.
  - split; [reflexivity|]. split; [rewrite length_alter; apply length_map|].
    intros j a Ha.
    destruct (afterFilter_fields now (model_agents record) a)
      as (? & ? & ? & ? & ?).
    destruct (decide (chosen = j)) as [->|Hne].
    + exists (set_last_used now (afterFilter now (model_agents record) a)).
      rewrite list_lookup_alter_eq, list_lookup_fmap, Ha.
      rewrite decide_True by reflexivity. simpl. auto 10.
    + exists (afterFilter now (model_agents record) a).
      rewrite list_lookup_alter_ne by exact Hne.
      rewrite list_lookup_fmap, Ha.
      rewrite decide_False by congruence. simpl. auto 10.
Qed.

Lemma recordFailure_lookup (i : nat) (e : RetoolError) (auth : bool)
    (accs : list RetoolAccount) (j : nat) (a : RetoolAccount) :
  accs !! j = Some a ->
  exists a',
    recordFailure i e auth accs !! j = Some a' /\
    last_used a' = last_used a /\
    (is_valid a = false -> is_valid a' = false) /\
    (j <> i -> a' = a).
Proof.
  intros Ha. unfold recordFailure.
  destruct (decide (i = j)) as [->|Hne].
  - destruct auth.
    + eexists. rewrite !list_lookup_alter_eq, Ha. simpl.
      split; [reflexivity|]. simpl. split; [reflexivity|].
      split; [reflexivity|congruence].
    + eexists. rewrite list_lookup_alter_eq, Ha. simpl.
      split; [reflexivity|]. simpl. split; [reflexivity|].
      split; [auto|congruence].
  - exists a. destruct auth; rewrite !list_lookup_alter_ne by exact Hne; auto.
Qed.

(** C4. When the candidate set is not empty the selector returns one of
    the candidates, one that is least for the ascending lexicographic order
    on (last_used, error_count); after the call that account's last_used is
    the current time, and the bookkeeping of a failed attempt does not move
    it. *)
Theorem getBestRetoolAccount_least_recently_used :
  forall (now : Z) (modelId : string) (st : State),
    candidates now modelId st <> [] ->
    exists chosen acc,
      fst (getBestRetoolAccount now modelId st) = Some chosen /\
      chosen ∈ candidates now modelId st /\
      RETOOL_ACCOUNTS st !! chosen = Some acc /\
      (forall j b, j ∈ candidates now modelId st ->
                   RETOOL_ACCOUNTS st !! j = Some b -> lexLe acc b) /\
      last_used <$>
        RETOOL_ACCOUNTS (snd (getBestRetoolAccount now modelId st)) !! chosen
        = Some now /\
      forall (e : RetoolError) (auth : bool),
        last_used <$>
          recordFailure chosen e auth
            (RETOOL_ACCOUNTS (snd (getBestRetoolAccount now modelId st)))
            !! chosen
        = Some now.
Proof.
  intros now modelId st Hne.
  destruct (getBestRetoolAccount_nonempty now modelId st Hne) as [chosen Hc].
  destruct (getBestRetoolAccount_Some now modelId st chosen Hc)
    as (Hin & acc & Hacc & Hmin).
  destruct (getBestRetoolAccount_accounts now modelId st) as (_ & _ & Hst).
  destruct (Hst chosen acc Hacc) as (a' & Ha' & _ & _ & _ & _ & Hlu).
  rewrite decide_True in Hlu by exact Hc.
  exists chosen, acc. repeat split; try assumption.
  - rewrite Ha'. simpl. congruence.
  - intros e auth.
    destruct (recordFailure_lookup chosen e auth _ chosen a' Ha')
      as (a'' & Ha'' & Hl & _).
    rewrite Ha''. simpl. congruence.
Qed.

(** ** Invalid accounts stay invalid *)

Lemma getBestRetoolAccount_invalid (now : Z) (modelId : string) (st : State)
    (i : nat) :
  invalidAt i st -> invalidAt i (snd (getBestRetoolAccount now modelId st)).
Proof.
  intros (a & Ha & Hv).
  destruct (getBestRetoolAccount_accounts now modelId st) as (_ & _ & Hst).
  destruct (Hst i a Ha) as (a' & Ha' & Hv' & _).
  exists a'. split; [exact Ha'|congruence].
Qed.

Lemma getBestRetoolAccount_skips_invalid (now : Z) (modelId : string)
    (st : State) (i : nat) :
  invalidAt i st -> fst (getBestRetoolAccount now modelId st) <> Some i.
Proof.
  intros (a & Ha & Hv) Hc.
  apply getBestRetoolAccount_Some in Hc as [Hin _].
  apply candidates_iff in Hin as (record & a' & _ & Ha' & Hs).
  rewrite Ha in Ha'. injection Ha' as <-.
  apply candidateAgent_is_Some in Hs as [Hv' _]. congruence.
Qed.

Lemma recordFailure_invalid (k : nat) (e : RetoolError) (auth : bool)
    (accs : list RetoolAccount) (i : nat) :
  invalidIn i accs -> invalidIn i (recordFailure k e auth accs).
Proof.
  intros (a & Ha & Hv).
  destruct (recordFailure_lookup k e auth accs i a Ha) as (a' & Ha' & _ & Hv' & _).
  exists a'. auto.
Qed.


(** A failure with an authentication status marks the account invalid. *)
Lemma recordFailure_auth (i : nat) (e : RetoolError)
    (accs : list RetoolAccount) :
  (i < length accs)%nat -> invalidIn i (recordFailure i e true accs).
Proof.
  intros Hi. apply lookup_lt_is_Some in Hi as [a Ha].
  unfold recordFailure, invalidIn. eexists.
  rewrite !list_lookup_alter_eq, Ha. simpl. split; reflexivity.
Qed.

Lemma retryLoop_invalid (world : nat -> Attempt) (body : ChatCompletionRequest)
    (remaining attempt : nat) (ls : LoopState) (i : nat) :
  invalidAt i (loop_state ls) ->
  invalidAt i (loop_state (snd (retryLoop world body remaining attempt ls))).
Proof.
  revert attempt ls. induction remaining as [|remaining IH];
    intros attempt ls Hinv; [exact Hinv|].
  simpl.
  pose proof (getBestRetoolAccount_invalid (attempt_now (world attempt))
                (req_model body) (loop_state ls) i Hinv) as Hsel.
  destruct (getBestRetoolAccount _ _ (loop_state ls)) as [[chosen|] st1];
    simpl in Hsel; [|exact Hsel].
  destruct (attempt_outcome (world attempt)) as [txt|e|msg]; [exact Hsel| |];
    apply IH; apply recordFailure_invalid; exact Hsel.
Qed.

Lemma chatCompletions_invalid (world : nat -> Attempt)
    (body : ChatCompletionRequest) (st : State) (i : nat) :
  invalidAt i st ->
  invalidAt i (loop_state (snd (chatCompletions world body st))).
Proof.
  intros Hinv. unfold chatCompletions.
  destruct (req_messages body); [exact Hinv|].
  destruct (findModel _ _); [|exact Hinv].
  pose proof (retryLoop_invalid world body (length (RETOOL_ACCOUNTS st)) 0
                (mkLoop st 0 [] []) i Hinv) as H.
  destruct (retryLoop _ _ _ _ _) as [[resp|] ls]; exact H.
Qed.

Lemma discoverAccount_invalid (acc : RetoolAccount) (r : Result (list Agent)) :
  is_valid acc = false -> is_valid (discoverAccount acc r) = false.
Proof.
  intros Hv. destruct r as [ags|e|msg]; simpl; auto.
  destruct (isAuthStatus (statusCode e)); simpl; auto.
Qed.

Lemma discoverAccounts_invalid (accs : list RetoolAccount)
    (answers : list (Fetched (list Agent) * string)) (i : nat) :
  invalidIn i accs -> invalidIn i (discoverAccounts accs answers).
Proof.
  revert answers i. induction accs as [|acc accs IH];
    intros answers i (a & Ha & Hv); [discriminate|].
  simpl. destruct (match answers with [] => _ | p :: _ => p end) as [f stamp].
  destruct i as [|i]; simpl in Ha.
  - injection Ha as ->. eexists. split; [reflexivity|].
    apply discoverAccount_invalid. exact Hv.
  - apply (IH (tail answers) i). exists a. auto.
Qed.

Lemma runOperation_invalid (st : State) (o : Operation) (i : nat) :
  invalidAt i st -> invalidAt i (runOperation st o).
Proof.
  intros Hinv. destruct o as [answers|world body|now modelId]; simpl.
  - apply discoverAccounts_invalid. exact Hinv.
  - apply chatCompletions_invalid. exact Hinv.
  - apply getBestRetoolAccount_invalid. exact Hinv.
Qed.

(** C5. Once the account at some position is invalid, it is still invalid
    after any sequence of operations of the process (discovery, chat
    requests with whatever the upstream answers, selector calls), and the
    selector called afterwards, at any time and for any model, does not
    return it: neither the passing of time nor its error count brings it
    back. *)
Theorem invalid_account_never_selected :
  forall (st : State) (i : nat) (ops : list Operation),
    invalidAt i st ->
    invalidAt i (runOperations st ops) /\
    forall (now : Z) (modelId : string),
      (i ∉ candidates now modelId (runOperations st ops)) /\
      fst (getBestRetoolAccount now modelId (runOperations st ops)) <> Some i.
Proof.
  intros st i ops. revert st. induction ops as [|o ops IH]; intros st Hinv.
  - simpl. split; [exact Hinv|]. intros now modelId. split.
    + intros Hin. apply candidates_iff in Hin as (record & a' & _ & Ha' & Hs).
      destruct Hinv as (a & Ha & Hv). rewrite Ha in Ha'. injection Ha' as <-.
      apply candidateAgent_is_Some in Hs as [Hv' _]. congruence.
    + apply getBestRetoolAccount_skips_invalid. exact Hinv.
  - simpl. apply IH. apply runOperation_invalid. exact Hinv.
Qed.

(** ** The retry loop *)

Lemma getBestRetoolAccount_in_range (now : Z) (modelId : string) (st : State)
    (chosen : nat) :
  fst (getBestRetoolAccount now modelId st) = Some chosen ->
  (chosen < length (RETOOL_ACCOUNTS st))%nat.
Proof.
  intros Hc. apply getBestRetoolAccount_Some in Hc as (_ & acc & Hacc & _).
  eapply lookup_lt_Some. exact Hacc.
Qed.


(** A response returned from inside the loop is a completion. *)
Lemma retryLoop_success (world : nat -> Attempt) (body : ChatCompletionRequest)
    (remaining attempt : nat) (ls : LoopState) (resp : Response) :
  fst (retryLoop world body remaining attempt ls) = Some resp ->
  exists text,
    resp = ChatCompletion (req_model body) text \/
    resp = ChatCompletionStream (req_model body) text.
Proof.
  revert attempt ls. induction remaining as [|remaining IH];
    intros attempt ls; [discriminate|].
  simpl.
  destruct (getBestRetoolAccount _ _ (loop_state ls)) as [[chosen|] st1];
    [|discriminate].
  destruct (attempt_outcome (world attempt)) as [txt|e|msg]; [|apply IH..].
  simpl. intros [= <-]. exists txt. destruct (req_stream body); auto.
Qed.

(** When the loop is left without a response, every attempt it made
    failed. *)
Lemma retryLoop_all_failed (world : nat -> Attempt)
    (body : ChatCompletionRequest) (remaining attempt : nat) (ls : LoopState) :
  fst (retryLoop world body remaining attempt ls) = None ->
  exists n,
    length (tried (snd (retryLoop world body remaining attempt ls)))
      = (length (tried ls) + n)%nat /\
    forall j t, (j < n)%nat ->
                attempt_outcome (world (attempt + j)%nat) <> Returned t.
Proof.
  revert attempt ls. induction remaining as [|remaining IH]; intros attempt ls.
  { intros _. exists 0%nat. simpl. split; [lia|]. intros j t Hj. lia. }
  simpl.
  destruct (getBestRetoolAccount _ _ (loop_state ls)) as [[chosen|] st1].
  2: { intros _. exists 0%nat. simpl. split; [lia|]. intros j t Hj. lia. }
  assert (Hstep : forall ls2,
    tried ls2 = tried ls ++ [chosen] ->
    (forall t, attempt_outcome (world attempt) <> Returned t) ->
    fst (retryLoop world body remaining (S attempt) ls2) = None ->
    exists n,
      length (tried (snd (retryLoop world body remaining (S attempt) ls2)))
        = (length (tried ls) + n)%nat /\
      forall j t, (j < n)%nat ->
                  attempt_outcome (world (attempt + j)%nat) <> Returned t).
  { intros ls2 Ht Hout H. destruct (IH _ _ H) as (n & Hl & Hfail).
    exists (S n). split.
    - rewrite Hl, Ht, length_app. simpl. lia.
    - intros j t Hj. destruct j as [|j].
      + rewrite Nat.add_0_r. apply Hout.
      + replace (attempt + S j)%nat with (S attempt + j)%nat by lia.
        apply Hfail. lia. }
  destruct (attempt_outcome (world attempt)) as [txt|e|msg] eqn:Hout.
  - discriminate.
  - apply Hstep; [reflexivity|discriminate].
  - apply Hstep; [reflexivity|discriminate].
Qed.



(** ** Polling *)

Lemma pollLoop_pending (acc : RetoolAccount) (deadline : Z)
    (pre rest : list PollTick) :
  Forall (tickPending deadline) pre ->
  pollLoop acc deadline (pre ++ rest) = pollLoop acc deadline rest.
Proof.
  induction 1 as [|t pre Ht _ IH]; [reflexivity|].
  destruct Ht as (Hnow & status & data & Hf & Hok & Hst).
  simpl. apply Z.ltb_lt in Hnow. rewrite Hnow, Hf, Hok.
  apply String.eqb_neq in Hst. rewrite Hst. exact IH.
Qed.

(** Whenever the loop ends, it ends in its first round that is not
    pending. *)
Lemma pollLoop_decided (acc : RetoolAccount) (deadline : Z)
    (script : list PollTick) (r : Result string) :
  pollLoop acc deadline script = Some r ->
  exists pre t post,
    script = pre ++ t :: post /\
    Forall (tickPending deadline) pre /\
    ~ tickPending deadline t /\
    pollLoop acc deadline [t] = Some r.
Proof.
  induction script as [|t rest IH]; [discriminate|].
  destruct (Z.ltb_spec (tick_now t) deadline) as [Hnow|Hnow].
  2: { intros H. exists [], t, rest. repeat split; auto.
       - intros [Hlt _]. lia.
       - simpl in *. apply Z.ltb_ge in Hnow. rewrite Hnow in *. exact H. }
  destruct (tick_fetch t) as [msg|status data] eqn:Hf.
  { intros H. exists [], t, rest. repeat split; auto.
    - intros (_ & s & d & Hf' & _). congruence.
    - simpl in *. apply Z.ltb_lt in Hnow. rewrite Hnow, Hf in *. exact H. }
  destruct (ok status) eqn:Hok.
  2: { intros H. exists [], t, rest. repeat split; auto.
       - intros (_ & s & d & Hf' & Hok' & _). congruence.
       - simpl in *. apply Z.ltb_lt in Hnow. rewrite Hnow, Hf, Hok in *.
         exact H. }
  destruct (String.eqb_spec (log_status data) "COMPLETED") as [Hst|Hst].
  { intros H. exists [], t, rest. repeat split; auto.
    - intros (_ & s & d & Hf' & _ & Hne). congruence.
    - simpl in *. apply Z.ltb_lt in Hnow. rewrite Hnow, Hf, Hok in *.
      apply String.eqb_eq in Hst. rewrite Hst in *.
      destruct (last (trace data)); exact H. }
  intros H.
  assert (Hp : tickPending deadline t) by (split; eauto).
  change (t :: rest) with ([t] ++ rest) in H.
  rewrite (pollLoop_pending acc deadline [t] rest) in H
    by (constructor; [exact Hp|constructor]).
  destruct (IH H) as (pre & t' & post & -> & Hpre & Hnp & Hr).
  exists (t :: pre), t', post. repeat split; auto.
Qed.

Lemma pollEffects_pending (deadline : Z) (pre rest : list PollTick) :
  Forall (tickPending deadline) pre ->
  pollEffects deadline (pre ++ rest) =
  concat (map (fun _ => [GetLog; Sleep 1000]) pre) ++ pollEffects deadline rest.
Proof.
  induction 1 as [|t pre Ht _ IH]; [reflexivity|].
  destruct Ht as (Hnow & status & data & Hf & Hok & Hst).
  cbn [app pollEffects map concat]. apply Z.ltb_lt in Hnow.
  rewrite Hnow, Hf, Hok.
  apply String.eqb_neq in Hst. rewrite Hst, IH. reflexivity.
Qed.

(** C9. The poll step ends in a [message_get] error exactly in two cases,
    both decided by the first round that does not leave the loop pending.
    Either that round's request was answered with a non-success status:
    the error carries that status and the message "Get log failed", and
    that request is the last thing the loop does (no further request).  Or
    that round found the deadline reached: the error carries the message
    "Timeout waiting for completion" and no status, and the round makes no
    request.  The step returns a text exactly when that round's request saw
    the status COMPLETED, and the text is the content of the last trace
    entry.  Every round before the deciding one makes one request and then
    sleeps 1000 ms, so that requests are one second of sleep apart.  The
    default deadline is 300 seconds after the start. *)
Theorem retoolGetMessage_outcomes :
  forall (acc : RetoolAccount) (start timeoutMs : Z) (script : list PollTick),
    let deadline := start + timeoutMs in
    let rounds (pre : list PollTick) :=
      concat (map (fun _ => [GetLog; Sleep 1000]) pre) in
    defaultTimeoutMs = 300 * 1000 /\
    (forall e,
       retoolGetMessage acc start timeoutMs script = Some (ThrownApi e) <->
       exists pre t post,
         script = pre ++ t :: post /\
         Forall (tickPending deadline) pre /\
         operation e = message_get /\
         account e = domain_name acc /\
         timestamp e = tick_stamp t /\
         ((tick_now t < deadline /\
           exists status data,
             tick_fetch t = Answer status data /\ ok status = false /\
             statusCode e = Some status /\
             message e = "Get log failed" /\
             retoolGetMessageEffects start timeoutMs script
               = rounds pre ++ [GetLog]) \/
          (deadline <= tick_now t /\
           statusCode e = None /\
           message e = "Timeout waiting for completion" /\
           retoolGetMessageEffects start timeoutMs script = rounds pre))) /\
    (forall text,
       retoolGetMessage acc start timeoutMs script = Some (Returned text) <->
       exists pre t post status data,
         script = pre ++ t :: post /\
         Forall (tickPending deadline) pre /\
         tick_now t < deadline /\
         tick_fetch t = Answer status data /\ ok status = true /\
         log_status data = "COMPLETED" /\
         last (trace data) = Some text /\
         retoolGetMessageEffects start timeoutMs script
           = rounds pre ++ [GetLog]).
Proof.
  intros acc start timeoutMs script deadline rounds.
  unfold retoolGetMessage, retoolGetMessageEffects.
  fold deadline. split; [reflexivity|]. split.
  - intros e. split.
    + intros H. apply pollLoop_decided in H
        as (pre & t & post & -> & Hpre & _ & Hr).
      exists pre, t, post. split; [reflexivity|]. split; [exact Hpre|].
      rewrite (pollEffects_pending deadline pre (t :: post) Hpre).
      fold (rounds pre). cbn [pollLoop pollEffects] in *.
      destruct (Z.ltb_spec (tick_now t) deadline) as [Hnow|Hnow].
      * destruct (tick_fetch t) as [msg|status data]; [discriminate|].
        destruct (ok status) eqn:Hok.
        -- destruct (String.eqb _ _); [|discriminate].
           destruct (last (trace data)); discriminate.
        -- injection Hr as <-. cbn.
           split; [reflexivity|]. split; [reflexivity|].
           split; [reflexivity|]. left. split; [exact Hnow|].
           exists status, data. auto.
      * injection Hr as <-. cbn.
        split; [reflexivity|]. split; [reflexivity|].
        split; [reflexivity|]. right. rewrite app_nil_r. auto.
    + intros (pre & t & post & -> & Hpre & Hop & Hacc & Hstamp & Hcase).
      rewrite pollLoop_pending by exact Hpre. cbn [pollLoop].
      destruct e as [op dom code msg stamp]. cbn in Hop, Hacc, Hstamp.
      subst op dom stamp.
      destruct Hcase as [(Hnow & status & data & Hf & Hok & Hcode & Hmsg & _)
                        |(Hnow & Hcode & Hmsg & _)];
        cbn in Hcode, Hmsg; subst code msg.
      * apply Z.ltb_lt in Hnow. rewrite Hnow, Hf, Hok. reflexivity.
      * apply Z.ltb_ge in Hnow. rewrite Hnow. reflexivity.
  - intros text. split.
    + intros H. apply pollLoop_decided in H
        as (pre & t & post & -> & Hpre & _ & Hr).
      exists pre, t, post.
      rewrite (pollEffects_pending deadline pre (t :: post) Hpre).
      fold (rounds pre). cbn [pollLoop pollEffects] in *.
      destruct (Z.ltb_spec (tick_now t) deadline) as [Hnow|Hnow];
        [|discriminate].
      destruct (tick_fetch t) as [msg|status data]; [discriminate|].
      exists status, data.
      destruct (ok status) eqn:Hok; [|discriminate].
      destruct (String.eqb_spec (log_status data) "COMPLETED") as [Hst|Hst];
        [|discriminate].
      destruct (last (trace data)) as [x|]; [|discriminate].
      injection Hr as <-. auto 10.
    + intros (pre & t & post & status & data & -> & Hpre & Hnow & Hf & Hok
                & Hst & Hl & _).
      rewrite pollLoop_pending by exact Hpre. cbn [pollLoop].
      apply Z.ltb_lt in Hnow. rewrite Hnow, Hf, Hok, Hst, Hl. reflexivity.
Qed.

(** ** Streaming *)

Lemma contentLoop_step (JSON_stringify : Chunk -> string)
    (streamId : string) (created : Z) (modelId fullMessage : string) (i : nat) :
  contentLoop JSON_stringify streamId created modelId fullMessage i =
  if lt_dec i (String.length fullMessage)
  then contentFrame JSON_stringify streamId created modelId
         (sliceAt fullMessage i)
       :: contentLoop JSON_stringify streamId created modelId fullMessage
            (i + chunkSize)
  else [].
Proof.
  rewrite contentLoop_equation_1.
  destruct (lt_dec i (String.length fullMessage)); reflexivity.
Qed.

Lemma sliceCount_ceiling (len : nat) :
  (len <= 5 * sliceCount len < len + 5)%nat.
Proof.
  unfold sliceCount.
  pose proof (Nat.div_mod_eq (len + 4) 5) as H.
  pose proof (Nat.mod_upper_bound (len + 4) 5) as Hm. lia.
Qed.

Lemma contentLoop_slices (JSON_stringify : Chunk -> string)
    (streamId : string) (created : Z) (modelId fullMessage : string)
    (d j : nat) :
  (j + d)%nat = sliceCount (String.length fullMessage) ->
  contentLoop JSON_stringify streamId created modelId fullMessage (5 * j) =
  map (fun k => contentFrame JSON_stringify streamId created modelId
                  (nthSlice fullMessage k))
      (seq j d).
Proof.
  pose proof (sliceCount_ceiling (String.length fullMessage)) as Hc.
  revert j. induction d as [|d IH]; intros j Hj; rewrite contentLoop_step.
  - destruct (lt_dec _ _) as [Hlt|_]; [lia|reflexivity].
  - destruct (lt_dec _ _) as [_|Hge]; [|lia].
    simpl map. f_equal.
    replace (5 * j + chunkSize)%nat with (5 * S j)%nat
      by (unfold chunkSize; lia).
    apply IH. lia.
Qed.

Lemma substring_all (s : string) (m : nat) :
  (String.length s <= m)%nat -> String.substring 0 m s = s.
Proof.
  revert m. induction s as [|c s IH]; intros m Hm.
  - destruct m; reflexivity.
  - destruct m as [|m]; simpl in Hm; [lia|].
    simpl. rewrite IH by lia. reflexivity.
Qed.

Lemma substring_split (s : string) (i a b : nat) :
  String.substring i (a + b) s =
  String.substring i a s +:+ String.substring (i + a) b s.
Proof.
  revert i a. induction s as [|c s IH]; intros i a.
  - destruct i, a, b; reflexivity.
  - destruct i as [|i].
    + destruct a as [|a]; [reflexivity|].
      simpl. rewrite append_cons. f_equal. apply (IH 0%nat).
    + simpl. apply IH.
Qed.

Lemma substring_none (s : string) (i : nat) : String.substring i 0 s = "".
Proof.
  revert i. induction s as [|c s IH]; intros [|i]; simpl; auto.
Qed.

Lemma slices_cover (s : string) (j d : nat) :
  foldr String.append "" (map (nthSlice s) (seq j d)) =
  String.substring (5 * j) (5 * d) s.
Proof.
  revert j. induction d as [|d IH]; intros j.
  - symmetry. apply substring_none.
  - replace (5 * S d)%nat with (5 + 5 * d)%nat by lia.
    rewrite substring_split. simpl seq. simpl map. simpl foldr.
    rewrite IH. replace (5 * S j)%nat with (5 * j + 5)%nat by lia.
    reflexivity.
Qed.

(** C6. For every text, the generator yields the role-announcement frame,
    then one content frame per slice of five characters, in order, their
    number being the length divided by five and rounded up, and the slices
    put together giving back the text, then one last value made of the
    stop frame followed by the [DONE] marker; every frame carries the same
    stream id and the same creation time, taken at the start. For
    "Hello world" the slices are "Hello", " worl" and "d". *)
Theorem retoolStreamGenerator_frames :
  forall (JSON_stringify : Chunk -> string)
         (fullMessage modelId streamId : string) (now : Z),
    let created := now / 1000 in
    let frame delta finish :=
      "data: " +:+
      JSON_stringify (mkChunk streamId created modelId delta finish) +:+
      LFLF in
    let n := sliceCount (String.length fullMessage) in
    (retoolStreamGenerator JSON_stringify fullMessage modelId streamId now =
       [frame (DeltaRole "assistant") None]
       ++ map (fun k => frame (DeltaContent (nthSlice fullMessage k)) None)
            (seq 0 n)
       ++ [frame DeltaEmpty (Some "stop") +:+ "data: [DONE]" +:+ LFLF]) /\
    (String.length fullMessage <= 5 * n < String.length fullMessage + 5)%nat /\
    (forall k, nthSlice fullMessage k = String.substring (5 * k) 5 fullMessage) /\
    (foldr String.append "" (map (nthSlice fullMessage) (seq 0 n))
       = fullMessage) /\
    (map (nthSlice "Hello world")
       (seq 0 (sliceCount (String.length "Hello world")))
       = ["Hello"; " worl"; "d"]).
Proof.
  intros JSON_stringify fullMessage modelId streamId now created frame n.
  split; [|split; [apply sliceCount_ceiling|split; [reflexivity|split]]].
  - unfold retoolStreamGenerator. fold created.
    change 0%nat with (5 * 0)%nat at 1.
    rewrite (contentLoop_slices JSON_stringify streamId created modelId
               fullMessage n 0) by reflexivity.
    reflexivity.
  - rewrite slices_cover. apply substring_all.
    pose proof (sliceCount_ceiling (String.length fullMessage)). fold n in H.
    lia.
  - vm_compute. reflexivity.
Qed.

(** ** Model discovery *)

Lemma mapGet_mapSet_eq (k : string) (r : ModelRecord)
    (m : list (string * ModelRecord)) :
  mapGet k (mapSet k r m) = Some r.
Proof.
  unfold mapGet. induction m as [|[k' r'] m IH]; simpl.
  - rewrite String.eqb_refl. reflexivity.
  - destruct (String.eqb_spec k' k) as [->|Hne]; simpl.
    + rewrite String.eqb_refl. reflexivity.
    + apply String.eqb_neq in Hne. rewrite Hne. exact IH.
Qed.

Lemma mapGet_mapSet_ne (k k' : string) (r : ModelRecord)
    (m : list (string * ModelRecord)) :
  k' <> k -> mapGet k' (mapSet k r m) = mapGet k' m.
Proof.
  intros Hne. unfold mapGet. induction m as [|[k0 r0] m IH]; simpl.
  - apply not_eq_sym in Hne. apply String.eqb_neq in Hne.
    rewrite Hne. reflexivity.
  - destruct (String.eqb_spec k0 k) as [->|Hk]; simpl.
    + apply not_eq_sym in Hne. apply String.eqb_neq in Hne.
      rewrite Hne. reflexivity.
    + destruct (String.eqb k0 k'); [reflexivity|exact IH].
Qed.

Lemma mapSet_keys (k : string) (r : ModelRecord)
    (m : list (string * ModelRecord)) (x : string) :
  x ∈ map fst (mapSet k r m) <-> x = k \/ x ∈ map fst m.
Proof.
  induction m as [|[k0 r0] m IH]; simpl.
  - rewrite list_elem_of_singleton, elem_of_nil. tauto.
  - destruct (String.eqb_spec k0 k) as [->|Hk]; simpl.
    + rewrite elem_of_cons. tauto.
    + rewrite !elem_of_cons, IH. tauto.
Qed.

Lemma mapSet_NoDup (k : string) (r : ModelRecord)
    (m : list (string * ModelRecord)) :
  NoDup (map fst m) -> NoDup (map fst (mapSet k r m)).
Proof.
  induction m as [|[k0 r0] m IH]; simpl; intros Hnd.
  - apply NoDup_singleton.
  - apply NoDup_cons in Hnd as [Hnotin Hnd].
    destruct (String.eqb_spec k0 k) as [->|Hk]; simpl.
    + apply NoDup_cons. auto.
    + apply NoDup_cons. split; [|auto].
      rewrite mapSet_keys. intros [->|Hin]; [congruence|contradiction].
Qed.

Lemma mapGet_elem (m : list (string * ModelRecord)) (k : string)
    (r : ModelRecord) :
  NoDup (map fst m) -> (k, r) ∈ m -> mapGet k m = Some r.
Proof.
  unfold mapGet. induction m as [|[k0 r0] m IH]; simpl; intros Hnd Hin.
  - apply elem_of_nil in Hin. contradiction.
  - apply NoDup_cons in Hnd as [Hnotin Hnd].
    apply elem_of_cons in Hin as [[= -> ->]|Hin].
    + rewrite String.eqb_refl. reflexivity.
    + destruct (String.eqb_spec k0 k) as [->|Hk]; [|auto].
      exfalso. apply Hnotin. apply list_elem_of_fmap. exists (k, r). auto.
Qed.

Lemma mapGet_Some_elem (m : list (string * ModelRecord)) (k : string)
    (r : ModelRecord) :
  mapGet k m = Some r -> (k, r) ∈ m.
Proof.
  unfold mapGet. intros H.
  destruct (find _ m) as [[k0 r0]|] eqn:Hf; [|discriminate].
  simpl in H. injection H as ->.
  apply find_some in Hf as [Hin Hk]. simpl in Hk.
  apply String.eqb_eq in Hk. subst k0. apply list_elem_of_In. exact Hin.
Qed.

Lemma familyOf_snoc (k : string) (seen : list Agent) (ag : Agent) :
  familyOf k (seen ++ [ag]) =
  if decide (seriesOf (fullNameOf ag) = k)
  then familyOf k seen ++ [ag] else familyOf k seen.
Proof.
  unfold familyOf. rewrite filter_app. simpl.
  rewrite filter_cons, filter_nil.
  destruct (decide _); [reflexivity|apply app_nil_r].
Qed.

(** The invariant of the aggregation loop: what the map holds for every
    key is the record of that family among the agents seen so far. *)
Lemma aggregateAgent_family (m : list (string * ModelRecord))
    (seen : list Agent) (ag : Agent) :
  (forall k, mapGet k m = familyRecord k seen) ->
  forall k, mapGet k (aggregateAgent m ag) = familyRecord k (seen ++ [ag]).
Proof.
  intros Hinv k. unfold aggregateAgent, familyRecord.
  rewrite familyOf_snoc.
  destruct (decide (seriesOf (fullNameOf ag) = k)) as [<-|Hne].
  - rewrite mapGet_mapSet_eq, Hinv. unfold familyRecord.
    destruct (familyOf _ seen) as [|first rest]; simpl.
    + reflexivity.
    + unfold pushAgent. simpl. rewrite map_app. reflexivity.
  - rewrite mapGet_mapSet_ne by congruence. apply Hinv.
Qed.

Lemma aggregate_fold (ags : list Agent) :
  let m := fold_left aggregateAgent ags [] in
  NoDup (map fst m) /\ forall k, mapGet k m = familyRecord k ags.
Proof.
  induction ags as [|ag seen IH] using rev_ind.
  - simpl. split; [apply NoDup_nil_2|reflexivity].
  - rewrite fold_left_app. simpl. destruct IH as [Hnd Hinv]. split.
    + apply mapSet_NoDup. exact Hnd.
    + apply aggregateAgent_family. exact Hinv.
Qed.

Lemma familyRecord_Some (k : string) (ags : list Agent) (rec : ModelRecord) :
  familyRecord k ags = Some rec <->
  exists first rest,
    filter (fun ag => seriesOf (fullNameOf ag) = k) ags = first :: rest /\
    rec = mkModel k (agent_name first) (fullNameOf first)
            (ownerOf (fullNameOf first)) (map agent_id (first :: rest)).
Proof.
  unfold familyRecord, familyOf.
  destruct (filter _ ags) as [|first rest]; split.
  - discriminate.
  - intros (f & r & H & _). discriminate.
  - intros [= <-]. eauto.
  - intros (f & r & [= <- <-] & ->). reflexivity.
Qed.

Lemma familyRecord_id (k : string) (ags : list Agent) (rec : ModelRecord) :
  familyRecord k ags = Some rec -> model_id rec = k.
Proof.
  intros H. apply familyRecord_Some in H as (f & r & _ & ->). reflexivity.
Qed.

Lemma family_head_series (k : string) (ags : list Agent) (first : Agent)
    (rest : list Agent) :
  filter (fun ag => seriesOf (fullNameOf ag) = k) ags = first :: rest ->
  seriesOf (fullNameOf first) = k.
Proof.
  intros H.
  assert (Hin : first ∈ filter (fun ag => seriesOf (fullNameOf ag) = k) ags)
    by (rewrite H; left).
  apply list_elem_of_filter in Hin as [Hk _]. exact Hk.
Qed.

(** ** Letter case *)

(** The two characters that [toLowerCase] sends to the small letter
    [small]. *)
Ltac lower_cases x :=
  destruct x as [[] [] [] [] [] [] [] []];
  (split; [intros H; first [discriminate H | auto]
          | intros [H|H]; first [discriminate H | reflexivity]]).

Lemma lowerAscii_c (x : ascii) :
  lowerAscii x = "c"%char <-> x = "c"%char \/ x = "C"%char.
Proof. lower_cases x. Qed.

Lemma lowerAscii_l (x : ascii) :
  lowerAscii x = "l"%char <-> x = "l"%char \/ x = "L"%char.
Proof. lower_cases x. Qed.

Lemma lowerAscii_a (x : ascii) :
  lowerAscii x = "a"%char <-> x = "a"%char \/ x = "A"%char.
Proof. lower_cases x. Qed.

Lemma lowerAscii_u (x : ascii) :
  lowerAscii x = "u"%char <-> x = "u"%char \/ x = "U"%char.
Proof. lower_cases x. Qed.

Lemma lowerAscii_d (x : ascii) :
  lowerAscii x = "d"%char <-> x = "d"%char \/ x = "D"%char.
Proof. lower_cases x. Qed.

Lemma lowerAscii_e (x : ascii) :
  lowerAscii x = "e"%char <-> x = "e"%char \/ x = "E"%char.
Proof. lower_cases x. Qed.

Lemma toLowerCase_app (s t : string) :
  toLowerCase (s +:+ t) = toLowerCase s +:+ toLowerCase t.
Proof.
  induction s as [|c s IH]; [reflexivity|].
  rewrite append_cons. cbn [toLowerCase]. rewrite append_cons, IH.
  reflexivity.
Qed.

Lemma toLowerCase_app_inv (s a b : string) :
  toLowerCase s = a +:+ b ->
  exists sa sb, s = sa +:+ sb /\ toLowerCase sa = a /\ toLowerCase sb = b.
Proof.
  revert s. induction a as [|c a IH]; intros s H.
  - exists "", s. auto.
  - destruct s as [|x s]; [discriminate|].
    rewrite append_cons in H. cbn [toLowerCase] in H.
    injection H as Hx Hs. destruct (IH s Hs) as (sa & sb & -> & Ha & Hb).
    exists (String x sa), sb. cbn [toLowerCase]. rewrite Ha, Hx. auto.
Qed.

(** The strings that [toLowerCase] sends to "claude": the word in any mix
    of small and capital letters. *)
Lemma toLowerCase_claude (mid : string) :
  toLowerCase mid = "claude" <->
  Forall2 (fun x letter => x = fst letter \/ x = snd letter)
    (String.list_ascii_of_string mid)
    [("c", "C"); ("l", "L"); ("a", "A"); ("u", "U"); ("d", "D"); ("e", "E")]%char.
Proof.
  split.
  - destruct mid as [|x1 [|x2 [|x3 [|x4 [|x5 [|x6 [|x7 mid]]]]]]];
      try discriminate.
    cbn [toLowerCase String.list_ascii_of_string]. intros [= H1 H2 H3 H4 H5 H6].
    apply lowerAscii_c in H1. apply lowerAscii_l in H2.
    apply lowerAscii_a in H3. apply lowerAscii_u in H4.
    apply lowerAscii_d in H5. apply lowerAscii_e in H6.
    repeat (constructor; [cbn [fst snd]; assumption|]). constructor.
  - intros H.
    destruct mid as [|x1 [|x2 [|x3 [|x4 [|x5 [|x6 [|x7 mid]]]]]]];
      cbn [String.list_ascii_of_string] in H;
      repeat match goal with
             | H : Forall2 _ _ _ |- _ => inversion H; clear H; subst
             end.
    cbn [fst snd] in *. cbn [toLowerCase].
    repeat match goal with
           | H : _ = _ \/ _ = _ |- _ => destruct H
           end; subst; reflexivity.
Qed.

(** [toLowerCase(s).includes("claude")], said without [toLowerCase]. *)
Lemma includes_claude (fullName : string) :
  includes "claude" (toLowerCase fullName) = true <->
  exists before mid rest,
    fullName = before +:+ mid +:+ rest /\
    Forall2 (fun x letter => x = fst letter \/ x = snd letter)
      (String.list_ascii_of_string mid)
      [("c", "C"); ("l", "L"); ("a", "A"); ("u", "U"); ("d", "D"); ("e", "E")]%char.
Proof.
  rewrite includes_iff. split.
  - intros (before & rest & H).
    apply toLowerCase_app_inv in H as (sa & sb & -> & _ & H).
    apply toLowerCase_app_inv in H as (mid & sc & -> & H & _).
    exists sa, mid, sc. split; [reflexivity|].
    apply toLowerCase_claude. exact H.
  - intros (before & mid & rest & -> & H).
    apply toLowerCase_claude in H.
    exists (toLowerCase before), (toLowerCase rest).
    rewrite !toLowerCase_app, H. reflexivity.
Qed.

(** C7. The catalog has one record per family, a family being the agents
    whose model name has the same first three hyphen-separated segments;
    the record's id is those segments joined by hyphens, its display name
    and full model name come from the first agent met for the family, and
    its agent list holds the ids of all agents of the family in order. Its
    owner is "anthropic" exactly when that full name holds, somewhere, the
    six letters of "claude" one after the other, each as a small or as a
    capital letter, and "openai" exactly when it does not. Two agents on
    "anthropic-claude-3-opus-v2" and "anthropic-claude-3-opus-v3" give one
    record with id "anthropic-claude-3" and both ids; an agent on
    "CLAUDE-Opus-4-1" gives a record owned by "anthropic". *)
Theorem aggregateModels_families :
  forall accs : list RetoolAccount,
    NoDup (map model_id (aggregateModels accs)) /\
    (forall rec,
       rec ∈ aggregateModels accs <->
       exists first rest,
         filter (fun ag => seriesOf (fullNameOf ag) = model_id rec)
           (allAgents accs) = first :: rest /\
         rec = mkModel (seriesOf (fullNameOf first)) (agent_name first)
                 (fullNameOf first) (ownerOf (fullNameOf first))
                 (map agent_id (first :: rest))) /\
    (forall fullName,
       seriesOf fullName = String.concat "-" (take 3 (splitHyphen fullName))) /\
    (forall fullName,
       let claudeInAnyCase :=
         exists before mid rest,
           fullName = before +:+ mid +:+ rest /\
           Forall2 (fun x letter => x = fst letter \/ x = snd letter)
             (String.list_ascii_of_string mid)
             [("c", "C"); ("l", "L"); ("a", "A");
              ("u", "U"); ("d", "D"); ("e", "E")]%char in
       (ownerOf fullName = "anthropic" <-> claudeInAnyCase) /\
       (ownerOf fullName = "openai" <-> ~ claudeInAnyCase)) /\
    ownerOf "Anthropic-CLAUDE-3-Opus" = "anthropic" /\
    ownerOf "my-Claude-like-model" = "anthropic" /\
    ownerOf "gpt-4o-mini" = "openai" /\
    aggregateModels [set_agents [opusV2; opusV3] accountA] =
      [mkModel "anthropic-claude-3" "Opus two" "anthropic-claude-3-opus-v2"
         "anthropic" ["agent-1"; "agent-2"]] /\
    aggregateModels
      [set_agents [mkAgent "agent-3" "Big" (Some "CLAUDE-Opus-4-1")] accountA] =
      [mkModel "CLAUDE-Opus-4" "Big" "CLAUDE-Opus-4-1" "anthropic" ["agent-3"]].
Proof.
  intros accs. unfold aggregateModels.
  destruct (aggregate_fold (allAgents accs)) as [Hnd Hinv].
  set (m := fold_left aggregateAgent (allAgents accs) []) in *.
  assert (Hkey : forall kv, kv ∈ m ->
            familyRecord (fst kv) (allAgents accs) = Some (snd kv)).
  { intros [k r] Hin. simpl. rewrite <- Hinv. apply mapGet_elem; assumption. }
  split; [|split; [|split; [reflexivity|split]]].
  4: { repeat split; vm_compute; reflexivity. }
  3: { intros fullName. cbv zeta. rewrite <- includes_claude. unfold ownerOf.
       destruct (includes "claude" (toLowerCase fullName)).
       - split; split; try reflexivity; try discriminate.
         intros H. exfalso. apply H. reflexivity.
       - split; split; try reflexivity; try discriminate. }
  - replace (map model_id (map snd m)) with (map fst m); [exact Hnd|].
    rewrite map_map. apply map_ext_in. intros kv Hin.
    apply list_elem_of_In in Hin. symmetry.
    eapply familyRecord_id. apply Hkey. exact Hin.
  - intros rec. split.
    + intros Hin. apply list_elem_of_fmap in Hin as ([k r] & -> & Hin).
      simpl. pose proof (Hkey _ Hin) as Hf. simpl in Hf.
      rewrite (familyRecord_id _ _ _ Hf).
      apply familyRecord_Some in Hf as (first & rest & Hfam & Hr).
      exists first, rest. split; [exact Hfam|].
      rewrite (family_head_series _ _ _ _ Hfam). exact Hr.
    + intros (first & rest & Hfam & Hr).
      assert (Hf : familyRecord (model_id rec) (allAgents accs) = Some rec).
      { apply familyRecord_Some. exists first, rest. split; [exact Hfam|].
        rewrite <- (family_head_series _ _ _ _ Hfam) at 1. exact Hr. }
      rewrite <- Hinv in Hf. apply mapGet_Some_elem in Hf.
      apply list_elem_of_fmap. exists (model_id rec, rec). auto.
Qed.

(** ** The statements at work on the small deployment *)


(** Among three candidates used last at times 500, 100 and 100, with 0, 2
    and 1 errors, the selector returns the third: it is one of the two
    least recently used and has fewer errors than the other. *)
Lemma getBestRetoolAccount_least_recently_used_witness :
  candidates 900000 "claude-sonnet-4" stateLru = [0; 1; 2]%nat /\
  candidates 900000 "claude-sonnet-4" stateLru <> [] /\
  fst (getBestRetoolAccount 900000 "claude-sonnet-4" stateLru) = Some 2%nat /\
  (last_used <$> RETOOL_ACCOUNTS stateLru) = [500; 100; 100] /\
  (error_count <$> RETOOL_ACCOUNTS stateLru) = [0; 2; 1] /\
  (last_used <$>
     RETOOL_ACCOUNTS (snd (getBestRetoolAccount 900000 "claude-sonnet-4"
                             stateLru))) = [500; 100; 900000] /\
  exists chosen acc,
    fst (getBestRetoolAccount 900000 "claude-sonnet-4" stateLru)
      = Some chosen /\
    chosen ∈ candidates 900000 "claude-sonnet-4" stateLru /\
    RETOOL_ACCOUNTS stateLru !! chosen = Some acc /\
    (forall j b, j ∈ candidates 900000 "claude-sonnet-4" stateLru ->
                 RETOOL_ACCOUNTS stateLru !! j = Some b -> lexLe acc b) /\
    last_used <$>
      RETOOL_ACCOUNTS (snd (getBestRetoolAccount 900000 "claude-sonnet-4"
                              stateLru))
        !! chosen
      = Some 900000 /\
    forall (e : RetoolError) (auth : bool),
      last_used <$>
        recordFailure chosen e auth
          (RETOOL_ACCOUNTS
             (snd (getBestRetoolAccount 900000 "claude-sonnet-4" stateLru)))
          !! chosen
      = Some 900000.
Proof.
  assert (Hne : candidates 900000 "claude-sonnet-4" stateLru <> [])
    by (vm_compute; discriminate).
  split; [vm_compute; reflexivity|]. split; [exact Hne|].
  split; [vm_compute; reflexivity|]. split; [reflexivity|].
  split; [reflexivity|]. split; [vm_compute; reflexivity|].
  exact (getBestRetoolAccount_least_recently_used 900000 "claude-sonnet-4"
           stateLru Hne).
Defined.

Lemma invalid_account_never_selected_witness :
  invalidAt 0 state401 /\
  invalidAt 0
    (runOperations state401
       [OpSelect 900000000 "claude-sonnet-4";
        OpChat (failingWorld 900000001 500) requestHi]) /\
  forall (now : Z) (modelId : string),
    (0%nat ∉ candidates now modelId
       (runOperations state401
          [OpSelect 900000000 "claude-sonnet-4";
           OpChat (failingWorld 900000001 500) requestHi])) /\
    fst (getBestRetoolAccount now modelId
           (runOperations state401
              [OpSelect 900000000 "claude-sonnet-4";
               OpChat (failingWorld 900000001 500) requestHi]))
    <> Some 0%nat.
Proof.
  assert (Hinv : invalidAt 0 state401).
  { eexists. split; [vm_compute; reflexivity|reflexivity]. }
  split; [exact Hinv|].
  exact (invalid_account_never_selected state401 0%nat
           [OpSelect 900000000 "claude-sonnet-4";
            OpChat (failingWorld 900000001 500) requestHi] Hinv).
Defined.


(** * Further properties of the code *)

(** ** The selector, continued *)

Lemma filterCandidates_none (now : Z) (allowed : list string) (i : nat)
    (accs : list RetoolAccount) :
  fst (filterCandidates now allowed i accs) = [] ->
  snd (filterCandidates now allowed i accs) = accs.
Proof.
  revert i. induction accs as [|acc rest IH]; intros i; [reflexivity|].
  simpl. specialize (IH (S i)).
  destruct (filterCandidates now allowed (S i) rest) as [kept rest'].
  destruct (candidateAgent now allowed acc); simpl; [discriminate|].
  intros Hk. simpl in IH. rewrite (IH Hk). reflexivity.
Qed.

(** X1. When no account is a candidate (unknown model, or every account
    invalid, quarantined or without a serving agent) the selector returns
    nothing and leaves the state exactly as it was. *)
Theorem getBestRetoolAccount_none_unchanged :
  forall (now : Z) (modelId : string) (st : State),
    candidates now modelId st = [] ->
    getBestRetoolAccount now modelId st = (None, st).
Proof.
  intros now modelId st. unfold candidates, getBestRetoolAccount.
  destruct (findModel modelId (AVAILABLE_MODELS st)) as [record|];
    [|reflexivity].
  pose proof (filterCandidates_none now (model_agents record) 0%nat
                (RETOOL_ACCOUNTS st)) as Hnone.
  destruct (filterCandidates now (model_agents record) 0 (RETOOL_ACCOUNTS st))
    as [kept accs]. simpl in *. intros ->. simpl.
  rewrite (Hnone eq_refl). destruct st; reflexivity.
Qed.

Lemma getBestRetoolAccount_none_unchanged_witness :
  candidates 100000 "claude-sonnet-4" stateQ = [] /\
  getBestRetoolAccount 100000 "claude-sonnet-4" stateQ = (None, stateQ).
Proof.
  assert (H : candidates 100000 "claude-sonnet-4" stateQ = [])
    by (vm_compute; reflexivity).
  split; [exact H|].
  exact (getBestRetoolAccount_none_unchanged 100000 "claude-sonnet-4" stateQ H).
Defined.

Lemma find_first {A : Type} (f : A -> bool) (l : list A) (x : A) :
  find f l = Some x ->
  exists pre post,
    l = pre ++ x :: post /\ f x = true /\ Forall (fun y => f y = false) pre.
Proof.
  induction l as [|y l IH]; simpl; [discriminate|].
  destruct (f y) eqn:Hy.
  - intros [= ->]. exists [], l. auto.
  - intros H. destruct (IH H) as (pre & post & -> & Hx & Hpre).
    exists (y :: pre), post. auto.
Qed.

(** X2. The account the selector returns has its [selected_agent_id] set
    to the id of the first of its own agents, in their stored order, whose
    id is in the model's agent list. *)
Theorem getBestRetoolAccount_selected_agent :
  forall (now : Z) (modelId : string) (st : State) (chosen : nat),
    fst (getBestRetoolAccount now modelId st) = Some chosen ->
    exists record acc acc' pre ag post,
      findModel modelId (AVAILABLE_MODELS st) = Some record /\
      RETOOL_ACCOUNTS st !! chosen = Some acc /\
      RETOOL_ACCOUNTS (snd (getBestRetoolAccount now modelId st)) !! chosen
        = Some acc' /\
      selected_agent_id acc' = Some (agent_id ag) /\
      agents acc' = agents acc /\
      agents acc = pre ++ ag :: post /\
      agent_id ag ∈ model_agents record /\
      Forall (fun a => agent_id a ∉ model_agents record) pre.
Proof.
  intros now modelId st chosen Hc.
  destruct (getBestRetoolAccount_Some now modelId st chosen Hc)
    as (Hin & acc & Hacc & _).
  apply candidates_iff in Hin as (record & a & Hrec & Ha & Hs).
  rewrite Hacc in Ha. injection Ha as <-.
  revert Hc. unfold getBestRetoolAccount. rewrite Hrec.
  pose proof (filterCandidates_snd now (model_agents record) 0
                (RETOOL_ACCOUNTS st)) as Hsnd.
  destruct (filterCandidates now (model_agents record) 0 (RETOOL_ACCOUNTS st))
    as [kept accs]. simpl in Hsnd. subst accs.
  destruct (sortBy _ kept) as [|c t]; [discriminate|].
  cbn [fst snd RETOOL_ACCOUNTS]. intros [= ->].
  destruct Hs as [aid Haid].
  assert (Haf : afterFilter now (model_agents record) acc
                = set_selected_agent_id aid acc)
    by (unfold afterFilter; rewrite Haid; reflexivity).
  unfold candidateAgent in Haid.
  destruct (negb (is_valid acc)); [discriminate|].
  destruct (_ && _); [discriminate|].
  destruct (find _ (agents acc)) as [ag|] eqn:Hf; [|discriminate].
  injection Haid as <-.
  apply find_first in Hf as (pre & post & Hsplit & Hag & Hpre).
  exists record, acc,
    (set_last_used now (set_selected_agent_id (agent_id ag) acc)),
    pre, ag, post.
  split; [reflexivity|]. split; [exact Hacc|]. split.
  { rewrite list_lookup_alter_eq, list_lookup_fmap, Hacc. simpl.
    rewrite Haf. reflexivity. }
  split; [reflexivity|]. split; [reflexivity|]. split; [exact Hsplit|].
  split; [apply includesId_iff; exact Hag|].
  eapply Forall_impl; [exact Hpre|]. simpl. intros a Ha Hin.
  apply includesId_iff in Hin. congruence.
Qed.

(** On an account whose agents are, in order, one on "gpt-4o-mini" and
    one on the requested model, the selector passes over the first and
    stores the id of the second. *)
Lemma getBestRetoolAccount_selected_agent_witness :
  fst (getBestRetoolAccount 1000 "claude-sonnet-4" stateMixed) = Some 0%nat /\
  (agents <$> RETOOL_ACCOUNTS stateMixed !! 0%nat) = Some [agentG; agentA] /\
  (selected_agent_id <$>
     RETOOL_ACCOUNTS (snd (getBestRetoolAccount 1000 "claude-sonnet-4"
                             stateMixed)) !! 0%nat) = Some (Some "a1") /\
  exists record acc acc' pre ag post,
    findModel "claude-sonnet-4" (AVAILABLE_MODELS stateMixed) = Some record /\
    RETOOL_ACCOUNTS stateMixed !! 0%nat = Some acc /\
    RETOOL_ACCOUNTS (snd (getBestRetoolAccount 1000 "claude-sonnet-4"
                            stateMixed))
      !! 0%nat = Some acc' /\
    selected_agent_id acc' = Some (agent_id ag) /\
    agents acc' = agents acc /\
    agents acc = pre ++ ag :: post /\
    agent_id ag ∈ model_agents record /\
    Forall (fun a => agent_id a ∉ model_agents record) pre.
Proof.
  assert (H : fst (getBestRetoolAccount 1000 "claude-sonnet-4" stateMixed)
              = Some 0%nat) by (vm_compute; reflexivity).
  split; [exact H|]. split; [vm_compute; reflexivity|].
  split; [vm_compute; reflexivity|].
  exact (getBestRetoolAccount_selected_agent 1000 "claude-sonnet-4" stateMixed
           0%nat H).
Defined.

Lemma sortBy_first {A : Type} (cmp : A -> A -> Z) (l : list A) (h : A)
    (t : list A) :
  sortBy cmp l = h :: t ->
  exists pre post, l = pre ++ h :: post /\ Forall (fun x => 0 < cmp x h) pre.
Proof.
  revert h t. induction l as [|x l IH]; intros h t Hs; [discriminate|].
  simpl in Hs. destruct (sortBy cmp l) as [|h' t'] eqn:Hl.
  - apply sortBy_nil in Hl. subst l. simpl in Hs. injection Hs as <- <-.
    exists [], []. auto.
  - simpl in Hs. destruct (Z.leb_spec (cmp x h') 0) as [Hle|Hgt].
    + injection Hs as <- <-. exists [], l. auto.
    + injection Hs as <- <-.
      destruct (IH h' t' eq_refl) as (pre & post & -> & Hpre).
      exists (x :: pre), post. auto.
Qed.

(** The positions kept by the filter come in increasing order. *)
Lemma filterCandidates_before (now : Z) (allowed : list string) (i : nat)
    (accs : list RetoolAccount) (pre : list nat) (c : nat) (post : list nat) :
  fst (filterCandidates now allowed i accs) = pre ++ c :: post ->
  Forall (fun j => (j < c)%nat) pre /\ (i <= c)%nat.
Proof.
  revert i pre. induction accs as [|acc rest IH]; intros i pre.
  - simpl. intros H. destruct pre; discriminate.
  - simpl. specialize (IH (S i)).
    destruct (filterCandidates now allowed (S i) rest) as [kept rest'].
    simpl in IH. destruct (candidateAgent now allowed acc); simpl.
    + destruct pre as [|p pre]; simpl; intros [= <- Hk].
      * split; [constructor|lia].
      * destruct (IH pre Hk) as [Hpre Hle]. split; [|lia].
        constructor; [lia|exact Hpre].
    + intros Hk. destruct (IH pre Hk) as [Hpre Hle]. split; [exact Hpre|lia].
Qed.

(** X3. Ties are broken by position: every candidate that stands before the
    returned account in the registry is strictly behind it in the order on
    (last_used, error_count), so the selector returns the first of the
    least candidates. *)
Theorem getBestRetoolAccount_first_of_least :
  forall (now : Z) (modelId : string) (st : State) (chosen : nat)
         (acc : RetoolAccount),
    fst (getBestRetoolAccount now modelId st) = Some chosen ->
    RETOOL_ACCOUNTS st !! chosen = Some acc ->
    forall j b,
      j ∈ candidates now modelId st -> (j < chosen)%nat ->
      RETOOL_ACCOUNTS st !! j = Some b ->
      ~ lexLe b acc.
Proof.
  intros now modelId st chosen acc Hc Hacc j b Hj Hlt Hb.
  revert Hc Hj. unfold getBestRetoolAccount, candidates.
  destruct (findModel modelId (AVAILABLE_MODELS st)) as [record|];
    [|discriminate].
  pose proof (filterCandidates_snd now (model_agents record) 0
                (RETOOL_ACCOUNTS st)) as Hsnd.
  pose proof (filterCandidates_before now (model_agents record) 0
                (RETOOL_ACCOUNTS st)) as Hbefore.
  destruct (filterCandidates now (model_agents record) 0 (RETOOL_ACCOUNTS st))
    as [kept accs]. simpl in Hsnd, Hbefore. subst accs.
  destruct (sortBy _ kept) as [|c t] eqn:Hs; [discriminate|].
  simpl. intros [= ->] Hj.
  apply sortBy_first in Hs as (pre & post & -> & Hpre).
  assert (Hjpre : j ∈ pre).
  { apply elem_of_app in Hj as [Hj|Hj]; [exact Hj|].
    apply elem_of_cons in Hj as [->|Hj]; [lia|].
    apply list_elem_of_split in Hj as (post1 & post2 & ->).
    destruct (Hbefore (pre ++ chosen :: post1) j post2) as [Hall _].
    { rewrite <- app_assoc. reflexivity. }
    apply Forall_app in Hall as [_ Hall].
    apply Forall_cons in Hall as [Hcj _]. lia. }
  eapply Forall_forall in Hpre; [|exact Hjpre].
  unfold compareAt in Hpre.
  rewrite !list_lookup_fmap, Hb, Hacc in Hpre. simpl in Hpre.
  intros Hle. apply compareAccounts_le in Hle.
  unfold compareAccounts in *.
  destruct (afterFilter_fields now (model_agents record) acc)
    as (_ & E1 & E2 & _).
  destruct (afterFilter_fields now (model_agents record) b)
    as (_ & E3 & E4 & _).
  rewrite E1, E2, E3, E4 in Hpre. lia.
Qed.

Lemma getBestRetoolAccount_first_of_least_witness :
  fst (getBestRetoolAccount 2000 "claude-sonnet-4" stateTwoSelected)
    = Some 1%nat /\
  RETOOL_ACCOUNTS stateTwoSelected !! 1%nat
    = Some accountBSeen /\
  forall j b,
    j ∈ candidates 2000 "claude-sonnet-4" stateTwoSelected -> (j < 1)%nat ->
    RETOOL_ACCOUNTS stateTwoSelected !! j = Some b ->
    ~ lexLe b accountBSeen.
Proof.
  assert (H : fst (getBestRetoolAccount 2000 "claude-sonnet-4" stateTwoSelected)
              = Some 1%nat) by (vm_compute; reflexivity).
  assert (Ha : RETOOL_ACCOUNTS stateTwoSelected !! 1%nat
               = Some accountBSeen)
    by (vm_compute; reflexivity).
  split; [exact H|]. split; [exact Ha|].
  exact (getBestRetoolAccount_first_of_least 2000 "claude-sonnet-4"
           stateTwoSelected 1%nat accountBSeen H Ha).
Defined.

(** X4. Selecting an account that has three or more errors starts its
    quarantine anew: in the state the selector leaves, and for every model,
    the account is no candidate at any time less than 300000 ms after the
    selection, whether or not the attempt that follows fails. *)
Theorem getBestRetoolAccount_rearms_quarantine :
  forall (now : Z) (modelId : string) (st : State) (chosen : nat)
         (acc : RetoolAccount),
    fst (getBestRetoolAccount now modelId st) = Some chosen ->
    RETOOL_ACCOUNTS st !! chosen = Some acc ->
    3 <= error_count acc ->
    forall (later : Z) (otherModel : string),
      later - now < 300000 ->
      chosen ∉ candidates later otherModel
                 (snd (getBestRetoolAccount now modelId st)).
Proof.
  intros now modelId st chosen acc Hc Hacc Herr later otherModel Hlater Hin.
  destruct (getBestRetoolAccount_accounts now modelId st) as (_ & _ & Hst).
  destruct (Hst chosen acc Hacc) as (a' & Ha' & _ & He & _ & _ & Hlu).
  rewrite decide_True in Hlu by exact Hc.
  apply candidates_iff in Hin as (record & a & _ & Ha & Hs).
  rewrite Ha' in Ha. injection Ha as <-.
  apply candidateAgent_is_Some in Hs as (_ & Hq & _).
  apply Hq. split; lia.
Qed.

Lemma getBestRetoolAccount_rearms_quarantine_witness :
  fst (getBestRetoolAccount 350000 "claude-sonnet-4" stateQ) = Some 0%nat /\
  RETOOL_ACCOUNTS stateQ !! 0%nat = Some accountQ /\
  3 <= error_count accountQ /\
  forall (later : Z) (otherModel : string),
    later - 350000 < 300000 ->
    0%nat ∉ candidates later otherModel
              (snd (getBestRetoolAccount 350000 "claude-sonnet-4" stateQ)).
Proof.
  assert (H : fst (getBestRetoolAccount 350000 "claude-sonnet-4" stateQ)
              = Some 0%nat) by (vm_compute; reflexivity).
  assert (He : 3 <= error_count accountQ) by (simpl; lia).
  split; [exact H|]. split; [reflexivity|]. split; [exact He|].
  exact (getBestRetoolAccount_rearms_quarantine 350000 "claude-sonnet-4"
           stateQ 0%nat accountQ H eq_refl He).
Defined.

(** X5. Round robin: once an account has been returned at time [now], the
    next call of the selector returns another account whenever it has a
    candidate that was last used before [now]. *)
Theorem getBestRetoolAccount_rotates :
  forall (now : Z) (modelId : string) (st : State) (chosen : nat)
         (later : Z) (otherModel : string) (j : nat) (b : RetoolAccount),
    fst (getBestRetoolAccount now modelId st) = Some chosen ->
    j ∈ candidates later otherModel
          (snd (getBestRetoolAccount now modelId st)) ->
    RETOOL_ACCOUNTS (snd (getBestRetoolAccount now modelId st)) !! j
      = Some b ->
    last_used b < now ->
    exists next,
      fst (getBestRetoolAccount later otherModel
             (snd (getBestRetoolAccount now modelId st))) = Some next /\
      next <> chosen.
Proof.
  intros now modelId st chosen later otherModel j b Hc Hj Hb Hold.
  set (st' := snd (getBestRetoolAccount now modelId st)) in *.
  destruct (getBestRetoolAccount_nonempty later otherModel st') as [next Hn].
  { intros Hnil. rewrite Hnil in Hj. apply elem_of_nil in Hj. exact Hj. }
  exists next. split; [exact Hn|]. intros ->.
  destruct (getBestRetoolAccount_Some later otherModel st' chosen Hn)
    as (_ & acc' & Hacc' & Hmin).
  specialize (Hmin j b Hj Hb).
  destruct (getBestRetoolAccount_Some now modelId st chosen Hc)
    as (_ & acc & Hacc & _).
  destruct (getBestRetoolAccount_accounts now modelId st) as (_ & _ & Hst).
  destruct (Hst chosen acc Hacc) as (a' & Ha' & _ & _ & _ & _ & Hlu).
  rewrite decide_True in Hlu by exact Hc.
  fold st' in Ha'. rewrite Hacc' in Ha'. injection Ha' as <-.
  unfold lexLe in Hmin. lia.
Qed.

Lemma getBestRetoolAccount_rotates_witness :
  fst (getBestRetoolAccount 1000 "claude-sonnet-4" stateTwo) = Some 0%nat /\
  1%nat ∈ candidates 1001 "claude-sonnet-4" stateTwoSelected /\
  RETOOL_ACCOUNTS stateTwoSelected !! 1%nat
    = Some accountBSeen /\
  last_used accountBSeen < 1000 /\
  exists next,
    fst (getBestRetoolAccount 1001 "claude-sonnet-4" stateTwoSelected)
      = Some next /\
    next <> 0%nat.
Proof.
  assert (H : fst (getBestRetoolAccount 1000 "claude-sonnet-4" stateTwo)
              = Some 0%nat) by (vm_compute; reflexivity).
  assert (Hj : 1%nat ∈ candidates 1001 "claude-sonnet-4" stateTwoSelected).
  { replace (candidates 1001 "claude-sonnet-4" stateTwoSelected)
      with [0%nat; 1%nat] by (vm_compute; reflexivity).
    right. left. }
  assert (Hb : RETOOL_ACCOUNTS stateTwoSelected !! 1%nat
               = Some accountBSeen)
    by (vm_compute; reflexivity).
  assert (Hold : last_used accountBSeen < 1000)
    by (simpl; lia).
  split; [exact H|]. split; [exact Hj|]. split; [exact Hb|].
  split; [exact Hold|].
  exact (getBestRetoolAccount_rotates 1000 "claude-sonnet-4" stateTwo 0%nat
           1001 "claude-sonnet-4" 1%nat accountBSeen
           H Hj Hb Hold).
Defined.

(** ** The registry over time *)

Section Pointwise.
Context (R : RetoolAccount -> RetoolAccount -> Prop).
Hypothesis R_refl : forall a, R a a.
Hypothesis R_trans : forall a b c, R a b -> R b c -> R a c.

Lemma pointwise_refl (l : list RetoolAccount) : Forall2 R l l.
Proof. induction l; constructor; auto. Qed.

Lemma pointwise_trans (l1 l2 l3 : list RetoolAccount) :
  Forall2 R l1 l2 -> Forall2 R l2 l3 -> Forall2 R l1 l3.
Proof.
  intros H12. revert l3. induction H12 as [|a b l1 l2 Hab _ IH]; intros l3 H23.
  - inversion H23. constructor.
  - inversion H23 as [|b' c l2' l3' Hbc Hrest]; subst.
    constructor; [eapply R_trans; eauto|apply IH; exact Hrest].
Qed.

Lemma pointwise_map (f : RetoolAccount -> RetoolAccount)
    (l : list RetoolAccount) :
  (forall a, R a (f a)) -> Forall2 R l (map f l).
Proof. intros Hf. induction l; simpl; constructor; auto. Qed.

Lemma pointwise_alter (f : RetoolAccount -> RetoolAccount) (i : nat)
    (l : list RetoolAccount) :
  (forall a, R a (f a)) -> Forall2 R l (alter f i l).
Proof.
  intros Hf. revert i. induction l as [|a l IH]; intros i; [constructor|].
  destruct i as [|i]; simpl.
  - constructor; [apply Hf|apply pointwise_refl].
  - constructor; [apply R_refl|apply IH].
Qed.
End Pointwise.

Lemma evolves_refl (a : RetoolAccount) : evolves a a.
Proof. unfold evolves. repeat split; lia. Qed.

Lemma evolves_trans (a b c : RetoolAccount) :
  evolves a b -> evolves b c -> evolves a c.
Proof. unfold evolves. intros (? & ? & ? & ?) (? & ? & ? & ?).
  repeat split; try congruence. lia. Qed.

Lemma steady_refl (a : RetoolAccount) : steady a a.
Proof. split; [apply evolves_refl|reflexivity]. Qed.

Lemma steady_trans (a b c : RetoolAccount) :
  steady a b -> steady b c -> steady a c.
Proof.
  intros [H1 E1] [H2 E2]. split; [eapply evolves_trans; eauto|congruence].
Qed.

Lemma afterFilter_steady (now : Z) (allowed : list string) (a : RetoolAccount) :
  steady a (afterFilter now allowed a).
Proof.
  unfold afterFilter.
  destruct (candidateAgent now allowed a); [|apply steady_refl].
  unfold steady, evolves. simpl. repeat split; lia.
Qed.

Lemma getBestRetoolAccount_steady (now : Z) (modelId : string) (st : State) :
  Forall2 steady (RETOOL_ACCOUNTS st)
    (RETOOL_ACCOUNTS (snd (getBestRetoolAccount now modelId st))).
Proof.
  unfold getBestRetoolAccount.
  destruct (findModel modelId (AVAILABLE_MODELS st)) as [record|];
    [|apply pointwise_refl, steady_refl].
  pose proof (filterCandidates_snd now (model_agents record) 0
                (RETOOL_ACCOUNTS st)) as Hsnd.
  destruct (filterCandidates now (model_agents record) 0 (RETOOL_ACCOUNTS st))
    as [kept accs]. simpl in Hsnd. subst accs.
  assert (Hmap : Forall2 steady (RETOOL_ACCOUNTS st)
            (map (afterFilter now (model_agents record)) (RETOOL_ACCOUNTS st)))
    by (apply pointwise_map, afterFilter_steady).
  destruct (sortBy _ kept) as [|chosen t]; simpl; [exact Hmap|].
  eapply (pointwise_trans steady steady_trans); [exact Hmap|].
  apply (pointwise_alter steady steady_refl).
  intros a. unfold steady, evolves. simpl. repeat split; lia.
Qed.

Lemma recordFailure_steady (i : nat) (e : RetoolError) (auth : bool)
    (accs : list RetoolAccount) :
  Forall2 steady accs (recordFailure i e auth accs).
Proof.
  unfold recordFailure.
  assert (H1 : Forall2 steady accs
            (alter (fun a => set_error_count (error_count a + 1) a) i accs)).
  { apply (pointwise_alter steady steady_refl).
    intros a. unfold steady, evolves. simpl. repeat split; lia. }
  destruct auth; [|exact H1].
  eapply (pointwise_trans steady steady_trans); [exact H1|].
  apply (pointwise_alter steady steady_refl).
  intros a. unfold steady, evolves. simpl. repeat split; lia.
Qed.

Lemma retryLoop_steady (world : nat -> Attempt) (body : ChatCompletionRequest)
    (remaining attempt : nat) (ls : LoopState) :
  Forall2 steady (RETOOL_ACCOUNTS (loop_state ls))
    (RETOOL_ACCOUNTS
       (loop_state (snd (retryLoop world body remaining attempt ls)))).
Proof.
  revert attempt ls. induction remaining as [|remaining IH];
    intros attempt ls; [apply pointwise_refl, steady_refl|].
  simpl.
  pose proof (getBestRetoolAccount_steady (attempt_now (world attempt))
                (req_model body) (loop_state ls)) as Hsel.
  destruct (getBestRetoolAccount _ _ (loop_state ls)) as [[chosen|] st1];
    simpl in Hsel; [|exact Hsel].
  destruct (attempt_outcome (world attempt)) as [txt|e|msg]; [exact Hsel| |].
  all: eapply (pointwise_trans steady steady_trans); [exact Hsel|].
  all: eapply (pointwise_trans steady steady_trans); [|apply IH].
  all: apply recordFailure_steady.
Qed.

Lemma chatCompletions_steady (world : nat -> Attempt)
    (body : ChatCompletionRequest) (st : State) :
  Forall2 steady (RETOOL_ACCOUNTS st)
    (RETOOL_ACCOUNTS (loop_state (snd (chatCompletions world body st)))).
Proof.
  unfold chatCompletions.
  destruct (req_messages body); [apply pointwise_refl, steady_refl|].
  destruct (findModel _ _); [|apply pointwise_refl, steady_refl].
  pose proof (retryLoop_steady world body (length (RETOOL_ACCOUNTS st)) 0
                (mkLoop st 0 [] [])) as H.
  destruct (retryLoop _ _ _ _ _) as [[resp|] ls]; exact H.
Qed.

Lemma discoverAccounts_evolves (accs : list RetoolAccount)
    (answers : list (Fetched (list Agent) * string)) :
  Forall2 evolves accs (discoverAccounts accs answers).
Proof.
  revert answers. induction accs as [|acc accs IH]; intros answers;
    [constructor|].
  simpl. destruct (match answers with [] => _ | p :: _ => p end) as [f stamp].
  constructor; [|apply IH].
  unfold discoverAccount.
  destruct (retoolQueryAgents acc f stamp) as [ags|e|msg];
    unfold evolves; simpl; try (repeat split; lia).
  destruct (isAuthStatus (statusCode e)); simpl; repeat split; lia.
Qed.

Lemma runOperation_evolves (st : State) (o : Operation) :
  Forall2 evolves (RETOOL_ACCOUNTS st) (RETOOL_ACCOUNTS (runOperation st o)).
Proof.
  destruct o as [answers|world body|now modelId]; simpl.
  - apply discoverAccounts_evolves.
  - eapply Forall2_impl; [apply chatCompletions_steady|]. intros a a' [H _].
    exact H.
  - eapply Forall2_impl; [apply getBestRetoolAccount_steady|].
    intros a a' [H _]. exact H.
Qed.

(** X6. Whatever the process does (discovery, chat requests with any
    upstream behaviour, selector calls), the registry keeps its accounts
    in place: the same number, in the same order, each with the domain and
    credentials it was configured with, and with an error count that never
    goes down; nothing resets it, a success included. *)
Theorem registry_evolves :
  forall (st : State) (ops : list Operation),
    Forall2 evolves (RETOOL_ACCOUNTS st)
      (RETOOL_ACCOUNTS (runOperations st ops)).
Proof.
  intros st ops. revert st. induction ops as [|o ops IH]; intros st.
  - apply pointwise_refl, evolves_refl.
  - simpl. eapply (pointwise_trans evolves evolves_trans);
      [apply runOperation_evolves|apply IH].
Qed.

(** ** The retry loop, continued *)

Lemma occurrences_nil (i : nat) : occurrences i [] = 0.
Proof. reflexivity. Qed.

Lemma occurrences_cons (i c : nat) (l : list nat) :
  occurrences i (c :: l) =
  (if decide (c = i) then 1 else 0) + occurrences i l.
Proof.
  unfold occurrences. rewrite filter_cons.
  destruct (decide (c = i)); simpl length; lia.
Qed.

Lemma recordFailure_count (c : nat) (e : RetoolError) (auth : bool)
    (accs : list RetoolAccount) (i : nat) (a : RetoolAccount) :
  accs !! i = Some a ->
  exists a',
    recordFailure c e auth accs !! i = Some a' /\
    error_count a' = error_count a + (if decide (c = i) then 1 else 0).
Proof.
  intros Ha. unfold recordFailure.
  destruct (decide (c = i)) as [->|Hne].
  - destruct auth; eexists; rewrite !list_lookup_alter_eq, Ha; simpl;
      split; reflexivity.
  - exists a. destruct auth; rewrite !list_lookup_alter_ne by exact Hne;
      split; auto; lia.
Qed.

(** What one run of the retry loop adds to its variables: the failed
    attempts [failed] with their errors [errs], and the successful last
    attempt [last], if any. *)
Lemma retryLoop_trace (world : nat -> Attempt) (body : ChatCompletionRequest)
    (remaining attempt : nat) (ls : LoopState) :
  exists failed errs last,
    tried (snd (retryLoop world body remaining attempt ls))
      = tried ls ++ failed ++ last /\
    collectedErrors (snd (retryLoop world body remaining attempt ls))
      = collectedErrors ls ++ errs /\
    length errs = length failed /\
    (fst (retryLoop world body remaining attempt ls) = None -> last = []) /\
    (forall resp,
       fst (retryLoop world body remaining attempt ls) = Some resp ->
       isCompletion resp = true /\ exists c, last = [c]) /\
    (forall i a,
       RETOOL_ACCOUNTS (loop_state ls) !! i = Some a ->
       exists a',
         RETOOL_ACCOUNTS
           (loop_state (snd (retryLoop world body remaining attempt ls))) !! i
           = Some a' /\
         error_count a' = error_count a + occurrences i failed) /\
    (forall i, invalidAt i (loop_state ls) -> i ∉ failed ++ last) /\
    (forall k i e,
       failed !! k = Some i -> errs !! k = Some e ->
       isAuthStatus (statusCode e) = true ->
       forall k', (k < k')%nat -> (failed ++ last) !! k' <> Some i).
Proof.
  revert attempt ls. induction remaining as [|remaining IH]; intros attempt ls.
  { exists [], [], []. simpl. rewrite !app_nil_r.
    repeat split; auto; try discriminate.
    - intros i a Ha. exists a. rewrite occurrences_nil. split; [auto|lia].
    - intros i _ Hin. apply elem_of_nil in Hin. exact Hin. }
  simpl.
  pose proof (getBestRetoolAccount_in_range (attempt_now (world attempt))
                (req_model body) (loop_state ls)) as Hrange.
  pose proof (getBestRetoolAccount_skips_invalid (attempt_now (world attempt))
                (req_model body) (loop_state ls)) as Hskip.
  pose proof (fun i => getBestRetoolAccount_invalid (attempt_now (world attempt))
                (req_model body) (loop_state ls) i) as Hinv.
  destruct (getBestRetoolAccount_accounts (attempt_now (world attempt))
              (req_model body) (loop_state ls)) as (_ & Hlen & Hacc).
  destruct (getBestRetoolAccount _ _ (loop_state ls)) as [[chosen|] st1];
    simpl in Hrange, Hskip, Hinv, Hlen, Hacc.
  2: { exists [], [], []. simpl. rewrite !app_nil_r.
       repeat split; auto; try discriminate.
       - intros i a Ha. destruct (Hacc i a Ha) as (a' & Ha' & _ & He & _).
         exists a'. rewrite occurrences_nil. split; [auto|lia].
       - intros i _ Hin. apply elem_of_nil in Hin. exact Hin. }
  specialize (Hrange chosen eq_refl).
  assert (Hfail : forall e,
    let ls2 := mkLoop
      (mkState (recordFailure chosen e (isAuthStatus (statusCode e))
                  (RETOOL_ACCOUNTS st1)) (AVAILABLE_MODELS st1))
      (attemptCount ls + 1) (collectedErrors ls ++ [e]) (tried ls ++ [chosen])
    in
    exists failed errs last,
      tried (snd (retryLoop world body remaining (S attempt) ls2))
        = tried ls ++ failed ++ last /\
      collectedErrors (snd (retryLoop world body remaining (S attempt) ls2))
        = collectedErrors ls ++ errs /\
      length errs = length failed /\
      (fst (retryLoop world body remaining (S attempt) ls2) = None ->
       last = []) /\
      (forall resp,
         fst (retryLoop world body remaining (S attempt) ls2) = Some resp ->
         isCompletion resp = true /\ exists c, last = [c]) /\
      (forall i a,
         RETOOL_ACCOUNTS (loop_state ls) !! i = Some a ->
         exists a',
           RETOOL_ACCOUNTS
             (loop_state (snd (retryLoop world body remaining (S attempt) ls2)))
             !! i = Some a' /\
           error_count a' = error_count a + occurrences i failed) /\
      (forall i, invalidAt i (loop_state ls) -> i ∉ failed ++ last) /\
      (forall k i e0,
         failed !! k = Some i -> errs !! k = Some e0 ->
         isAuthStatus (statusCode e0) = true ->
         forall k', (k < k')%nat -> (failed ++ last) !! k' <> Some i)).
  { intros e ls2.
    destruct (IH (S attempt) ls2)
      as (failed & errs & last & Ht & Hc & Hl & Hnone & Hsome & Hcount
            & Hinvalid & Hauth).
    exists (chosen :: failed), (e :: errs), last.
    split; [rewrite Ht; simpl; rewrite <- app_assoc; reflexivity|].
    split; [rewrite Hc; simpl; rewrite <- app_assoc; reflexivity|].
    split; [simpl; lia|]. split; [exact Hnone|]. split; [exact Hsome|].
    split; [|split].
    - intros i a Ha. destruct (Hacc i a Ha) as (a1 & Ha1 & _ & He1 & _).
      destruct (recordFailure_count chosen e (isAuthStatus (statusCode e))
                  _ i a1 Ha1) as (a2 & Ha2 & He2).
      destruct (Hcount i a2 Ha2) as (a' & Ha' & He').
      exists a'. split; [exact Ha'|]. rewrite occurrences_cons. lia.
    - intros i Hi. simpl. apply not_elem_of_cons. split.
      + intros ->. exact (Hskip chosen Hi eq_refl).
      + apply Hinvalid. apply recordFailure_invalid. apply Hinv. exact Hi.
    - intros k i e0 Hk He0 Ha k' Hlt.
      destruct k' as [|k']; [lia|]. simpl.
      destruct k as [|k]; simpl in Hk, He0.
      + injection Hk as <-. injection He0 as <-.
        assert (Hnot : chosen ∉ failed ++ last).
        { apply Hinvalid. unfold invalidAt, ls2. simpl. rewrite Ha.
          apply recordFailure_auth. lia. }
        intros Hin. apply Hnot. eapply list_elem_of_lookup_2. exact Hin.
      + apply (Hauth k i e0 Hk He0 Ha). lia. }
  destruct (attempt_outcome (world attempt)) as [txt|e|msg].
  - exists [], [], [chosen]. simpl. rewrite !app_nil_r.
    split; [reflexivity|]. split; [reflexivity|]. split; [reflexivity|].
    split; [discriminate|]. split; [|split; [|split]].
    + intros resp [= <-]. split; [|eauto].
      destruct (req_stream body); reflexivity.
    + intros i a Ha. destruct (Hacc i a Ha) as (a' & Ha' & _ & He & _).
      exists a'. rewrite occurrences_nil. split; [auto|lia].
    + intros i Hi Hin. apply list_elem_of_singleton in Hin. subst i.
      exact (Hskip chosen Hi eq_refl).
    + intros k i e0 Hk. discriminate.
  - exact (Hfail e).
  - exact (Hfail (createRetoolError message_send
                    (default "" (domain_name <$> RETOOL_ACCOUNTS st1 !! chosen))
                    msg None (attempt_stamp (world attempt)))).
Qed.

Lemma chatCompletions_trace (world : nat -> Attempt)
    (body : ChatCompletionRequest) (st : State) :
  exists failed errs last,
    tried (snd (chatCompletions world body st)) = failed ++ last /\
    collectedErrors (snd (chatCompletions world body st)) = errs /\
    length errs = length failed /\
    failedTried (fst (chatCompletions world body st))
      (snd (chatCompletions world body st)) = failed /\
    (forall i a,
       RETOOL_ACCOUNTS st !! i = Some a ->
       exists a',
         RETOOL_ACCOUNTS (loop_state (snd (chatCompletions world body st))) !! i
           = Some a' /\
         error_count a' = error_count a + occurrences i failed) /\
    (forall i, invalidAt i st -> i ∉ failed ++ last) /\
    (forall k i e,
       failed !! k = Some i -> errs !! k = Some e ->
       isAuthStatus (statusCode e) = true ->
       forall k', (k < k')%nat -> (failed ++ last) !! k' <> Some i).
Proof.
  assert (Hidle : forall msg status,
    exists failed errs last,
      tried (mkLoop st 0 [] []) = failed ++ last /\
      collectedErrors (mkLoop st 0 [] []) = errs /\
      length errs = length failed /\
      failedTried (PlainError msg status) (mkLoop st 0 [] []) = failed /\
      (forall i a,
         RETOOL_ACCOUNTS st !! i = Some a ->
         exists a',
           RETOOL_ACCOUNTS (loop_state (mkLoop st 0 [] [])) !! i = Some a' /\
           error_count a' = error_count a + occurrences i failed) /\
      (forall i, invalidAt i st -> i ∉ failed ++ last) /\
      (forall k i e,
         failed !! k = Some i -> errs !! k = Some e ->
         isAuthStatus (statusCode e) = true ->
         forall k', (k < k')%nat -> (failed ++ last) !! k' <> Some i)).
  { intros msg status. exists [], [], []. simpl.
    repeat split; auto; try discriminate.
    - intros i a Ha. exists a. rewrite occurrences_nil. split; [auto|lia].
    - intros i _ Hin. apply elem_of_nil in Hin. exact Hin. }
  unfold chatCompletions.
  destruct (req_messages body); [apply Hidle|].
  destruct (findModel _ _); [|apply Hidle].
  destruct (retryLoop_trace world body (length (RETOOL_ACCOUNTS st)) 0%nat
              (mkLoop st 0 [] []))
    as (failed & errs & last & Ht & Hc & Hl & Hnone & Hsome & Hcount
          & Hinvalid & Hauth).
  simpl in Ht, Hc, Hcount, Hinvalid.
  exists failed, errs, last.
  destruct (retryLoop _ _ _ _ _) as [[resp|] ls]; simpl in *.
  - destruct (Hsome resp eq_refl) as [Hcompl [won ->]].
    repeat split; auto.
    unfold failedTried. rewrite Hcompl, Ht. apply removelast_last.
  - rewrite (Hnone eq_refl) in *. rewrite app_nil_r in *.
    repeat split; auto.
    unfold failedTried. destruct (req_stream body); exact Ht.
Qed.

Lemma catchesOn_app (i : nat) (l1 l2 : list Interference) :
  catchesOn i (l1 ++ l2) = catchesOn i l1 + catchesOn i l2.
Proof.
  induction l1 as [|[now modelId|j e] l1 IH]; cbn [app catchesOn];
    rewrite ?IH; lia.
Qed.

Lemma interfereAll_count (l : list Interference) (st : State) (i : nat)
    (a : RetoolAccount) :
  RETOOL_ACCOUNTS st !! i = Some a ->
  exists a',
    RETOOL_ACCOUNTS (interfereAll st l) !! i = Some a' /\
    error_count a' = error_count a + catchesOn i l.
Proof.
  unfold interfereAll. revert st a.
  induction l as [|[now modelId|j e] l IH]; intros st a Ha; cbn [fold_left].
  - exists a. cbn [catchesOn]. split; [exact Ha|lia].
  - destruct (getBestRetoolAccount_accounts now modelId st) as (_ & _ & Hacc).
    destruct (Hacc i a Ha) as (a1 & Ha1 & _ & He1 & _).
    destruct (IH _ a1 Ha1) as (a' & Ha' & He').
    exists a'. cbn [catchesOn]. split; [exact Ha'|lia].
  - destruct (recordFailure_count j e (isAuthStatus (statusCode e))
                (RETOOL_ACCOUNTS st) i a Ha) as (a1 & Ha1 & He1).
    destruct (IH (mkState (recordFailure j e (isAuthStatus (statusCode e))
                             (RETOOL_ACCOUNTS st)) (AVAILABLE_MODELS st))
                a1 Ha1) as (a' & Ha' & He').
    exists a'. cbn [catchesOn]. split; [exact Ha'|lia].
Qed.

(** What one run of the loop among other requests adds: its failed
    attempts [failed], its successful last attempt [last], if any, and on
    every account the errors of both the request and the others. *)
Lemma retryLoopAmid_counts (others : nat -> list Interference)
    (world : nat -> Attempt) (body : ChatCompletionRequest)
    (remaining attempt : nat) (ls : LoopState) :
  exists failed last,
    tried (snd (retryLoopAmid others world body remaining attempt ls))
      = tried ls ++ failed ++ last /\
    (fst (retryLoopAmid others world body remaining attempt ls) = None ->
     last = []) /\
    (forall resp,
       fst (retryLoopAmid others world body remaining attempt ls) = Some resp ->
       isCompletion resp = true /\ exists c, last = [c]) /\
    (forall i a,
       RETOOL_ACCOUNTS (loop_state ls) !! i = Some a ->
       exists a',
         RETOOL_ACCOUNTS
           (loop_state
              (snd (retryLoopAmid others world body remaining attempt ls))) !! i
           = Some a' /\
         error_count a' =
         error_count a + occurrences i failed +
         catchesOn i
           (concat (map others (seq attempt (length (failed ++ last)))))).
Proof.
  revert attempt ls. induction remaining as [|remaining IH]; intros attempt ls.
  { exists [], []. simpl. rewrite !app_nil_r.
    repeat split; auto; try discriminate.
    intros i a Ha. exists a. rewrite occurrences_nil. split; [auto|lia]. }
  cbn [retryLoopAmid].
  destruct (getBestRetoolAccount_accounts (attempt_now (world attempt))
              (req_model body) (loop_state ls)) as (_ & _ & Hacc).
  destruct (getBestRetoolAccount _ _ (loop_state ls)) as [[chosen|] st1];
    cbn [fst snd] in Hacc.
  2: { exists [], []. simpl. rewrite !app_nil_r.
       repeat split; auto; try discriminate.
       intros i a Ha. destruct (Hacc i a Ha) as (a' & Ha' & _ & He & _).
       exists a'. rewrite occurrences_nil. split; [auto|lia]. }
  assert (Hfail : forall e auth,
    let ls2 := mkLoop
      (mkState (recordFailure chosen e auth
                  (RETOOL_ACCOUNTS (interfereAll st1 (others attempt))))
         (AVAILABLE_MODELS (interfereAll st1 (others attempt))))
      (attemptCount ls + 1) (collectedErrors ls ++ [e]) (tried ls ++ [chosen])
    in
    exists failed last,
      tried (snd (retryLoopAmid others world body remaining (S attempt) ls2))
        = tried ls ++ failed ++ last /\
      (fst (retryLoopAmid others world body remaining (S attempt) ls2) = None ->
       last = []) /\
      (forall resp,
         fst (retryLoopAmid others world body remaining (S attempt) ls2)
           = Some resp ->
         isCompletion resp = true /\ exists c, last = [c]) /\
      (forall i a,
         RETOOL_ACCOUNTS (loop_state ls) !! i = Some a ->
         exists a',
           RETOOL_ACCOUNTS
             (loop_state
                (snd (retryLoopAmid others world body remaining (S attempt)
                        ls2))) !! i
             = Some a' /\
           error_count a' =
           error_count a + occurrences i failed +
           catchesOn i
             (concat (map others (seq attempt (length (failed ++ last))))))).
  { intros e auth ls2.
    destruct (IH (S attempt) ls2) as (failed & last & Ht & Hnone & Hsome & Hcount).
    exists (chosen :: failed), last.
    split; [rewrite Ht; simpl; rewrite <- app_assoc; reflexivity|].
    split; [exact Hnone|]. split; [exact Hsome|].
    intros i a Ha. destruct (Hacc i a Ha) as (a1 & Ha1 & _ & He1 & _).
    destruct (interfereAll_count (others attempt) st1 i a1 Ha1)
      as (a2 & Ha2 & He2).
    destruct (recordFailure_count chosen e auth _ i a2 Ha2)
      as (a3 & Ha3 & He3).
    destruct (Hcount i a3 Ha3) as (a' & Ha' & He').
    exists a'. split; [exact Ha'|].
    cbn [app length seq map concat].
    rewrite occurrences_cons, catchesOn_app. lia. }
  destruct (attempt_outcome (world attempt)) as [txt|e|msg].
  - exists [], [chosen]. cbn [fst snd tried loop_state app length seq map concat].
    split; [reflexivity|]. split; [discriminate|]. split.
    + intros resp [= <-]. split; [|eauto].
      destruct (req_stream body); reflexivity.
    + intros i a Ha. destruct (Hacc i a Ha) as (a1 & Ha1 & _ & He1 & _).
      destruct (interfereAll_count (others attempt) st1 i a1 Ha1)
        as (a2 & Ha2 & He2).
      exists a2. rewrite occurrences_nil, app_nil_r. split; [exact Ha2|lia].
  - exact (Hfail e (isAuthStatus (statusCode e))).
  - exact (Hfail (createRetoolError message_send
                    (default ""
                       (domain_name <$>
                          RETOOL_ACCOUNTS (interfereAll st1 (others attempt))
                            !! chosen))
                    msg None (attempt_stamp (world attempt))) false).
Qed.

(** A request that runs alone is the request of [retryLoop]. *)
Lemma retryLoopAmid_alone (world : nat -> Attempt)
    (body : ChatCompletionRequest) (remaining attempt : nat) (ls : LoopState) :
  retryLoopAmid (fun _ => []) world body remaining attempt ls =
  retryLoop world body remaining attempt ls.
Proof.
  revert attempt ls. induction remaining as [|remaining IH];
    intros attempt ls; [reflexivity|].
  cbn [retryLoopAmid retryLoop interfereAll fold_left].
  destruct (getBestRetoolAccount _ _ (loop_state ls)) as [[chosen|] st1];
    [|reflexivity].
  destruct (attempt_outcome (world attempt)); [reflexivity|apply IH..].
Qed.

(** X7. Error accounting of one request, whatever other requests do while
    its attempts wait for the upstream: when it is over, every account's
    error count has grown by exactly the number of failed attempts the
    request made on it plus the number of [catch] blocks the other
    requests ran on it during those attempts; a successful last attempt
    adds nothing and takes nothing away. A request that runs alone adds
    exactly its own failed attempts. *)
Theorem chatCompletions_error_counts :
  forall (others : nat -> list Interference) (world : nat -> Attempt)
         (body : ChatCompletionRequest) (st : State)
         (i : nat) (a : RetoolAccount),
    RETOOL_ACCOUNTS st !! i = Some a ->
    (exists a',
       RETOOL_ACCOUNTS
         (loop_state (snd (chatCompletionsAmid others world body st))) !! i
         = Some a' /\
       error_count a' =
       error_count a +
       occurrences i
         (failedTried (fst (chatCompletionsAmid others world body st))
            (snd (chatCompletionsAmid others world body st))) +
       catchesOn i
         (concat
            (map others
               (seq 0
                  (length
                     (tried
                        (snd (chatCompletionsAmid others world body st)))))))) /\
    chatCompletionsAmid (fun _ => []) world body st
      = chatCompletions world body st /\
    (exists a',
       RETOOL_ACCOUNTS (loop_state (snd (chatCompletions world body st))) !! i
         = Some a' /\
       error_count a' =
       error_count a +
       occurrences i
         (failedTried (fst (chatCompletions world body st))
            (snd (chatCompletions world body st)))).
Proof.
  intros others world body st i a Ha.
  assert (Halone : chatCompletionsAmid (fun _ => []) world body st
                   = chatCompletions world body st).
  { unfold chatCompletionsAmid, chatCompletions.
    rewrite retryLoopAmid_alone. reflexivity. }
  assert (Hamid : forall others',
    exists a',
      RETOOL_ACCOUNTS
        (loop_state (snd (chatCompletionsAmid others' world body st))) !! i
        = Some a' /\
      error_count a' =
      error_count a +
      occurrences i
        (failedTried (fst (chatCompletionsAmid others' world body st))
           (snd (chatCompletionsAmid others' world body st))) +
      catchesOn i
        (concat
           (map others'
              (seq 0
                 (length
                    (tried
                       (snd (chatCompletionsAmid others' world body st)))))))).
  { intros others'. unfold chatCompletionsAmid.
    assert (Hidle : forall msg status,
      exists a',
        RETOOL_ACCOUNTS (loop_state (mkLoop st 0 [] [])) !! i = Some a' /\
        error_count a' =
        error_count a +
        occurrences i (failedTried (PlainError msg status) (mkLoop st 0 [] [])) +
        catchesOn i
          (concat (map others' (seq 0 (length (tried (mkLoop st 0 [] []))))))).
    { intros msg status. exists a. simpl. rewrite occurrences_nil.
      split; [exact Ha|lia]. }
    destruct (req_messages body); [apply Hidle|].
    destruct (findModel _ _); [|apply Hidle].
    destruct (retryLoopAmid_counts others' world body
                (length (RETOOL_ACCOUNTS st)) 0%nat (mkLoop st 0 [] []))
      as (failed & last & Ht & Hnone & Hsome & Hcount).
    cbn [tried loop_state app] in Ht, Hcount.
    destruct (Hcount i a Ha) as (a' & Ha' & He').
    destruct (retryLoopAmid _ _ _ _ _ _) as [[resp|] ls]; cbn [fst snd] in *.
    - destruct (Hsome resp eq_refl) as [Hcompl [won ->]].
      exists a'. split; [exact Ha'|].
      unfold failedTried. rewrite Hcompl, Ht, removelast_last. exact He'.
    - rewrite (Hnone eq_refl) in *. rewrite app_nil_r in *.
      exists a'. split; [exact Ha'|].
      unfold failedTried. rewrite Ht.
      destruct (req_stream body); exact He'. }
  split; [apply Hamid|]. split; [exact Halone|].
  destruct (Hamid (fun _ => [])) as (a' & Ha' & He').
  rewrite Halone in Ha', He'. exists a'. split; [exact Ha'|].
  rewrite He'.
  assert (Hzero : forall n k,
            catchesOn i (concat (map (fun _ : nat => []) (seq k n))) = 0).
  { induction n as [|n IHn]; intros k; [reflexivity|]. cbn. apply IHn. }
  rewrite Hzero. lia.
Qed.

Lemma chatCompletions_error_counts_witness :
  RETOOL_ACCOUNTS stateAB !! 0%nat = Some (set_agents [agentA] accountA) /\
  failedTried
    (fst (chatCompletionsAmid busyOthers (failingWorld 1000 500) requestHi
            stateAB))
    (snd (chatCompletionsAmid busyOthers (failingWorld 1000 500) requestHi
            stateAB))
    = [0%nat; 0%nat] /\
  error_count <$>
    RETOOL_ACCOUNTS
      (loop_state
         (snd (chatCompletionsAmid busyOthers (failingWorld 1000 500)
                 requestHi stateAB))) !! 0%nat
    = Some 3 /\
  error_count <$>
    RETOOL_ACCOUNTS
      (loop_state
         (snd (chatCompletions (failingWorld 1000 500) requestHi stateAB)))
      !! 0%nat
    = Some 2 /\
  exists a',
    RETOOL_ACCOUNTS
      (loop_state
         (snd (chatCompletionsAmid busyOthers (failingWorld 1000 500)
                 requestHi stateAB))) !! 0%nat = Some a' /\
    error_count a' =
    error_count (set_agents [agentA] accountA) +
    occurrences 0
      (failedTried
         (fst (chatCompletionsAmid busyOthers (failingWorld 1000 500)
                 requestHi stateAB))
         (snd (chatCompletionsAmid busyOthers (failingWorld 1000 500)
                 requestHi stateAB))) +
    catchesOn 0
      (concat
         (map busyOthers
            (seq 0
               (length
                  (tried
                     (snd (chatCompletionsAmid busyOthers
                             (failingWorld 1000 500) requestHi stateAB))))))).
Proof.
  assert (Ha : RETOOL_ACCOUNTS stateAB !! 0%nat
               = Some (set_agents [agentA] accountA))
    by (vm_compute; reflexivity).
  split; [exact Ha|]. split; [vm_compute; reflexivity|].
  split; [vm_compute; reflexivity|]. split; [vm_compute; reflexivity|].
  exact (proj1 (chatCompletions_error_counts busyOthers
                  (failingWorld 1000 500) requestHi stateAB 0%nat
                  (set_agents [agentA] accountA) Ha)).
Defined.

(** X8. A request never attempts an account that is invalid when the
    request arrives. *)
Theorem chatCompletions_skips_invalid :
  forall (world : nat -> Attempt) (body : ChatCompletionRequest) (st : State)
         (i : nat),
    invalidAt i st ->
    i ∉ tried (snd (chatCompletions world body st)).
Proof.
  intros world body st i Hinv.
  destruct (chatCompletions_trace world body st)
    as (failed & errs & last & Ht & _ & _ & _ & _ & Hinvalid & _).
  rewrite Ht. exact (Hinvalid i Hinv).
Qed.

(** X9. Within one request, an account whose attempt failed with status
    401 or 403 is not attempted again: no later attempt of the request is
    on that account. *)
Theorem chatCompletions_no_retry_after_auth_failure :
  forall (world : nat -> Attempt) (body : ChatCompletionRequest) (st : State)
         (k i : nat) (e : RetoolError),
    tried (snd (chatCompletions world body st)) !! k = Some i ->
    collectedErrors (snd (chatCompletions world body st)) !! k = Some e ->
    isAuthStatus (statusCode e) = true ->
    forall k', (k < k')%nat ->
               tried (snd (chatCompletions world body st)) !! k' <> Some i.
Proof.
  intros world body st k i e Hk He Ha.
  destruct (chatCompletions_trace world body st)
    as (failed & errs & last & Ht & Hc & Hl & _ & _ & _ & Hauth).
  rewrite Ht in *. rewrite Hc in He.
  apply (Hauth k i e); [|exact He|exact Ha].
  assert (Hlt : (k < length failed)%nat)
    by (rewrite <- Hl; eapply lookup_lt_Some; exact He).
  rewrite lookup_app_l in Hk by exact Hlt. exact Hk.
Qed.

Lemma chatCompletions_skips_invalid_witness :
  invalidAt 0 state401 /\
  0%nat ∉ tried (snd (chatCompletions (failingWorld 2000 500) requestHi
                        state401)).
Proof.
  assert (Hinv : invalidAt 0 state401).
  { eexists. split; [vm_compute; reflexivity|reflexivity]. }
  split; [exact Hinv|].
  exact (chatCompletions_skips_invalid (failingWorld 2000 500) requestHi
           state401 0%nat Hinv).
Defined.

Lemma chatCompletions_no_retry_after_auth_failure_witness :
  tried (snd (chatCompletions (failingWorld 1000 401) requestHi stateTwo))
    !! 0%nat = Some 0%nat /\
  collectedErrors
    (snd (chatCompletions (failingWorld 1000 401) requestHi stateTwo))
    !! 0%nat = Some error401 /\
  isAuthStatus (statusCode error401) = true /\
  forall k', (0 < k')%nat ->
    tried (snd (chatCompletions (failingWorld 1000 401) requestHi stateTwo))
      !! k' <> Some 0%nat.
Proof.
  assert (Hk : tried (snd (chatCompletions (failingWorld 1000 401) requestHi
                             stateTwo)) !! 0%nat = Some 0%nat)
    by (vm_compute; reflexivity).
  assert (He : collectedErrors
                 (snd (chatCompletions (failingWorld 1000 401) requestHi
                         stateTwo)) !! 0%nat = Some error401)
    by (vm_compute; reflexivity).
  split; [exact Hk|]. split; [exact He|]. split; [reflexivity|].
  exact (chatCompletions_no_retry_after_auth_failure (failingWorld 1000 401)
           requestHi stateTwo 0%nat 0%nat error401 Hk He eq_refl).
Defined.

(** ** Discovery, continued *)

(** What the discovery loop makes of the account at position [i]. *)
Lemma discoverAccounts_lookup (accs : list RetoolAccount)
    (answers : list (Fetched (list Agent) * string)) (i : nat)
    (acc : RetoolAccount) :
  accs !! i = Some acc ->
  discoverAccounts accs answers !! i =
  Some (discoverAccount acc
          (retoolQueryAgents acc
             (fst (default (FetchFailed "", "") (answers !! i)))
             (snd (default (FetchFailed "", "") (answers !! i))))).
Proof.
  revert answers i. induction accs as [|a accs IH]; intros answers i Ha;
    [discriminate|].
  destruct i as [|i]; simpl in Ha.
  - injection Ha as ->. simpl. destruct answers as [|[f stamp] answers];
      reflexivity.
  - simpl. destruct (match answers with [] => _ | p :: _ => p end) as [f stamp].
    simpl. rewrite (IH (tail answers) i Ha).
    destruct answers as [|p answers]; reflexivity.
Qed.

Lemma runOperations_requests_steady (st : State) (ops : list Operation) :
  Forall (fun o => isRequest o = true) ops ->
  Forall2 steady (RETOOL_ACCOUNTS st) (RETOOL_ACCOUNTS (runOperations st ops)).
Proof.
  intros Hops. revert st. induction Hops as [|o ops Ho _ IH]; intros st.
  - apply pointwise_refl, steady_refl.
  - simpl. eapply (pointwise_trans steady steady_trans); [|apply IH].
    destruct o as [answers|world body|now modelId]; simpl; [discriminate| |].
    + apply chatCompletions_steady.
    + apply getBestRetoolAccount_steady.
Qed.

(** An account that the loop attempts has an agent. *)
Lemma retryLoop_tried_agents (world : nat -> Attempt)
    (body : ChatCompletionRequest) (remaining attempt : nat) (ls : LoopState)
    (i : nat) :
  i ∈ tried (snd (retryLoop world body remaining attempt ls)) ->
  i ∈ tried ls \/
  exists a, RETOOL_ACCOUNTS (loop_state ls) !! i = Some a /\ agents a <> [].
Proof.
  revert attempt ls. induction remaining as [|remaining IH]; intros attempt ls;
    [left; assumption|].
  simpl.
  pose proof (getBestRetoolAccount_Some (attempt_now (world attempt))
                (req_model body) (loop_state ls)) as Hsome.
  pose proof (getBestRetoolAccount_steady (attempt_now (world attempt))
                (req_model body) (loop_state ls)) as Hsteady.
  destruct (getBestRetoolAccount _ _ (loop_state ls)) as [[chosen|] st1];
    cbn [fst snd] in Hsome, Hsteady; [|left; assumption].
  destruct (Hsome chosen eq_refl) as [Hin _].
  apply candidates_iff in Hin as (record & a & _ & Ha & Hs).
  apply candidateAgent_is_Some in Hs as (_ & _ & ag & Hag & _).
  assert (Hchosen : exists a, RETOOL_ACCOUNTS (loop_state ls) !! chosen = Some a
                              /\ agents a <> []).
  { exists a. split; [exact Ha|]. intros Hnil. rewrite Hnil in Hag.
    apply elem_of_nil in Hag. exact Hag. }
  assert (Hstep : forall e auth errs,
    i ∈ tried
          (snd (retryLoop world body remaining (S attempt)
                  (mkLoop
                     (mkState (recordFailure chosen e auth (RETOOL_ACCOUNTS st1))
                        (AVAILABLE_MODELS st1))
                     (attemptCount ls + 1) errs (tried ls ++ [chosen])))) ->
    i ∈ tried ls \/
    exists a, RETOOL_ACCOUNTS (loop_state ls) !! i = Some a /\ agents a <> []).
  { intros e auth errs Hi. apply IH in Hi as [Hi|(a2 & Ha2 & Hne)].
    - cbn [tried] in Hi. apply elem_of_app in Hi as [Hi|Hi]; [left; exact Hi|].
      apply list_elem_of_singleton in Hi. subst i. right. exact Hchosen.
    - cbn [loop_state RETOOL_ACCOUNTS] in Ha2.
      destruct (Forall2_lookup_r _ _ _ _ _
                  (recordFailure_steady chosen e auth (RETOOL_ACCOUNTS st1)) Ha2)
        as (a1 & Ha1 & _ & Hag1).
      destruct (Forall2_lookup_r _ _ _ _ _ Hsteady Ha1) as (a0 & Ha0 & _ & Hag0).
      right. exists a0. split; [exact Ha0|]. congruence. }
  destruct (attempt_outcome (world attempt)) as [txt|e|msg].
  - cbn [snd tried]. intros Hi.
    apply elem_of_app in Hi as [Hi|Hi]; [left; exact Hi|].
    apply list_elem_of_singleton in Hi. subst i. right. exact Hchosen.
  - apply Hstep.
  - apply Hstep.
Qed.

Lemma chatCompletions_tried_agents (world : nat -> Attempt)
    (body : ChatCompletionRequest) (st : State) (i : nat) :
  i ∈ tried (snd (chatCompletions world body st)) ->
  exists a, RETOOL_ACCOUNTS st !! i = Some a /\ agents a <> [].
Proof.
  unfold chatCompletions.
  destruct (req_messages body);
    [intros H; apply elem_of_nil in H; contradiction|].
  destruct (findModel _ _);
    [|intros H; apply elem_of_nil in H; contradiction].
  pose proof (retryLoop_tried_agents world body (length (RETOOL_ACCOUNTS st))
                0%nat (mkLoop st 0 [] []) i) as Hloop.
  destruct (retryLoop _ _ _ _ _) as [[resp|] ls]; cbn [fst snd] in *;
    intros Hi; destruct (Hloop Hi) as [Hnil|Hag]; try exact Hag;
    apply elem_of_nil in Hnil; contradiction.
Qed.

(** X10. An account whose agent query did not succeed at start-up (a
    status outside 200 to 299, or a request that failed altogether) is left
    without agents, and stays so under the requests served afterwards;
    none of them ever selects it, for any model and at any time, nor does
    a chat request make an attempt on it, whether or not the failure was
    an authentication failure. *)
Theorem failed_discovery_never_selected :
  forall (answers : list (Fetched (list Agent) * string)) (st : State)
         (i : nat) (ops : list Operation),
    (forall status ags stamp,
       answers !! i = Some (Answer status ags, stamp) -> ok status = false) ->
    Forall (fun o => isRequest o = true) ops ->
    (forall acc,
       RETOOL_ACCOUNTS
         (runOperations (initializeRetoolEnvironment answers st) ops) !! i
         = Some acc ->
       agents acc = []) /\
    (forall (now : Z) (modelId : string),
       fst (getBestRetoolAccount now modelId
              (runOperations (initializeRetoolEnvironment answers st) ops))
       <> Some i) /\
    (forall (world : nat -> Attempt) (body : ChatCompletionRequest),
       i ∉ tried
             (snd (chatCompletions world body
                     (runOperations (initializeRetoolEnvironment answers st)
                        ops)))).
Proof.
  intros answers st i ops Hfail Hops.
  assert (Hnil : forall a2,
    RETOOL_ACCOUNTS
      (runOperations (initializeRetoolEnvironment answers st) ops) !! i
      = Some a2 ->
    agents a2 = []).
  { intros a2 Ha2.
    pose proof (runOperations_requests_steady
                  (initializeRetoolEnvironment answers st) ops Hops) as Hsteady.
    destruct (Forall2_lookup_r _ _ _ _ _ Hsteady Ha2) as (a1 & Ha1 & _ & Hag).
    simpl in Ha1.
    assert (Hi : is_Some (RETOOL_ACCOUNTS st !! i)).
    { apply lookup_lt_is_Some.
      rewrite (Forall2_length _ _ _ (discoverAccounts_evolves
                                       (RETOOL_ACCOUNTS st) answers)).
      eapply lookup_lt_Some. exact Ha1. }
    destruct Hi as [a0 Ha0].
    rewrite (discoverAccounts_lookup _ answers i a0 Ha0) in Ha1.
    injection Ha1 as <-.
    rewrite Hag. unfold retoolQueryAgents, upstreamCall.
    destruct (answers !! i) as [[[msg|status ags] stamp]|] eqn:Hans; simpl;
      try reflexivity.
    rewrite (Hfail status ags stamp eq_refl). simpl.
    destruct (isAuthStatus (Some status)); reflexivity. }
  split; [exact Hnil|]. split.
  - intros now modelId Hc.
    apply getBestRetoolAccount_Some in Hc as [Hin _].
    apply candidates_iff in Hin as (record & a2 & _ & Ha2 & Hs).
    apply candidateAgent_is_Some in Hs as (_ & _ & ag & Hag' & _).
    rewrite (Hnil a2 Ha2) in Hag'. apply elem_of_nil in Hag'. exact Hag'.
  - intros world body Hi.
    apply chatCompletions_tried_agents in Hi as (a2 & Ha2 & Hne).
    apply Hne. exact (Hnil a2 Ha2).
Qed.

Lemma failed_discovery_never_selected_witness :
  (forall status ags stamp,
     answersFirstFails !! 0%nat = Some (Answer status ags, stamp) ->
     ok status = false) /\
  Forall (fun o => isRequest o = true) trafficAfterStart /\
  (agents <$>
     RETOOL_ACCOUNTS
       (runOperations
          (initializeRetoolEnvironment answersFirstFails
             (mkState [accountA; accountB] []))
          trafficAfterStart) !! 0%nat) = Some [] /\
  (forall (now : Z) (modelId : string),
     fst (getBestRetoolAccount now modelId
            (runOperations
               (initializeRetoolEnvironment answersFirstFails
                  (mkState [accountA; accountB] []))
               trafficAfterStart))
     <> Some 0%nat) /\
  (forall (world : nat -> Attempt) (body : ChatCompletionRequest),
     0%nat ∉ tried
               (snd (chatCompletions world body
                       (runOperations
                          (initializeRetoolEnvironment answersFirstFails
                             (mkState [accountA; accountB] []))
                          trafficAfterStart)))).
Proof.
  assert (Hfail : forall status ags stamp,
            answersFirstFails !! 0%nat = Some (Answer status ags, stamp) ->
            ok status = false).
  { intros status ags stamp H. injection H as <- _ _. reflexivity. }
  assert (Hops : Forall (fun o => isRequest o = true) trafficAfterStart)
    by (repeat constructor).
  split; [exact Hfail|]. split; [exact Hops|].
  split; [vm_compute; reflexivity|].
  exact (proj2 (failed_discovery_never_selected answersFirstFails
                  (mkState [accountA; accountB] []) 0%nat trafficAfterStart
                  Hfail Hops)).
Defined.

Lemma aggregateModels_elem (accs : list RetoolAccount) (rec : ModelRecord) :
  rec ∈ aggregateModels accs <->
  familyRecord (model_id rec) (allAgents accs) = Some rec.
Proof.
  unfold aggregateModels.
  destruct (aggregate_fold (allAgents accs)) as [Hnd Hinv].
  set (m := fold_left aggregateAgent (allAgents accs) []) in *.
  split.
  - intros Hin. apply list_elem_of_fmap in Hin as ([k r] & -> & Hin).
    simpl. pose proof (mapGet_elem m k r Hnd Hin) as Hget.
    rewrite Hinv in Hget. rewrite (familyRecord_id _ _ _ Hget). exact Hget.
  - intros Hf. rewrite <- Hinv in Hf. apply mapGet_Some_elem in Hf.
    apply list_elem_of_fmap. exists (model_id rec, rec). auto.
Qed.

Lemma findModel_elem (models : list ModelRecord) (rec : ModelRecord) :
  rec ∈ models ->
  exists found,
    findModel (model_id rec) models = Some found /\
    found ∈ models /\ model_id found = model_id rec.
Proof.
  unfold findModel. intros Hin.
  destruct (find _ models) as [found|] eqn:Hf.
  - apply find_some in Hf as [Hfin Hid]. apply String.eqb_eq in Hid.
    apply list_elem_of_In in Hfin. eauto.
  - apply list_elem_of_In in Hin. pose proof (find_none _ _ Hf _ Hin) as Hno.
    simpl in Hno. rewrite String.eqb_refl in Hno. discriminate.
Qed.

Lemma allAgents_elem (accs : list RetoolAccount) (ag : Agent) :
  ag ∈ allAgents accs <->
  exists i acc, accs !! i = Some acc /\ ag ∈ agents acc.
Proof.
  unfold allAgents. induction accs as [|a accs IH]; simpl.
  - rewrite elem_of_nil. split; [tauto|]. intros (i & acc & H & _).
    discriminate.
  - rewrite elem_of_app, IH. split.
    + intros [Hin|(i & acc & Hi & Hin)].
      * exists 0%nat, a. auto.
      * exists (S i), acc. auto.
    + intros (i & acc & Hi & Hin). destruct i as [|i]; simpl in Hi.
      * injection Hi as ->. auto.
      * right. eauto.
Qed.

(** X11. Right after start-up on accounts as the configuration creates
    them (valid, fewer than three errors), every model of the catalog can
    be served: at any time the selector returns an account for it. *)
Theorem startup_models_selectable :
  forall (answers : list (Fetched (list Agent) * string)) (st : State),
    Forall (fun a => is_valid a = true /\ error_count a < 3)
      (RETOOL_ACCOUNTS st) ->
    forall (rec : ModelRecord) (now : Z),
      rec ∈ AVAILABLE_MODELS (initializeRetoolEnvironment answers st) ->
      exists chosen,
        fst (getBestRetoolAccount now (model_id rec)
               (initializeRetoolEnvironment answers st)) = Some chosen.
Proof.
  intros answers st Hfresh rec now Hrec.
  apply getBestRetoolAccount_nonempty.
  simpl in Hrec.
  set (accs := discoverAccounts (RETOOL_ACCOUNTS st) answers) in *.
  destruct (findModel_elem _ _ Hrec) as (found & Hfind & Hfin & Hid).
  apply aggregateModels_elem in Hfin. rewrite Hid in Hfin.
  apply aggregateModels_elem in Hrec. rewrite Hrec in Hfin.
  injection Hfin as <-.
  apply familyRecord_Some in Hrec as (first & rest & Hfam & Hr).
  assert (Hfirst : first ∈ allAgents accs).
  { assert (H : first ∈ filter
                 (fun ag => seriesOf (fullNameOf ag) = model_id rec)
                 (allAgents accs)) by (rewrite Hfam; left).
    apply list_elem_of_filter in H as [_ H]. exact H. }
  apply allAgents_elem in Hfirst as (i & acc' & Hi & Hag).
  assert (Hcand : i ∈ candidates now (model_id rec)
                      (initializeRetoolEnvironment answers st)).
  { apply candidates_iff. exists rec, acc'. split; [exact Hfind|].
    split; [exact Hi|].
    assert (His : is_Some (RETOOL_ACCOUNTS st !! i)).
    { apply lookup_lt_is_Some.
      rewrite (Forall2_length _ _ _ (discoverAccounts_evolves
                                       (RETOOL_ACCOUNTS st) answers)).
      eapply lookup_lt_Some. exact Hi. }
    destruct His as [a0 Ha0].
    unfold accs in Hi.
    rewrite (discoverAccounts_lookup _ answers i a0 Ha0) in Hi.
    injection Hi as Hacc'.
    eapply Forall_lookup_1 in Hfresh as [Hv He]; [|exact Ha0].
    apply candidateAgent_is_Some.
    assert (Hkeep : is_valid acc' = true /\ error_count acc' < 3).
    { subst acc'.
      destruct (retoolQueryAgents a0 _ _) as [ags|e|msg]; simpl in *.
      - auto.
      - apply elem_of_nil in Hag. contradiction.
      - apply elem_of_nil in Hag. contradiction. }
    destruct Hkeep as [Hv' He']. split; [exact Hv'|]. split; [lia|].
    exists first. split; [exact Hag|]. rewrite Hr. simpl. left. }
  intros Hnil. rewrite Hnil in Hcand. apply elem_of_nil in Hcand. exact Hcand.
Qed.

Lemma startup_models_selectable_witness :
  Forall (fun a => is_valid a = true /\ error_count a < 3)
    (RETOOL_ACCOUNTS (mkState [accountA; accountB] [])) /\
  forall (rec : ModelRecord) (now : Z),
    rec ∈ AVAILABLE_MODELS
            (initializeRetoolEnvironment answersFirstFails
               (mkState [accountA; accountB] [])) ->
    exists chosen,
      fst (getBestRetoolAccount now (model_id rec)
             (initializeRetoolEnvironment answersFirstFails
                (mkState [accountA; accountB] []))) = Some chosen.
Proof.
  assert (H : Forall (fun a => is_valid a = true /\ error_count a < 3)
                (RETOOL_ACCOUNTS (mkState [accountA; accountB] []))).
  { repeat constructor; simpl; lia. }
  split; [exact H|].
  exact (startup_models_selectable answersFirstFails
           (mkState [accountA; accountB] []) H).
Defined.

Lemma mapSet_absent (k : string) (r : ModelRecord)
    (m : list (string * ModelRecord)) :
  mapGet k m = None -> mapSet k r m = m ++ [(k, r)].
Proof.
  unfold mapGet. induction m as [|[k0 r0] m IH]; simpl; [reflexivity|].
  destruct (String.eqb k0 k); simpl; [discriminate|].
  intros H. rewrite (IH H). reflexivity.
Qed.

Lemma mapSet_present (k : string) (r r' : ModelRecord)
    (m : list (string * ModelRecord)) :
  mapGet k m = Some r ->
  exists m1 m2, m = m1 ++ (k, r) :: m2 /\ mapSet k r' m = m1 ++ (k, r') :: m2.
Proof.
  unfold mapGet. induction m as [|[k0 r0] m IH]; simpl; [discriminate|].
  destruct (String.eqb_spec k0 k) as [->|Hne]; simpl.
  - intros [= ->]. exists [], m. auto.
  - intros H. destruct (IH H) as (m1 & m2 & -> & Hset).
    exists ((k0, r0) :: m1), m2. rewrite Hset. auto.
Qed.

Lemma aggregateAgent_ids (m : list (string * ModelRecord)) (ag : Agent) :
  concat (map (fun kv => model_agents (snd kv)) (aggregateAgent m ag))
  ≡ₚ concat (map (fun kv => model_agents (snd kv)) m) ++ [agent_id ag].
Proof.
  unfold aggregateAgent.
  destruct (mapGet (seriesOf (fullNameOf ag)) m) as [rec|] eqn:Hget.
  - destruct (mapSet_present _ rec (pushAgent (agent_id ag) rec) m Hget)
      as (m1 & m2 & -> & ->).
    rewrite !map_app, !concat_app. simpl. solve_Permutation.
  - rewrite (mapSet_absent _ _ m Hget).
    rewrite map_app, concat_app. simpl. reflexivity.
Qed.

(** X12. The catalog shares out the discovered agents: the agent lists of
    its records, put together, hold the ids of all agents of all accounts,
    each as often as it was discovered; none is lost and none is
    invented. *)
Theorem aggregateModels_partition :
  forall accs : list RetoolAccount,
    concat (map model_agents (aggregateModels accs))
    ≡ₚ map agent_id (allAgents accs).
Proof.
  intros accs. unfold aggregateModels. rewrite map_map.
  induction (allAgents accs) as [|ag seen IH] using rev_ind; [reflexivity|].
  rewrite fold_left_app, map_app. simpl.
  rewrite aggregateAgent_ids. apply Permutation_app_tail. exact IH.
Qed.

(** ** Model names *)

Lemma joinHyphen_cons (x : string) (l : list string) :
  l <> [] -> joinHyphen (x :: l) = x +:+ "-" +:+ joinHyphen l.
Proof. destruct l; [contradiction|reflexivity]. Qed.

Lemma joinHyphen_take_prefix (n : nat) (parts : list string) :
  exists rest, joinHyphen parts = joinHyphen (take n parts) +:+ rest.
Proof.
  revert n. induction parts as [|x parts IH]; intros n.
  - exists "". destruct n; reflexivity.
  - destruct n as [|n]; [exists (joinHyphen (x :: parts)); reflexivity|].
    simpl take. destruct parts as [|y parts].
    + exists "". destruct n; simpl; rewrite append_empty_r; reflexivity.
    + destruct (IH n) as [rest Hrest].
      rewrite (joinHyphen_cons x (y :: parts)) by discriminate.
      destruct (take n (y :: parts)) as [|z l] eqn:Ht.
      * exists ("-" +:+ joinHyphen (y :: parts)). reflexivity.
      * rewrite (joinHyphen_cons x (z :: l)) by discriminate.
        rewrite Hrest. exists rest. rewrite !append_assoc. reflexivity.
Qed.

Lemma splitHyphen_hyphen_free (s : string) :
  includes "-" s = false -> splitHyphen s = [s].
Proof.
  induction s as [|c s IH]; [reflexivity|].
  rewrite includes_cons. intros H. apply orb_false_iff in H as [Hp Hi].
  simpl. unfold isHyphen. destruct (Ascii.eqb_spec c "-"%char) as [->|Hc].
  - exfalso. assert (Ht : String.prefix "-" (String "-" s) = true)
      by (apply prefix_iff; exists s; reflexivity).
    congruence.
  - rewrite (IH Hi). reflexivity.
Qed.

Lemma splitHyphen_app_hyphen (x s : string) :
  includes "-" x = false ->
  splitHyphen (x +:+ "-" +:+ s) = x :: splitHyphen s.
Proof.
  induction x as [|c x IH]; intros H.
  - reflexivity.
  - rewrite includes_cons in H. apply orb_false_iff in H as [Hp Hi].
    rewrite append_cons. simpl. unfold isHyphen.
    destruct (Ascii.eqb_spec c "-"%char) as [->|Hc].
    + exfalso. assert (Ht : String.prefix "-" (String "-" x) = true)
        by (apply prefix_iff; exists x; reflexivity).
      congruence.
    + rewrite (IH Hi). reflexivity.
Qed.

(** [split] after [join] gives the parts back, when no part holds a
    hyphen. *)
Lemma splitHyphen_joinHyphen (parts : list string) :
  parts <> [] ->
  Forall (fun part => includes "-" part = false) parts ->
  splitHyphen (joinHyphen parts) = parts.
Proof.
  induction parts as [|x parts IH]; [contradiction|].
  intros _ Hall. apply Forall_cons in Hall as [Hx Hall].
  destruct parts as [|y parts].
  - simpl. apply splitHyphen_hyphen_free. exact Hx.
  - rewrite joinHyphen_cons by discriminate.
    rewrite splitHyphen_app_hyphen by exact Hx.
    rewrite IH by (auto; discriminate). reflexivity.
Qed.

(** X13. The id of a model family is a prefix of every model name of the
    family; a name with at most three segments is its own family id; and
    a family id is its own family id, so a catalog id never names another
    family. *)
Theorem seriesOf_prefix_idempotent :
  forall fullName : string,
    (exists rest, fullName = seriesOf fullName +:+ rest) /\
    (length (splitHyphen fullName) <= 3 -> seriesOf fullName = fullName)%nat /\
    seriesOf (seriesOf fullName) = seriesOf fullName /\
    (length (splitHyphen (seriesOf fullName)) <= 3)%nat.
Proof.
  intros fullName. unfold seriesOf.
  destruct (splitHyphen_join fullName) as [Hjoin Hfree].
  pose proof (splitHyphen_nonempty fullName) as Hne.
  assert (Hsplit : splitHyphen (joinHyphen (take 3 (splitHyphen fullName)))
                   = take 3 (splitHyphen fullName)).
  { apply splitHyphen_joinHyphen.
    - destruct (splitHyphen fullName); [contradiction|discriminate].
    - apply Forall_take. exact Hfree. }
  split; [|split; [|split]].
  - destruct (joinHyphen_take_prefix 3 (splitHyphen fullName)) as [rest H].
    exists rest. rewrite <- H. symmetry. exact Hjoin.
  - intros Hlen. rewrite take_ge by exact Hlen. exact Hjoin.
  - rewrite Hsplit, take_take. reflexivity.
  - rewrite Hsplit, length_take. lia.
Qed.

(** ** The session of one attempt *)

Lemma upstreamCall_error {A : Type} (op : RetoolOperation) (failure : string)
    (acc : RetoolAccount) (f : Fetched A) (stamp : string) (e : RetoolError) :
  upstreamCall op failure acc f stamp = ThrownApi e ->
  exists status payload,
    f = Answer status payload /\ ok status = false /\
    e = createRetoolError op (domain_name acc) failure (Some status) stamp.
Proof.
  unfold upstreamCall. destruct f as [msg|status payload]; [discriminate|].
  destruct (ok status) eqn:Hok; [discriminate|].
  intros [= <-]. eauto.
Qed.

Lemma upstreamCall_returned {A : Type} (op : RetoolOperation)
    (failure : string) (acc : RetoolAccount) (f : Fetched A) (stamp : string)
    (x : A) :
  upstreamCall op failure acc f stamp = Returned x ->
  exists status, f = Answer status x /\ ok status = true.
Proof.
  unfold upstreamCall. destruct f as [msg|status payload]; [discriminate|].
  destruct (ok status) eqn:Hok; [|discriminate].
  intros [= <-]. eauto.
Qed.

Lemma pollLoop_error (acc : RetoolAccount) (deadline : Z)
    (script : list PollTick) (e : RetoolError) :
  pollLoop acc deadline script = Some (ThrownApi e) ->
  operation e = message_get /\ account e = domain_name acc /\
  (forall c, statusCode e = Some c -> ok c = false).
Proof.
  intros H. apply pollLoop_decided in H as (pre & t & post & _ & _ & _ & Hr).
  simpl in Hr. destruct (tick_now t <? deadline).
  - destruct (tick_fetch t) as [msg|status data]; [discriminate|].
    destruct (ok status) eqn:Hok.
    + destruct (String.eqb _ _); [|discriminate].
      destruct (last (trace data)); discriminate.
    + injection Hr as <-. simpl. repeat split. intros c [= <-]. exact Hok.
  - injection Hr as <-. simpl. repeat split. discriminate.
Qed.

(** X14. A structured error that ends a session names the account that was
    attempted, never carries a success status, and tells which call failed
    first: thread creation; or, the thread created, the message; or, both
    accepted, the polling. What the upstream would have answered to the
    calls behind the failing one plays no part. *)
Theorem runSession_error_attribution :
  forall (acc : RetoolAccount) (s : Session) (e : RetoolError),
    runSession acc s = Some (ThrownApi e) ->
    account e = domain_name acc /\
    (forall c, statusCode e = Some c -> ok c = false) /\
    ((exists c x,
        thread_answer s = Answer c x /\ ok c = false /\
        e = createRetoolError thread_create (domain_name acc)
              "Create thread failed" (Some c) (thread_stamp s)) \/
     (exists c1 x1 c x,
        thread_answer s = Answer c1 x1 /\ ok c1 = true /\
        send_answer s = Answer c x /\ ok c = false /\
        e = createRetoolError message_send (domain_name acc)
              "Send message failed" (Some c) (send_stamp s)) \/
     (exists c1 x1 c2 x2,
        thread_answer s = Answer c1 x1 /\ ok c1 = true /\
        send_answer s = Answer c2 x2 /\ ok c2 = true /\
        operation e = message_get /\
        retoolGetMessage acc (poll_start s) defaultTimeoutMs (poll_script s)
          = Some (ThrownApi e))).
Proof.
  intros acc s e. unfold runSession, retoolGetThreadId, retoolSendMessage.
  destruct (upstreamCall thread_create _ acc (thread_answer s) _)
    as [threadId|e1|msg1] eqn:H1; [| |discriminate].
  - apply upstreamCall_returned in H1 as (c1 & Ht & Hok1).
    destruct (upstreamCall message_send _ acc (send_answer s) _)
      as [runId|e2|msg2] eqn:H2; [| |discriminate].
    + apply upstreamCall_returned in H2 as (c2 & Hs & Hok2).
      intros Hpoll. pose proof Hpoll as Hp. unfold retoolGetMessage in Hp.
      apply pollLoop_error in Hp as (Hop & Hacc & Hst).
      split; [exact Hacc|]. split; [exact Hst|]. right. right.
      exists c1, threadId, c2, runId. auto 10.
    + apply upstreamCall_error in H2 as (c & x & Hs & Hok & ->).
      intros [= <-]. simpl. split; [reflexivity|]. split.
      * intros c0 [= <-]. exact Hok.
      * right. left. exists c1, threadId, c, x. auto 10.
  - apply upstreamCall_error in H1 as (c & x & Ht & Hok & ->).
    intros [= <-]. simpl. split; [reflexivity|]. split.
    + intros c0 [= <-]. exact Hok.
    + left. exists c, x. auto.
Qed.

Lemma runSession_error_attribution_witness :
  runSession accountQ sessionRefused
    = Some (ThrownApi
              (createRetoolError message_send "a.retool.com"
                 "Send message failed" (Some 403) "t2")) /\
  account (createRetoolError message_send "a.retool.com"
             "Send message failed" (Some 403) "t2") = domain_name accountQ.
Proof.
  assert (H : runSession accountQ sessionRefused
              = Some (ThrownApi
                        (createRetoolError message_send "a.retool.com"
                           "Send message failed" (Some 403) "t2")))
    by reflexivity.
  split; [exact H|].
  exact (proj1 (runSession_error_attribution accountQ sessionRefused _ H)).
Defined.

Lemma pollLoop_ends (acc : RetoolAccount) (deadline base : Z)
    (script : list PollTick) :
  script <> [] ->
  (forall k t, script !! k = Some t -> base + 1000 * Z.of_nat k <= tick_now t) ->
  deadline <= base + 1000 * (Z.of_nat (length script) - 1) ->
  is_Some (pollLoop acc deadline script).
Proof.
  revert base. induction script as [|t rest IH]; intros base Hne Hclock Hlen;
    [contradiction|].
  simpl. destruct (Z.ltb_spec (tick_now t) deadline) as [Hnow|Hnow]; [|eauto].
  destruct (tick_fetch t) as [msg|status data]; [eauto|].
  destruct (ok status); [|eauto].
  destruct (String.eqb _ _).
  { destruct (last (trace data)); eauto. }
  pose proof (Hclock 0%nat t eq_refl) as H0.
  apply (IH (base + 1000)).
  - intros ->. simpl in Hlen. lia.
  - intros k t' Hk. specialize (Hclock (S k) t' Hk). lia.
  - simpl length in Hlen. lia.
Qed.

(** X15. Polling ends. If the clock reading of every round is at least one
    second after that of the round before (the loop sleeps one second
    between rounds), then after at most [timeoutMs / 1000] rounded up, plus
    one, rounds the poll has returned or failed. *)
Theorem retoolGetMessage_terminates :
  forall (acc : RetoolAccount) (start timeoutMs : Z) (script : list PollTick),
    0 <= timeoutMs ->
    (forall k t, script !! k = Some t ->
                 start + 1000 * Z.of_nat k <= tick_now t) ->
    timeoutMs <= 1000 * (Z.of_nat (length script) - 1) ->
    exists r, retoolGetMessage acc start timeoutMs script = Some r.
Proof.
  intros acc start timeoutMs script Hpos Hclock Hlen.
  unfold retoolGetMessage.
  apply (pollLoop_ends acc (start + timeoutMs) start script); [|exact Hclock|lia].
  intros ->. simpl in Hlen. lia.
Qed.

Lemma retoolGetMessage_terminates_witness :
  0 <= 1000 /\
  (forall k t, twoRounds !! k = Some t ->
               5000 + 1000 * Z.of_nat k <= tick_now t) /\
  1000 <= 1000 * (Z.of_nat (length twoRounds) - 1) /\
  exists r, retoolGetMessage accountQ 5000 1000 twoRounds = Some r.
Proof.
  assert (Hpos : 0 <= 1000) by lia.
  assert (Hclock : forall k t, twoRounds !! k = Some t ->
                     5000 + 1000 * Z.of_nat k <= tick_now t).
  { intros [|[|k]] t H; simpl in H; try discriminate;
      injection H as <-; simpl; lia. }
  assert (Hlen : 1000 <= 1000 * (Z.of_nat (length twoRounds) - 1))
    by (simpl; lia).
  split; [exact Hpos|]. split; [exact Hclock|]. split; [exact Hlen|].
  exact (retoolGetMessage_terminates accountQ 5000 1000 twoRounds
           Hpos Hclock Hlen).
Defined.

(** ** Client keys *)

Lemma trimEnd_cons (c : ascii) (s : string) :
  isWhiteSpace c = false -> trimEnd (String c s) = String c (trimEnd s).
Proof. intros Hc. simpl. rewrite Hc. destruct (trimEnd s); reflexivity. Qed.

Lemma trimStart_first (s : string) (c : ascii) (rest : string) :
  trimStart s = String c rest -> isWhiteSpace c = false.
Proof.
  induction s as [|d s IH]; simpl; [discriminate|].
  destruct (isWhiteSpace d) eqn:Hd; [exact IH|].
  intros [= <- _]. exact Hd.
Qed.

Lemma trimEnd_idem (s : string) : trimEnd (trimEnd s) = trimEnd s.
Proof.
  induction s as [|c s IH]; [reflexivity|]. simpl.
  destruct (trimEnd s) as [|d r] eqn:Hr.
  - destruct (isWhiteSpace c) eqn:Hc; [reflexivity|].
    simpl. rewrite Hc. reflexivity.
  - simpl in *. rewrite IH. reflexivity.
Qed.

Lemma trim_first (s : string) (c : ascii) (rest : string) :
  trim s = String c rest -> isWhiteSpace c = false.
Proof.
  unfold trim. destruct (trimStart s) as [|d t] eqn:Ht; [discriminate|].
  pose proof (trimStart_first s d t Ht) as Hd.
  rewrite (trimEnd_cons d t Hd). intros [= <- _]. exact Hd.
Qed.

Lemma trimEnd_last (s init : string) (c : ascii) :
  trimEnd s = init +:+ String c "" -> isWhiteSpace c = false.
Proof.
  revert init. induction s as [|a s IH]; intros init.
  - destruct init; discriminate.
  - simpl. destruct (trimEnd s) as [|d r] eqn:Hr.
    + destruct (isWhiteSpace a) eqn:Ha.
      * destruct init; discriminate.
      * destruct init as [|b init]; [intros [= <-]; exact Ha|].
        rewrite append_cons. intros [= _ H]. destruct init; discriminate.
    + destruct init as [|b init].
      * intros H. cbv in H. discriminate H.
      * rewrite append_cons. intros [= _ H]. apply (IH init). exact H.
Qed.

Lemma trim_idem (s : string) : trim (trim s) = trim s.
Proof.
  unfold trim. destruct (trimStart s) as [|d t] eqn:Ht; [reflexivity|].
  pose proof (trimStart_first s d t Ht) as Hd.
  rewrite (trimEnd_cons d t Hd). simpl trimStart. rewrite Hd.
  rewrite <- (trimEnd_cons d t Hd). apply trimEnd_idem.
Qed.

Lemma hasChar_trimStart (x : ascii) (s : string) :
  hasChar x (trimStart s) = true -> hasChar x s = true.
Proof.
  induction s as [|c s IH]; simpl; [auto|].
  destruct (isWhiteSpace c); [|auto].
  intros H. rewrite (IH H). apply orb_true_r.
Qed.

Lemma hasChar_trimEnd (x : ascii) (s : string) :
  hasChar x (trimEnd s) = true -> hasChar x s = true.
Proof.
  induction s as [|c s IH]; simpl; [auto|].
  destruct (trimEnd s) as [|d r].
  - destruct (isWhiteSpace c); simpl; [discriminate|].
    rewrite orb_false_r. intros ->. reflexivity.
  - simpl in *. intros H. apply orb_true_iff in H as [H|H].
    + rewrite H. reflexivity.
    + rewrite (IH H). apply orb_true_r.
Qed.

Lemma hasChar_trim (x : ascii) (s : string) :
  hasChar x s = false -> hasChar x (trim s) = false.
Proof.
  intros H. destruct (hasChar x (trim s)) eqn:Ht; [|reflexivity].
  apply hasChar_trimEnd, hasChar_trimStart in Ht. congruence.
Qed.

(** A string that trims to nothing holds white space only. *)
Lemma trim_blank (s : string) (x : ascii) :
  trim s = "" -> isWhiteSpace x = false -> hasChar x s = false.
Proof.
  unfold trim. intros Ht Hx. induction s as [|c s IH]; [reflexivity|].
  simpl hasChar. simpl trimStart in Ht.
  destruct (isWhiteSpace c) eqn:Hc.
  - rewrite (IH Ht), orb_false_r.
    destruct (Ascii.eqb_spec c x) as [->|_]; [congruence|reflexivity].
  - rewrite (trimEnd_cons c s Hc) in Ht. discriminate.
Qed.

Lemma splitChar_free (sep : ascii) (s : string) :
  hasChar sep s = false -> splitChar sep s = [s].
Proof.
  induction s as [|c s IH]; [reflexivity|]. simpl.
  intros H. apply orb_false_iff in H as [Hc Hs].
  rewrite Hc, (IH Hs). reflexivity.
Qed.

Lemma splitChar_nonempty (sep : ascii) (s : string) : splitChar sep s <> [].
Proof.
  induction s as [|c s IH]; simpl; [discriminate|].
  destruct (Ascii.eqb c sep); [discriminate|].
  destruct (splitChar sep s); discriminate.
Qed.

Lemma splitChar_parts (sep : ascii) (s : string) :
  Forall (fun part => hasChar sep part = false) (splitChar sep s).
Proof.
  induction s as [|c s IH]; simpl; [repeat constructor|].
  destruct (Ascii.eqb c sep) eqn:Hc; [constructor; [reflexivity|exact IH]|].
  destruct (splitChar sep s) as [|h t]; [repeat constructor; simpl; rewrite Hc; reflexivity|].
  apply Forall_cons in IH as [Hh Ht].
  constructor; [simpl; rewrite Hc, Hh; reflexivity|exact Ht].
Qed.

Lemma splitChar_app (sep : ascii) (x s : string) :
  hasChar sep x = false ->
  splitChar sep (x +:+ String sep s) = x :: splitChar sep s.
Proof.
  induction x as [|c x IH]; intros H.
  - change ("" +:+ String sep s) with (String sep s). simpl.
    rewrite Ascii.eqb_refl. reflexivity.
  - simpl in H. apply orb_false_iff in H as [Hc Hx].
    rewrite append_cons. simpl. rewrite Hc, (IH Hx). reflexivity.
Qed.

Lemma splitChar_concat (sep : ascii) (parts : list string) :
  parts <> [] ->
  Forall (fun part => hasChar sep part = false) parts ->
  splitChar sep (String.concat (String sep "") parts) = parts.
Proof.
  induction parts as [|x parts IH]; [contradiction|].
  intros _ Hall. apply Forall_cons in Hall as [Hx Hall].
  destruct parts as [|y parts].
  - simpl. apply splitChar_free. exact Hx.
  - change (String.concat (String sep "") (x :: y :: parts))
      with (x +:+ String sep "" +:+ String.concat (String sep "") (y :: parts)).
    change (String sep "" +:+ String.concat (String sep "") (y :: parts))
      with (String sep (String.concat (String sep "") (y :: parts))).
    rewrite splitChar_app by exact Hx.
    rewrite IH by (auto; discriminate). reflexivity.
Qed.

(** The early return of [parseClientApiKeys] changes nothing: the general
    path gives the empty set on the inputs it catches. *)
Lemma parseClientApiKeys_general (input : string) :
  parseClientApiKeys input =
  list_to_set (List.filter nonEmpty (map trim (splitChar ","%char input))).
Proof.
  unfold parseClientApiKeys.
  destruct (String.eqb_spec input "") as [->|_]; [reflexivity|]. simpl.
  destruct (String.eqb_spec (trim input) "") as [Hblank|_]; [|reflexivity].
  rewrite (splitChar_free ","%char input)
    by (apply trim_blank; [exact Hblank|reflexivity]).
  simpl. rewrite Hblank. reflexivity.
Qed.

Lemma parseClientApiKeys_elem (input key : string) :
  key ∈ parseClientApiKeys input <->
  key <> "" /\ exists segment,
    segment ∈ splitChar ","%char input /\ key = trim segment.
Proof.
  rewrite parseClientApiKeys_general, elem_of_list_to_set, list_elem_of_In,
    filter_In, <- list_elem_of_In, list_elem_of_fmap.
  unfold nonEmpty. rewrite negb_true_iff, String.eqb_neq. split.
  - intros [(segment & Hk & Hseg) Hne]. eauto.
  - intros (Hne & segment & Hseg & Hk). eauto.
Qed.

(** X16. Every key that [parseClientApiKeys] returns is the trimmed form of
    one comma-separated segment of the input; it is not empty, holds no
    comma, and neither starts nor ends with white space. *)
Theorem parseClientApiKeys_wellformed :
  forall input key : string,
    key ∈ parseClientApiKeys input ->
    key <> "" /\
    hasChar ","%char key = false /\
    trim key = key /\
    (forall c rest, key = String c rest -> isWhiteSpace c = false) /\
    (forall init c, key = init +:+ String c "" -> isWhiteSpace c = false) /\
    exists segment,
      segment ∈ splitChar ","%char input /\ key = trim segment.
Proof.
  intros input key Hin.
  apply parseClientApiKeys_elem in Hin as (Hne & segment & Hseg & ->).
  split; [exact Hne|]. split.
  { apply hasChar_trim.
    pose proof (splitChar_parts ","%char input) as Hparts.
    eapply Forall_forall in Hparts; [exact Hparts|exact Hseg]. }
  split; [apply trim_idem|]. split.
  { intros c rest H. eapply trim_first. exact H. }
  split; [|eauto].
  intros init c H. unfold trim in H. eapply trimEnd_last. exact H.
Qed.

(** X17. Joining keys that hold no comma with commas and parsing the result
    gives back exactly the trimmed keys, the blank ones dropped, whatever
    white space surrounds them. *)
Theorem parseClientApiKeys_join :
  forall keys : list string,
    Forall (fun key => hasChar ","%char key = false) keys ->
    parseClientApiKeys (String.concat "," keys) =
    list_to_set (List.filter nonEmpty (map trim keys)).
Proof.
  intros keys Hfree. rewrite parseClientApiKeys_general.
  destruct keys as [|k keys]; [reflexivity|].
  rewrite (splitChar_concat ","%char (k :: keys)) by (auto; discriminate).
  reflexivity.
Qed.

(** X18. The set of keys is empty exactly when every comma-separated
    segment of the input is blank; the empty input and an input of white
    space are such inputs. *)
Theorem parseClientApiKeys_empty :
  forall input : string,
    (parseClientApiKeys input = ∅ <->
     Forall (fun segment => trim segment = "") (splitChar ","%char input)) /\
    parseClientApiKeys "" = ∅ /\
    (trim input = "" -> parseClientApiKeys input = ∅).
Proof.
  intros input.
  assert (Hiff : parseClientApiKeys input = ∅ <->
            Forall (fun segment => trim segment = "")
              (splitChar ","%char input)).
  { split.
    - intros Hempty. apply Forall_forall. intros segment Hseg.
      destruct (String.eqb_spec (trim segment) "") as [H|H]; [exact H|].
      exfalso. assert (Hin : trim segment ∈ parseClientApiKeys input)
        by (apply parseClientApiKeys_elem; eauto).
      rewrite Hempty in Hin. set_solver.
    - intros Hall. apply leibniz_equiv. apply elem_of_equiv_empty.
      intros key Hin.
      apply parseClientApiKeys_elem in Hin as (Hne & segment & Hseg & ->).
      eapply Forall_forall in Hall; [|exact Hseg]. contradiction. }
  split; [exact Hiff|]. split; [reflexivity|].
  intros Hblank. unfold parseClientApiKeys. rewrite Hblank.
  rewrite orb_true_r. reflexivity.
Qed.

Lemma parseClientApiKeys_wellformed_witness :
  "key1" ∈ parseClientApiKeys keysInput /\
  hasChar ","%char "key1" = false /\
  trim "key1" = "key1".
Proof.
  assert (Hin : "key1" ∈ parseClientApiKeys keysInput).
  { apply parseClientApiKeys_elem. split; [discriminate|].
    exists "  key1 ". split; [vm_compute; left|reflexivity]. }
  split; [exact Hin|].
  destruct (parseClientApiKeys_wellformed keysInput "key1" Hin)
    as (_ & Hcomma & Htrim & _).
  split; [exact Hcomma|exact Htrim].
Defined.

Lemma parseClientApiKeys_join_witness :
  Forall (fun key => hasChar ","%char key = false) [" a "; "b"; "  "; "a"] /\
  parseClientApiKeys (String.concat "," [" a "; "b"; "  "; "a"]) =
  list_to_set (List.filter nonEmpty (map trim [" a "; "b"; "  "; "a"])).
Proof.
  assert (H : Forall (fun key => hasChar ","%char key = false)
                [" a "; "b"; "  "; "a"]) by (repeat constructor).
  split; [exact H|].
  exact (parseClientApiKeys_join [" a "; "b"; "  "; "a"] H).
Defined.

(** ** The routes *)

(** The responses of the chat route, by the checks the request passes. *)
Lemma chatCompletions_response (world : nat -> Attempt)
    (body : ChatCompletionRequest) (st : State) :
  (req_messages body = [] /\
   chatCompletions world body st
     = (PlainError "no messages supplied" 400, mkLoop st 0 [] [])) \/
  (req_messages body <> [] /\
   findModel (req_model body) (AVAILABLE_MODELS st) = None /\
   chatCompletions world body st
     = (PlainError ("model '" +:+ req_model body +:+ "' not found") 404,
        mkLoop st 0 [] [])) \/
  (req_messages body <> [] /\
   (exists rec, findModel (req_model body) (AVAILABLE_MODELS st) = Some rec) /\
   (isCompletion (fst (chatCompletions world body st)) = true \/
    (req_stream body = true /\
     fst (chatCompletions world body st)
       = ErrorStream "all retool attempts failed" 503) \/
    (req_stream body = false /\
     exists e, fst (chatCompletions world body st) = ErrorJson e 503))).
Proof.
  unfold chatCompletions.
  destruct (req_messages body) as [|m rest]; [left; auto|].
  destruct (findModel _ _) as [rec|]; [|right; left; auto].
  right. right. split; [discriminate|]. split; [eauto|].
  pose proof (retryLoop_success world body (length (RETOOL_ACCOUNTS st)) 0%nat
                (mkLoop st 0 [] [])) as Hs.
  destruct (retryLoop _ _ _ _ _) as [[resp|] ls]; simpl in *.
  - left. destruct (Hs resp eq_refl) as [text [-> | ->]]; reflexivity.
  - right. destruct (req_stream body); [left|right]; eauto.
Qed.

(** A request that is not answered with a completion has seen every
    attempt it made fail. *)
Lemma chatCompletions_all_failed (world : nat -> Attempt)
    (body : ChatCompletionRequest) (st : State) :
  isCompletion (fst (chatCompletions world body st)) = false ->
  forall k t,
    (k < length (tried (snd (chatCompletions world body st))))%nat ->
    attempt_outcome (world k) <> Returned t.
Proof.
  unfold chatCompletions.
  destruct (req_messages body); [simpl; intros _ k t Hk; lia|].
  destruct (findModel _ _); [|simpl; intros _ k t Hk; lia].
  pose proof (retryLoop_success world body (length (RETOOL_ACCOUNTS st)) 0%nat
                (mkLoop st 0 [] [])) as Hs.
  pose proof (retryLoop_all_failed world body (length (RETOOL_ACCOUNTS st))
                0%nat (mkLoop st 0 [] [])) as Hf.
  destruct (retryLoop _ _ _ _ _) as [[resp|] ls]; cbn [fst snd] in *.
  - destruct (Hs resp eq_refl) as [text [-> | ->]]; discriminate.
  - intros _ k t Hk. destruct (Hf eq_refl) as (n & Hn & Hfail).
    cbn [tried length] in Hn. apply (Hfail k t). lia.
Qed.

(** X19. No request changes the set of client keys. The account registry
    and the catalog change only through an authorized chat request: if a
    request leaves them different, it was a POST to /v1/chat/completions
    whose Authorization header matched and carried, once trimmed, one of
    the client keys, whose body was parsed, had at least one message and
    named a model of the catalog. The debug flag changes only through a
    GET to /debug that carries the [enable] parameter, and becomes whether
    that parameter is "true". *)
Theorem handleRequest_registry_guarded :
  forall (matchBearer : string -> option string) (clock : nat -> Z)
         (world : nat -> Attempt) (req : Request) (srv : ServerState),
    VALID_CLIENT_KEYS (snd (handleRequest matchBearer clock world req srv))
      = VALID_CLIENT_KEYS srv /\
    (server_state (snd (handleRequest matchBearer clock world req srv))
       <> server_state srv ->
     pathname req = "/v1/chat/completions" /\
     method req = "POST" /\
     exists captured body rec,
       matchBearer (default "" (authorization req)) = Some captured /\
       trim captured ∈ VALID_CLIENT_KEYS srv /\
       json req = Some body /\
       req_messages body <> [] /\
       findModel (req_model body) (AVAILABLE_MODELS (server_state srv))
         = Some rec) /\
    (DEBUG_MODE (snd (handleRequest matchBearer clock world req srv))
       <> DEBUG_MODE srv ->
     pathname req = "/debug" /\
     method req = "GET" /\
     exists value,
       enable req = Some value /\
       DEBUG_MODE (snd (handleRequest matchBearer clock world req srv))
         = String.eqb value "true").
Proof.
  intros matchBearer clock world req srv. unfold handleRequest.
  destruct (String.eqb (pathname req) "/debug" && String.eqb (method req) "GET")
    eqn:Hdebug.
  { apply andb_true_iff in Hdebug as [Hpath Hmeth].
    apply String.eqb_eq in Hpath. apply String.eqb_eq in Hmeth.
    cbn [fst snd VALID_CLIENT_KEYS server_state DEBUG_MODE].
    split; [reflexivity|]. split; [congruence|].
    destruct (enable req) as [value|]; [|congruence].
    intros _. split; [exact Hpath|]. split; [exact Hmeth|]. eauto. }
  destruct (String.eqb (pathname req) "/v1/models"
            && String.eqb (method req) "GET").
  { destruct (requireAuth _ _ _); simpl; repeat split; congruence. }
  destruct (String.eqb (pathname req) "/models"
            && String.eqb (method req) "GET");
    [simpl; repeat split; congruence|].
  destruct (String.eqb (pathname req) "/v1/chat/completions"
            && String.eqb (method req) "POST") eqn:Hroute;
    [|simpl; repeat split; congruence].
  apply andb_true_iff in Hroute as [Hpath Hmeth].
  apply String.eqb_eq in Hpath. apply String.eqb_eq in Hmeth.
  unfold requireAuth.
  destruct (matchBearer (default "" (authorization req))) as [captured|];
    [|simpl; repeat split; congruence].
  destruct (decide (trim captured ∈ VALID_CLIENT_KEYS srv)) as [Hkey|_];
    [|simpl; repeat split; congruence].
  destruct (json req) as [body|]; [|simpl; repeat split; congruence].
  destruct (chatCompletions_response world body (server_state srv))
    as [[_ Heq]|[(_ & _ & Heq)|(Hmsg & [rec Hrec] & _)]].
  - rewrite Heq. simpl. repeat split; congruence.
  - rewrite Heq. simpl. repeat split; congruence.
  - destruct (chatCompletions world body (server_state srv)) as [r ls].
    simpl. split; [reflexivity|]. split; [|congruence].
    intros _. split; [exact Hpath|]. split; [exact Hmeth|].
    exists captured, body, rec. auto.
Qed.

Ltac in_list := solve [repeat (first [left | right])].

(** X20. Every response that [handleRequest] builds (for a body of the
    declared type, when it parses) has one of the statuses 200, 400, 401,
    403, 404 and 503, and 503 is the answer only to a chat request that
    was authorized, asked for no stream, named a model of the catalog, and
    saw every attempt it made fail. *)
Theorem handleRequest_status :
  forall (matchBearer : string -> option string) (clock : nat -> Z)
         (world : nat -> Attempt) (req : Request) (srv : ServerState),
    (httpStatus (fst (handleRequest matchBearer clock world req srv))
       ∈ [200; 400; 401; 403; 404; 503]) /\
    (httpStatus (fst (handleRequest matchBearer clock world req srv)) = 503 ->
     pathname req = "/v1/chat/completions" /\
     method req = "POST" /\
     exists token body rec e,
       requireAuth matchBearer (authorization req) (VALID_CLIENT_KEYS srv)
         = Authorized token /\
       json req = Some body /\
       req_stream body = false /\
       findModel (req_model body) (AVAILABLE_MODELS (server_state srv))
         = Some rec /\
       fst (chatCompletions world body (server_state srv)) = ErrorJson e 503 /\
       fst (handleRequest matchBearer clock world req srv)
         = Reply (ErrorJson e 503) /\
       forall k t,
         (k < length
                (tried (snd (chatCompletions world body (server_state srv)))))%nat ->
         attempt_outcome (world k) <> Returned t).
Proof.
  intros matchBearer clock world req srv. unfold handleRequest.
  assert (Hauth : forall code,
    httpStatus (unauthorized code) ∈ [200; 400; 401; 403; 404; 503] /\
    httpStatus (unauthorized code) <> 503).
  { intros code. unfold unauthorized. simpl.
    destruct (String.eqb code "403"); split; try lia; in_list. }
  destruct (String.eqb (pathname req) "/debug" && String.eqb (method req) "GET").
  { simpl. split; [in_list|lia]. }
  destruct (String.eqb (pathname req) "/v1/models"
            && String.eqb (method req) "GET").
  { destruct (requireAuth _ _ _) as [token|code]; simpl fst.
    - simpl. split; [in_list|lia].
    - destruct (Hauth code). split; [assumption|contradiction]. }
  destruct (String.eqb (pathname req) "/models"
            && String.eqb (method req) "GET").
  { simpl. split; [in_list|lia]. }
  destruct (String.eqb (pathname req) "/v1/chat/completions"
            && String.eqb (method req) "POST") eqn:Hroute.
  2: { simpl. split; [in_list|lia]. }
  apply andb_true_iff in Hroute as [Hpath Hmeth].
  apply String.eqb_eq in Hpath. apply String.eqb_eq in Hmeth.
  destruct (requireAuth _ _ _) as [token|code] eqn:Hreq; simpl fst.
  2: { destruct (Hauth code). split; [assumption|contradiction]. }
  destruct (json req) as [body|]; [|simpl; split; [in_list|lia]].
  destruct (chatCompletions_response world body (server_state srv))
    as [[_ Heq]|[(_ & _ & Heq)|(Hmsg & [rec Hrec] & Hcases)]].
  - rewrite Heq. simpl. split; [in_list|lia].
  - rewrite Heq. simpl. split; [in_list|lia].
  - pose proof (chatCompletions_all_failed world body (server_state srv))
      as Hall.
    destruct (chatCompletions world body (server_state srv)) as [r ls]
      eqn:Hchat.
    simpl in *. destruct Hcases as [Hc|[[Hs ->]|[Hs [e ->]]]].
    + destruct r; try discriminate Hc; simpl; (split; [in_list|lia]).
    + simpl. split; [in_list|lia].
    + simpl. split; [in_list|]. intros _.
      split; [exact Hpath|]. split; [exact Hmeth|].
      exists token, body, rec, e. rewrite ?Hchat.
      repeat (split; [auto; fail|]). exact (Hall eq_refl).
Qed.




Lemma handleRequest_registry_guarded_witness :
  server_state
    (snd (handleRequest plainBearer stillClock (failingWorld 1000 500)
            chatHi serverAB))
    <> server_state serverAB /\
  VALID_CLIENT_KEYS
    (snd (handleRequest plainBearer stillClock (failingWorld 1000 500)
            chatHi serverAB))
    = VALID_CLIENT_KEYS serverAB /\
  pathname chatHi = "/v1/chat/completions" /\
  method chatHi = "POST".
Proof.
  assert (H : server_state
                (snd (handleRequest plainBearer stillClock
                        (failingWorld 1000 500) chatHi serverAB))
              <> server_state serverAB).
  { intros Heq.
    apply (f_equal (fun st => error_count <$> RETOOL_ACCOUNTS st !! 0%nat))
      in Heq.
    vm_compute in Heq. discriminate Heq. }
  split; [exact H|].
  destruct (handleRequest_registry_guarded plainBearer stillClock
              (failingWorld 1000 500) chatHi serverAB) as (Hkeys & Hreg & _).
  split; [exact Hkeys|].
  destruct (Hreg H) as (Hp & Hm & _).
  split; [exact Hp|exact Hm].
Defined.


(** ** Loading the configuration *)

(** X22. A configuration that loads is never empty and starts healthy:
    both variables were set, the client keys (each trimmed and not empty)
    form a set that is not empty, the JSON was an array with at least one
    account, and every account comes out valid, with no errors, never
    used, without agents and without a selected agent. *)
Theorem loadConfig_success :
  forall (JSON_parse : string -> ParsedJson) (env : string -> option string)
         (cfg : Config),
    loadConfig JSON_parse env = Returned cfg ->
    exists keysText accountsText configs,
      env "CLIENT_API_KEYS" = Some keysText /\
      env "RETOOL_ACCOUNTS" = Some accountsText /\
      JSON_parse accountsText = JsonArray configs /\
      configs <> [] /\
      clientApiKeys cfg = parseClientApiKeys keysText /\
      clientApiKeys cfg <> ∅ /\
      (forall key, key ∈ clientApiKeys cfg -> key <> "" /\ trim key = key) /\
      retoolAccounts cfg = map freshAccount configs /\
      Forall (fun a => is_valid a = true /\ error_count a = 0 /\
                       last_used a = 0 /\ agents a = [] /\
                       selected_agent_id a = None)
        (retoolAccounts cfg).
Proof.
  intros JSON_parse env cfg. unfold loadConfig.
  destruct (env "CLIENT_API_KEYS") as [keysText|];
    [destruct (String.eqb keysText "") eqn:Hkeys|];
    (destruct (env "RETOOL_ACCOUNTS") as [accountsText|];
      [destruct (String.eqb accountsText "") eqn:Hacc|]);
    cbn [unset]; rewrite ?Hkeys, ?Hacc; cbn [app];
    try discriminate.
  cbn [default from_option]. unfold id.
  destruct (decide (size (parseClientApiKeys keysText) = 0%nat)) as [Hsz|Hsz].
  { destruct (parseRetoolAccounts JSON_parse accountsText) as [l|e|msg];
      [destruct l|..]; cbn [app]; discriminate. }
  unfold parseRetoolAccounts. rewrite Hacc. cbn [orb].
  destruct (String.eqb (trim accountsText) ""); [cbn [app]; discriminate|].
  destruct (JSON_parse accountsText) as [msg| |configs] eqn:Hparse;
    try (cbn [app]; discriminate).
  destruct configs as [|c configs]; [cbn [app map]; discriminate|].
  cbn [app map]. intros [= <-]. cbn [clientApiKeys retoolAccounts].
  exists keysText, accountsText, (c :: configs).
  split; [reflexivity|]. split; [reflexivity|]. split; [exact Hparse|].
  split; [discriminate|]. split; [reflexivity|]. split.
  { intros Hempty. apply Hsz. rewrite Hempty. apply size_empty. }
  split.
  { intros key Hin.
    apply parseClientApiKeys_elem in Hin as (Hne & segment & _ & ->).
    split; [exact Hne|apply trim_idem]. }
  split; [reflexivity|].
  apply Forall_forall. intros a Hin.
  change (freshAccount c :: map freshAccount configs)
    with (map freshAccount (c :: configs)) in Hin.
  apply list_elem_of_fmap in Hin as (c' & -> & _). simpl. auto 10.
Qed.

Lemma loadConfig_success_witness :
  loadConfig parseOne envOne
    = Returned
        (mkConfig (parseClientApiKeys "sk-one") [accountA] false) /\
  retoolAccounts (mkConfig (parseClientApiKeys "sk-one") [accountA] false)
    <> [].
Proof.
  assert (H : loadConfig parseOne envOne
              = Returned
                  (mkConfig (parseClientApiKeys "sk-one") [accountA] false))
    by (vm_compute; reflexivity).
  split; [exact H|].
  destruct (loadConfig_success parseOne envOne _ H)
    as (k & a & configs & _ & _ & _ & Hne & _ & _ & _ & Hmap & _).
  rewrite Hmap. destruct configs; [contradiction|discriminate].
Defined.

(** ** The first attempt that succeeds *)

Lemma retryLoop_first_success (world : nat -> Attempt)
    (body : ChatCompletionRequest) (remaining attempt : nat) (ls : LoopState)
    (resp : Response) :
  fst (retryLoop world body remaining attempt ls) = Some resp ->
  exists n text,
    (n < remaining)%nat /\
    attempt_outcome (world (attempt + n)%nat) = Returned text /\
    (forall j t, (j < n)%nat ->
                 attempt_outcome (world (attempt + j)%nat) <> Returned t) /\
    resp = (if req_stream body
            then ChatCompletionStream (req_model body) text
            else ChatCompletion (req_model body) text) /\
    length (tried (snd (retryLoop world body remaining attempt ls)))
      = (length (tried ls) + n + 1)%nat.
Proof.
  revert attempt ls. induction remaining as [|remaining IH];
    intros attempt ls; [discriminate|].
  simpl.
  destruct (getBestRetoolAccount _ _ (loop_state ls)) as [[chosen|] st1];
    [|discriminate].
  destruct (attempt_outcome (world attempt)) as [txt|e|msg] eqn:Hout.
  - simpl. intros [= <-]. exists 0%nat, txt. rewrite Nat.add_0_r.
    split; [lia|]. split; [exact Hout|]. split; [intros j t Hj; lia|].
    split; [reflexivity|]. rewrite length_app. simpl. lia.
  - intros H. destruct (IH _ _ H) as (n & text & Hn & Hok & Hbefore & Hr & Hl).
    exists (S n), text. split; [lia|].
    replace (attempt + S n)%nat with (S attempt + n)%nat by lia.
    split; [exact Hok|]. split.
    + intros j t Hj. destruct j as [|j].
      * rewrite Nat.add_0_r, Hout. discriminate.
      * replace (attempt + S j)%nat with (S attempt + j)%nat by lia.
        apply Hbefore. lia.
    + split; [exact Hr|]. rewrite Hl. simpl. rewrite length_app. simpl. lia.
  - intros H. destruct (IH _ _ H) as (n & text & Hn & Hok & Hbefore & Hr & Hl).
    exists (S n), text. split; [lia|].
    replace (attempt + S n)%nat with (S attempt + n)%nat by lia.
    split; [exact Hok|]. split.
    + intros j t Hj. destruct j as [|j].
      * rewrite Nat.add_0_r, Hout. discriminate.
      * replace (attempt + S j)%nat with (S attempt + j)%nat by lia.
        apply Hbefore. lia.
    + split; [exact Hr|]. rewrite Hl. simpl. rewrite length_app. simpl. lia.
Qed.

(** X23. A completion carries the text of the first attempt that
    succeeded: when a request is answered with a completion holding
    [text], some attempt number [n], below the number of accounts, ended
    with [text], every attempt before it failed, and [n + 1] attempts were
    made in all; none was made after the success. *)
Theorem chatCompletions_first_success :
  forall (world : nat -> Attempt) (body : ChatCompletionRequest) (st : State),
    isCompletion (fst (chatCompletions world body st)) = true ->
    exists n text,
      (n < length (RETOOL_ACCOUNTS st))%nat /\
      attempt_outcome (world n) = Returned text /\
      (forall j t, (j < n)%nat -> attempt_outcome (world j) <> Returned t) /\
      fst (chatCompletions world body st)
        = (if req_stream body
           then ChatCompletionStream (req_model body) text
           else ChatCompletion (req_model body) text) /\
      length (tried (snd (chatCompletions world body st))) = S n.
Proof.
  intros world body st. unfold chatCompletions.
  destruct (req_messages body); [discriminate|].
  destruct (findModel _ _); [|discriminate].
  pose proof (retryLoop_first_success world body
                (length (RETOOL_ACCOUNTS st)) 0%nat (mkLoop st 0 [] []))
    as Hfirst.
  destruct (retryLoop _ _ _ _ _) as [[resp|] ls]; simpl in *.
  - intros _. destruct (Hfirst resp eq_refl)
      as (n & text & Hn & Hok & Hbefore & Hr & Hl).
    exists n, text. split; [exact Hn|]. split; [exact Hok|].
    split; [exact Hbefore|]. split; [exact Hr|]. lia.
  - destruct (req_stream body); discriminate.
Qed.

(** ** JetBrains tokens *)

Lemma nextJwt_some (jwts : list string) (index : nat) :
  (index < length jwts)%nat ->
  nextJwt jwts index =
  Some (jwts !! index, ((index + 1) mod length jwts)%nat).
Proof. destruct jwts; [simpl; lia|reflexivity]. Qed.

Lemma nextJwts_calls (jwts : list string) (n index : nat) :
  (index < length jwts)%nat ->
  nextJwts jwts n index =
  (map (fun k => jwts !! ((index + k) mod length jwts)%nat) (seq 0 n),
   ((index + n) mod length jwts)%nat).
Proof.
  revert index. induction n as [|n IH]; intros index Hlt.
  - cbn [nextJwts seq map].
    rewrite Nat.add_0_r, Nat.mod_small by exact Hlt. reflexivity.
  - cbn [nextJwts]. rewrite (nextJwt_some jwts index Hlt).
    assert (Hnext : ((index + 1) mod length jwts < length jwts)%nat)
      by (apply Nat.mod_upper_bound; lia).
    rewrite (IH _ Hnext). cbn [seq map]. f_equal.
    + f_equal.
      * rewrite Nat.add_0_r, Nat.mod_small by exact Hlt. reflexivity.
      * rewrite <- fmap_S_seq. change map with (@fmap list _).
        rewrite <- list_fmap_compose.
        apply list_fmap_ext. intros _ k _. unfold compose.
        rewrite Nat.Div0.add_mod_idemp_l. f_equal. f_equal. lia.
    + rewrite Nat.Div0.add_mod_idemp_l. f_equal. lia.
Qed.

(** X24. The JetBrains tokens are handed out in rotation: starting from a
    counter inside the list, as many calls of [nextJwt] as there are tokens
    return every token exactly once, in list order from the counter on and
    around, and leave the counter where it was. *)
Theorem nextJwts_rotation :
  forall (jwts : list string) (index : nat),
    (index < length jwts)%nat ->
    nextJwts jwts (length jwts) index =
    (map Some (drop index jwts ++ take index jwts), index).
Proof.
  intros jwts index Hlt. rewrite (nextJwts_calls jwts _ index Hlt). f_equal.
  - apply list_eq. intros i.
    rewrite !list_lookup_fmap.
    destruct (decide (i < length jwts)%nat) as [Hi|Hi].
    + assert (Hseq : seq 0 (length jwts) !! i = Some i)
        by (apply lookup_seq; split; [reflexivity|exact Hi]).
      rewrite Hseq. simpl.
      destruct (decide (i < length jwts - index)%nat) as [Hfront|Hback].
      * rewrite lookup_app_l by (rewrite length_drop; exact Hfront).
        rewrite lookup_drop, Nat.mod_small by lia.
        destruct (lookup_lt_is_Some_2 jwts (index + i)) as [x Hx]; [lia|].
        rewrite Hx. reflexivity.
      * rewrite lookup_app_r by (rewrite length_drop; lia).
        rewrite length_drop, lookup_take_lt by lia.
        rewrite <- (Nat.mod_unique (index + i) (length jwts) 1
                      (i - (length jwts - index))) by lia.
        destruct (lookup_lt_is_Some_2 jwts (i - (length jwts - index)))
          as [x Hx]; [lia|].
        rewrite Hx. reflexivity.
    + rewrite (lookup_ge_None_2 (seq 0 (length jwts)))
        by (rewrite length_seq; lia).
      rewrite lookup_ge_None_2; [reflexivity|].
      rewrite length_app, length_drop, length_take. lia.
  - rewrite <- (Nat.mod_unique (index + length jwts) (length jwts) 1 index)
      by lia.
    reflexivity.
Qed.

Lemma nextJwts_rotation_witness :
  (1 < length shippedJwts)%nat /\
  nextJwts shippedJwts (length shippedJwts) 1
    = ([Some "your-jwt-here-2"; Some "your-jwt-here-1"], 1%nat).
Proof.
  assert (H : (1 < length shippedJwts)%nat) by (simpl; lia).
  split; [exact H|].
  exact (nextJwts_rotation shippedJwts 1%nat H).
Defined.

(** With two accounts serving the model and an upstream that fails the
    first attempt, the request is answered by the second attempt, made on
    the other account, and stops there. *)
Lemma chatCompletions_first_success_witness :
  isCompletion
    (fst (chatCompletions secondTryWorld requestHi stateTwo)) = true /\
  tried (snd (chatCompletions secondTryWorld requestHi stateTwo))
    = [0%nat; 1%nat] /\
  fst (chatCompletions secondTryWorld requestHi stateTwo)
    = ChatCompletion "claude-sonnet-4" "Hello" /\
  exists n text,
    (n < length (RETOOL_ACCOUNTS stateTwo))%nat /\
    attempt_outcome (secondTryWorld n) = Returned text /\
    (forall j t, (j < n)%nat -> attempt_outcome (secondTryWorld j) <> Returned t) /\
    fst (chatCompletions secondTryWorld requestHi stateTwo)
      = (if req_stream requestHi
         then ChatCompletionStream (req_model requestHi) text
         else ChatCompletion (req_model requestHi) text) /\
    length (tried (snd (chatCompletions secondTryWorld requestHi stateTwo)))
      = S n.
Proof.
  assert (H : isCompletion
                (fst (chatCompletions secondTryWorld requestHi stateTwo))
              = true)
    by (vm_compute; reflexivity).
  split; [exact H|]. split; [vm_compute; reflexivity|].
  split; [vm_compute; reflexivity|].
  exact (chatCompletions_first_success secondTryWorld requestHi stateTwo H).
Defined.
